(** * koishi-plugin-blacklist-online: the core of the plugin, verified

    A shallow embedding of [src/core.ts] (synchronisation, offline queue,
    moderation decision) and of the command layer of [src/index.ts] that
    feeds the queue.  Asynchronous functions are embedded as programs over
    the calls they await; a runner executes them against the record store
    and an environment that decides what every external call answers. *)

From stdpp Require Import gmap strings list sorting.
From Stdlib Require Import ZArith QArith Qround Ascii String.

Local Open Scope string_scope.
Local Open Scope Z_scope.

(** ** JavaScript values the plugin handles *)

Module Js.

(** A JSON leaf, as found in the fields of a request payload. *)
Inductive jval : Type :=
| JNull
| JBool (b : bool)
| JNum (n : Z)
| JStr (s : string).

#[global] Instance jval_eq_dec : EqDecision jval.
Proof. solve_decision. Defined.

Definition jval_to_sum (v : jval) : unit + bool + Z + string :=
  match v with
  | JNull => inl (inl (inl tt))
  | JBool b => inl (inl (inr b))
  | JNum n => inl (inr n)
  | JStr s => inr s
  end.

Definition jval_of_sum (x : unit + bool + Z + string) : jval :=
  match x with
  | inl (inl (inl _)) => JNull
  | inl (inl (inr b)) => JBool b
  | inl (inr n) => JNum n
  | inr s => JStr s
  end.

#[global] Instance jval_countable : Countable jval.
Proof.
  apply (inj_countable' jval_to_sum jval_of_sum).
  by intros [].
Defined.

(** A plain object: own string keys to JSON leaves. *)
Abbreviation obj := (gmap string jval).

(** [!!v] of JavaScript: [null], [false], [0] and the empty string are falsy. *)
Definition truthy (v : jval) : bool :=
  match v with
  | JNull => false
  | JBool b => b
  | JNum n => negb (Z.eqb n 0)
  | JStr s => negb (String.eqb s EmptyString)
  end.

(** [s || d] on strings. *)
Definition str_or (s d : string) : string :=
  if String.eqb s EmptyString then d else s.

(** A number of the configuration: any finite number, whole or not. *)
Abbreviation number := Q.

(** [i < x] for a counter [i] and a number [x]. *)
Definition below (i : Z) (x : number) : bool := negb (Qle_bool x (inject_Z i)).

(** How many counters [0, 1, 2, ...] are below [x]. *)
Definition rounds (x : number) : nat := Z.to_nat (Qceiling x).

(** What the plugin looks at in a caught value that is not [null] or
    [undefined]: its [code], whether its [response] is truthy, its [message],
    and its rendering [String(e)]. *)
Record ErrorValue : Type := mkErrorValue {
  code : option string;
  response : bool;
  message : string;
  rendered : string
}.

(** What a rejected promise or a [throw] carries: such a value, or [null] or
    [undefined], of which no property can be read. *)
Inductive JsError : Type :=
| Value (v : ErrorValue)
| Null
| Undefined.

Coercion Value : ErrorValue >-> JsError.

#[global] Instance ErrorValue_eq_dec : EqDecision ErrorValue.
Proof. solve_decision. Defined.

#[global] Instance JsError_eq_dec : EqDecision JsError.
Proof. solve_decision. Defined.

Definition nullish (e : JsError) : bool :=
  match e with
  | Value _ => false
  | Null | Undefined => true
  end.

(** [String(e)] *)
Definition String_of (e : JsError) : string :=
  match e with
  | Value v => rendered v
  | Null => "null"
  | Undefined => "undefined"
  end.

(** The error of reading a property of [undefined] or [null]. *)
Definition TypeError : ErrorValue :=
  {| code := None; response := false;
     message := "Cannot read properties of undefined";
     rendered := "TypeError: Cannot read properties of undefined" |}.

(** *** [String.prototype.replace] with a string pattern

    Only the first occurrence is replaced, and the replacement text is
    expanded: [$$] is a dollar, [$&] the match, [$`] the text before the
    match and [$'] the text after it. *)

Fixpoint drop_chars (n : nat) (s : string) : string :=
  match n, s with
  | O, _ => s
  | S n', String _ s' => drop_chars n' s'
  | S _, EmptyString => EmptyString
  end.

Fixpoint split_first (pat s : string) : option (string * string) :=
  if String.prefix pat s then Some (EmptyString, drop_chars (String.length pat) s)
  else match s with
       | EmptyString => None
       | String c s' =>
           match split_first pat s' with
           | Some (before, after) => Some (String c before, after)
           | None => None
           end
       end.

Fixpoint get_substitution (matched before after repl : string) : string :=
  match repl with
  | EmptyString => EmptyString
  | String c rest =>
      if Ascii.eqb c "$"%char then
        match rest with
        | String d rest' =>
            if Ascii.eqb d "$"%char then String "$"%char (get_substitution matched before after rest')
            else if Ascii.eqb d "&"%char then matched ++ get_substitution matched before after rest'
            else if Ascii.eqb d "`"%char then before ++ get_substitution matched before after rest'
            else if Ascii.eqb d "'"%char then after ++ get_substitution matched before after rest'
            else String c (get_substitution matched before after rest)
        | EmptyString => String c EmptyString
        end
      else String c (get_substitution matched before after rest)
  end.

Definition replace (s pat repl : string) : string :=
  match split_first pat s with
  | Some (before, after) => before ++ get_substitution pat before after repl ++ after
  | None => s
  end.

End Js.
Export Js.

(** ** The record store: five collections keyed by their primary keys

    Each collection is a finite map from the primary key declared in
    [ctx.model.extend] to the remaining columns of the row. *)

Module Store.

Inductive Mode : Type := off | notify | kick | both.

Inductive RequestType : Type := ADD | REMOVE | CANCEL.

#[global] Instance Mode_eq_dec : EqDecision Mode.
Proof. solve_decision. Defined.

#[global] Instance RequestType_eq_dec : EqDecision RequestType.
Proof. solve_decision. Defined.

(** [blacklist_users], primary key [user_id]. *)
Record BlacklistEntry : Type := mkBlacklistEntry {
  reason : string;
  operator_id : string;
  source_id : string;
  disabled : bool;
  updated_at : option Z
}.

(** [blacklist_whitelist], primary key [user_id]. *)
Record WhitelistEntry : Type := mkWhitelistEntry {
  w_reason : string;
  w_operator_id : string;
  created_at : option Z
}.

(** [blacklist_request_queue], primary key [id]. *)
Record OfflineRequest : Type := mkOfflineRequest {
  type : RequestType;
  payload : obj;
  createdAt : Z;
  retryCount : Z
}.

#[global] Instance BlacklistEntry_eq_dec : EqDecision BlacklistEntry.
Proof. solve_decision. Defined.

#[global] Instance WhitelistEntry_eq_dec : EqDecision WhitelistEntry.
Proof. solve_decision. Defined.

#[global] Instance OfflineRequest_eq_dec : EqDecision OfflineRequest.
Proof. solve_decision. Defined.

(** A row as the remote authority delivers it: the key, and the columns it
    chooses to send. *)
Record BlacklistRow : Type := mkBlacklistRow {
  user_id : string;
  set_reason : option string;
  set_operator_id : option string;
  set_source_id : option string;
  set_disabled : option bool;
  set_updated_at : option Z
}.

Record WhitelistRow : Type := mkWhitelistRow {
  w_user_id : string;
  set_w_reason : option string;
  set_w_operator_id : option string;
  set_created_at : option Z
}.

Record Tables : Type := mkTables {
  blacklist_users : gmap string BlacklistEntry;
  blacklist_whitelist : gmap string WhitelistEntry;
  blacklist_request_queue : gmap jval OfflineRequest;
  blacklist_meta : gmap string string;
  blacklist_guild_settings : gmap string Mode
}.

Definition with_users (f : gmap string BlacklistEntry -> gmap string BlacklistEntry) (t : Tables) : Tables :=
  {| blacklist_users := f (blacklist_users t);
     blacklist_whitelist := blacklist_whitelist t;
     blacklist_request_queue := blacklist_request_queue t;
     blacklist_meta := blacklist_meta t;
     blacklist_guild_settings := blacklist_guild_settings t |}.

Definition with_whitelist (f : gmap string WhitelistEntry -> gmap string WhitelistEntry) (t : Tables) : Tables :=
  {| blacklist_users := blacklist_users t;
     blacklist_whitelist := f (blacklist_whitelist t);
     blacklist_request_queue := blacklist_request_queue t;
     blacklist_meta := blacklist_meta t;
     blacklist_guild_settings := blacklist_guild_settings t |}.

Definition with_queue (f : gmap jval OfflineRequest -> gmap jval OfflineRequest) (t : Tables) : Tables :=
  {| blacklist_users := blacklist_users t;
     blacklist_whitelist := blacklist_whitelist t;
     blacklist_request_queue := f (blacklist_request_queue t);
     blacklist_meta := blacklist_meta t;
     blacklist_guild_settings := blacklist_guild_settings t |}.

Definition with_meta (f : gmap string string -> gmap string string) (t : Tables) : Tables :=
  {| blacklist_users := blacklist_users t;
     blacklist_whitelist := blacklist_whitelist t;
     blacklist_request_queue := blacklist_request_queue t;
     blacklist_meta := f (blacklist_meta t);
     blacklist_guild_settings := blacklist_guild_settings t |}.

(** *** [upsert]: insert a missing key with the columns' initial values,
    then overwrite the columns the row carries. *)

Definition initial_entry : BlacklistEntry :=
  {| reason := EmptyString; operator_id := EmptyString; source_id := EmptyString;
     disabled := false; updated_at := None |}.

Definition initial_exempt : WhitelistEntry :=
  {| w_reason := EmptyString; w_operator_id := EmptyString; created_at := None |}.

Definition overwrite (r : BlacklistRow) (e : BlacklistEntry) : BlacklistEntry :=
  {| reason := default (reason e) (set_reason r);
     operator_id := default (operator_id e) (set_operator_id r);
     source_id := default (source_id e) (set_source_id r);
     disabled := default (disabled e) (set_disabled r);
     updated_at := match set_updated_at r with Some t => Some t | None => updated_at e end |}.

Definition overwrite_exempt (r : WhitelistRow) (e : WhitelistEntry) : WhitelistEntry :=
  {| w_reason := default (w_reason e) (set_w_reason r);
     w_operator_id := default (w_operator_id e) (set_w_operator_id r);
     created_at := match set_created_at r with Some t => Some t | None => created_at e end |}.

(** [upsert(table, rows)] for a table keyed by [key], one row after the other. *)
Definition upsert_row {R E : Type} (key : R -> string) (initial : E)
    (overwrite : R -> E -> E) (t : gmap string E) (r : R) : gmap string E :=
  <[key r := overwrite r (default initial (t !! key r))]> t.

Definition upsert {R E : Type} (key : R -> string) (initial : E)
    (overwrite : R -> E -> E) (rows : list R) (t : gmap string E) : gmap string E :=
  foldl (upsert_row key initial overwrite) t rows.

Definition upsert_users : list BlacklistRow -> gmap string BlacklistEntry -> gmap string BlacklistEntry :=
  upsert user_id initial_entry overwrite.

Definition upsert_whitelist : list WhitelistRow -> gmap string WhitelistEntry -> gmap string WhitelistEntry :=
  upsert w_user_id initial_exempt overwrite_exempt.

(** What the rows of one [upsert] make of the entry under key [k]. *)
Fixpoint patched {R E : Type} (key : R -> string) (initial : E)
    (overwrite : R -> E -> E) (k : string) (rows : list R) (o : option E) : option E :=
  match rows with
  | [] => o
  | r :: rest =>
      patched key initial overwrite k rest
        (if decide (key r = k) then Some (overwrite r (default initial o)) else o)
  end.

(** The single row that writes what two rows write one after the other. *)
Definition merge_rows (r1 r2 : BlacklistRow) : BlacklistRow :=
  {| user_id := user_id r2;
     set_reason := match set_reason r2 with Some v => Some v | None => set_reason r1 end;
     set_operator_id :=
       match set_operator_id r2 with Some v => Some v | None => set_operator_id r1 end;
     set_source_id :=
       match set_source_id r2 with Some v => Some v | None => set_source_id r1 end;
     set_disabled := match set_disabled r2 with Some v => Some v | None => set_disabled r1 end;
     set_updated_at :=
       match set_updated_at r2 with Some v => Some v | None => set_updated_at r1 end |}.

Definition merge_exempt_rows (r1 r2 : WhitelistRow) : WhitelistRow :=
  {| w_user_id := w_user_id r2;
     set_w_reason :=
       match set_w_reason r2 with Some v => Some v | None => set_w_reason r1 end;
     set_w_operator_id :=
       match set_w_operator_id r2 with Some v => Some v | None => set_w_operator_id r1 end;
     set_created_at :=
       match set_created_at r2 with Some v => Some v | None => set_created_at r1 end |}.

(** [remove(table, {user_id: ids})]: every row whose key is one of [ids]. *)
Definition remove_keys {V : Type} (ids : list string) (t : gmap string V) : gmap string V :=
  foldr delete t ids.

(** [get(queue, {}, {limit: 10, sort: {createdAt: 'asc'}})]: the rows by
    [createdAt].  Among rows created at the same time the query asks for no
    order and the store's own decides; [place] is the place of each key in
    it. *)
Definition older (place : jval -> Z) (a b : jval * OfflineRequest) : Prop :=
  createdAt a.2 < createdAt b.2 \/
  (createdAt a.2 = createdAt b.2 /\ place a.1 <= place b.1).

#[global] Instance older_dec (place : jval -> Z) : RelDecision (older place).
Proof. intros a b. unfold older. apply _. Defined.

Definition oldest (place : jval -> Z) (limit : nat) (q : gmap jval OfflineRequest)
    : list (jval * OfflineRequest) :=
  take limit (merge_sort (older place) (map_to_list q)).

Definition set_retryCount (n : Z) (r : OfflineRequest) : OfflineRequest :=
  {| type := type r; payload := payload r; createdAt := createdAt r; retryCount := n |}.

(** [get(blacklist_users, {user_id, disabled: false})] *)
Definition active_entries (uid : string) (t : gmap string BlacklistEntry) : list BlacklistEntry :=
  match t !! uid with
  | Some e => if disabled e then [] else [e]
  | None => []
  end.

End Store.
Export Store.

(** ** What the plugin exchanges with the outside *)

Module Wire.

(** The [data] of a [/sync] answer: a bare array (older servers), an object
    with optional lists, or nothing at all. *)
Record SyncData : Type := mkSyncData {
  blacklist : option (list BlacklistRow);
  whitelist : option (list WhitelistRow);
  upserts : option (list BlacklistRow);
  deletes : option (list string);
  whitelist_upserts : option (list WhitelistRow);
  whitelist_deletes : option (list string)
}.

Inductive SyncPayload : Type :=
| DataArray (rows : list BlacklistRow)
| DataObject (d : SyncData)
| DataAbsent.

Record SyncResponse : Type := mkSyncResponse {
  strategy : string;
  newRevision : string;
  data : SyncPayload
}.

(** A guild member as the platform reports it: [nick], [user?.name] (empty
    when absent) and [roles || []]. *)
Record Member : Type := mkMember {
  nick : string;
  name : string;
  roles : list string
}.

(** What [session.send] is given: the text, quoting a message or not. *)
Inductive Outgoing : Type :=
| Plain (msg : string)
| Quoting (messageId : string) (msg : string).

Inductive Level : Type := debug | info | warn | error.

(** Where and how an HTTP request is sent. *)
Record Request : Type := mkRequest {
  url : string;
  authorization : string;
  timeout : option Z
}.

End Wire.
Export Wire.

(** ** Asynchronous programs and their execution *)

Module Effects.

(** Every call the plugin makes outside its own code. *)
Inductive Op : Type :=
(* ctx.database *)
| MetaGet (key : string)
| MetaUpsert (key value : string)
| UsersRemoveAll
| UsersUpsert (rows : list BlacklistRow)
| UsersRemove (ids : list string)
| UsersGetActive (uid : string)
| WhitelistRemoveAll
| WhitelistUpsert (rows : list WhitelistRow)
| WhitelistRemove (ids : list string)
| WhitelistGet (uid : string)
| QueueCreate (id : jval) (row : OfflineRequest)
| QueueGet (limit : nat)
| QueueRemove (id : jval)
| QueueSetRetryCount (id : jval) (n : Z)
| SettingsGet (guildId : string)
(* ctx.http *)
| PostSync (req : Request) (revision : string) (instanceId : option string)
| PostApplications (req : Request) (body : obj)
(* session and session.bot *)
| GetGuildMember (guildId userId : string)
| KickGuildMember (guildId userId : string)
| SessionSend (content : Outgoing)
(* runtime *)
| Sleep (ms : number)
| RandomUUID
| NewDate
| Log (level : Level).

Definition reply (o : Op) : Type :=
  match o with
  | MetaGet _ => list (string * string)
  | UsersGetActive _ => list BlacklistEntry
  | WhitelistGet _ => list WhitelistEntry
  | QueueGet _ => list (jval * OfflineRequest)
  | SettingsGet _ => list (string * Mode)
  | PostSync _ _ _ => option SyncResponse
  | GetGuildMember _ _ => option Member
  | RandomUUID => string
  | NewDate => Z
  | _ => unit
  end.

Inductive Result (A : Type) : Type :=
| Resolved (a : A)
| Rejected (e : JsError).
Arguments Resolved {A} a.
Arguments Rejected {A} e.

(** The environment: what every call answers, by the number of calls made
    before it; [queue_order] is the store's own order of the queued requests,
    a place for each key. *)
Record Env : Type := mkEnv {
  store_fault : nat -> option JsError;
  queue_order : nat -> jval -> Z;
  post_sync : nat -> Request -> string -> option string -> Result (option SyncResponse);
  post_applications : nat -> Request -> obj -> option JsError;
  guild_member : nat -> string -> string -> Result (option Member);
  kick_member : nat -> string -> string -> option JsError;
  session_send : nat -> Outgoing -> option JsError;
  random_uuid : nat -> string;
  clock : nat -> Z
}.

Record Event : Type := mkEvent {
  call : Op;
  failure : option JsError
}.

(** The state shared by all invocations: the store, the module-level lock
    [isProcessingQueue], and the calls made so far. *)
Record World : Type := mkWorld {
  db : Tables;
  isProcessingQueue : bool;
  trace : list Event
}.

Definition with_lock (b : bool) (w : World) : World :=
  {| db := db w; isProcessingQueue := b; trace := trace w |}.

Definition record (o : Op) (f : option JsError) (t : Tables) (w : World) : World :=
  {| db := t; isProcessingQueue := isProcessingQueue w;
     trace := (trace w ++ [mkEvent o f])%list |}.

Definition now (w : World) : nat := List.length (trace w).

Definition duplicate_key : ErrorValue :=
  {| code := None; response := false; message := "duplicate entry";
     rendered := "Error: duplicate entry" |}.

Definition row_of {K V : Type} (k : K) (o : option V) : list (K * V) :=
  match o with Some v => [(k, v)] | None => [] end.

(** What a store call does when the store accepts it, the queued requests
    being in the order [place]. *)
Definition store_step (place : jval -> Z) (o : Op) (t : Tables) : Result (reply o) * Tables :=
  match o return Result (reply o) * Tables with
  | MetaGet k => (Resolved (row_of k (blacklist_meta t !! k)), t)
  | MetaUpsert k v => (Resolved tt, with_meta (insert k v) t)
  | UsersRemoveAll => (Resolved tt, with_users (fun _ => ∅) t)
  | UsersUpsert rows => (Resolved tt, with_users (upsert_users rows) t)
  | UsersRemove ids => (Resolved tt, with_users (remove_keys ids) t)
  | UsersGetActive uid => (Resolved (active_entries uid (blacklist_users t)), t)
  | WhitelistRemoveAll => (Resolved tt, with_whitelist (fun _ => ∅) t)
  | WhitelistUpsert rows => (Resolved tt, with_whitelist (upsert_whitelist rows) t)
  | WhitelistRemove ids => (Resolved tt, with_whitelist (remove_keys ids) t)
  | WhitelistGet uid => (Resolved (option_list (blacklist_whitelist t !! uid)), t)
  | QueueCreate id row =>
      match blacklist_request_queue t !! id with
      | Some _ => (Rejected duplicate_key, t)
      | None => (Resolved tt, with_queue (insert id row) t)
      end
  | QueueGet limit => (Resolved (oldest place limit (blacklist_request_queue t)), t)
  | QueueRemove id => (Resolved tt, with_queue (delete id) t)
  | QueueSetRetryCount id n => (Resolved tt, with_queue (alter (set_retryCount n) id) t)
  | SettingsGet g => (Resolved (row_of g (blacklist_guild_settings t !! g)), t)
  | PostSync _ _ _ => (Resolved None, t)
  | GetGuildMember _ _ => (Resolved None, t)
  | RandomUUID => (Resolved EmptyString, t)
  | NewDate => (Resolved 0, t)
  | PostApplications _ _ | KickGuildMember _ _ | SessionSend _ | Sleep _ | Log _ =>
      (Resolved tt, t)
  end.

Definition unit_result (f : option JsError) : Result unit :=
  match f with Some e => Rejected e | None => Resolved tt end.

(** The answer of a call made in world [w], before it is recorded.  A store
    call that the store refuses throws and writes nothing. *)
Definition answer (env : Env) (o : Op) (w : World) : Result (reply o) * Tables :=
  match o return Result (reply o) * Tables with
  | PostSync req rev inst => (post_sync env (now w) req rev inst, db w)
  | PostApplications req body => (unit_result (post_applications env (now w) req body), db w)
  | GetGuildMember g u => (guild_member env (now w) g u, db w)
  | KickGuildMember g u => (unit_result (kick_member env (now w) g u), db w)
  | SessionSend c => (unit_result (session_send env (now w) c), db w)
  | Sleep _ => (Resolved tt, db w)
  | Log _ => (Resolved tt, db w)
  | RandomUUID => (Resolved (random_uuid env (now w)), db w)
  | NewDate => (Resolved (clock env (now w)), db w)
  | o' =>
      match store_fault env (now w) with
      | Some e => (Rejected e, db w)
      | None => store_step (queue_order env (now w)) o' (db w)
      end
  end.

Definition failure_of {A : Type} (r : Result A) : option JsError :=
  match r with Resolved _ => None | Rejected e => Some e end.

Definition perform (env : Env) (o : Op) (w : World) : Result (reply o) * World :=
  let '(r, t) := answer env o w in (r, record o (failure_of r) t w).

(** Programs: the synchronous steps on the lock, and the awaited calls with
    what follows each answer. *)
Inductive Prog (A : Type) : Type :=
| Ret (a : A)
| Throw (e : JsError)
| ReadLock (k : bool -> Prog A)
| WriteLock (b : bool) (k : Prog A)
| Await (o : Op) (k : Result (reply o) -> Prog A).
Arguments Ret {A} a.
Arguments Throw {A} e.
Arguments ReadLock {A} k.
Arguments WriteLock {A} b k.
Arguments Await {A} o k.

Fixpoint bind {A B : Type} (p : Prog A) (f : A -> Prog B) : Prog B :=
  match p with
  | Ret a => f a
  | Throw e => Throw e
  | ReadLock k => ReadLock (fun b => bind (k b) f)
  | WriteLock b k => WriteLock b (bind k f)
  | Await o k => Await o (fun r => bind (k r) f)
  end.

#[global] Instance Prog_ret : MRet Prog := fun A a => Ret a.
#[global] Instance Prog_bind : MBind Prog := fun A B f p => bind p f.

(** [await call]: a rejection is thrown where the call is awaited. *)
Definition await (o : Op) : Prog (reply o) :=
  Await o (fun r => match r with Resolved a => Ret a | Rejected e => Throw e end).

(** [try { p } catch (e) { h e }] *)
Fixpoint try_catch {A : Type} (p : Prog A) (h : JsError -> Prog A) : Prog A :=
  match p with
  | Ret a => Ret a
  | Throw e => h e
  | ReadLock k => ReadLock (fun b => try_catch (k b) h)
  | WriteLock b k => WriteLock b (try_catch k h)
  | Await o k => Await o (fun r => try_catch (k r) h)
  end.

(** [try { p } finally { q }] *)
Fixpoint finally {A : Type} (p : Prog A) (q : Prog unit) : Prog A :=
  match p with
  | Ret a => bind q (fun _ => Ret a)
  | Throw e => bind q (fun _ => Throw e)
  | ReadLock k => ReadLock (fun b => finally (k b) q)
  | WriteLock b k => WriteLock b (finally k q)
  | Await o k => Await o (fun r => finally (k r) q)
  end.

(** Running a program to its end, one invocation at a time. *)
Fixpoint run {A : Type} (env : Env) (p : Prog A) (w : World) : Result A * World :=
  match p with
  | Ret a => (Resolved a, w)
  | Throw e => (Rejected e, w)
  | ReadLock k => run env (k (isProcessingQueue w)) w
  | WriteLock b k => run env k (with_lock b w)
  | Await o k => let '(r, w') := perform env o w in run env (k r) w'
  end.

(** The value of the lock each time the running program is suspended on a
    call: the moments at which another invocation can start. *)
Fixpoint lock_when_suspended {A : Type} (env : Env) (p : Prog A) (w : World) : list bool :=
  match p with
  | Ret _ | Throw _ => []
  | ReadLock k => lock_when_suspended env (k (isProcessingQueue w)) w
  | WriteLock b k => lock_when_suspended env k (with_lock b w)
  | Await o k =>
      isProcessingQueue w ::
      (let '(r, w') := perform env o w in lock_when_suspended env (k r) w')
  end.

(** Running a program while other invocations of [other] come in: one while
    each call is pending and one when its answer is there, each run to its
    end before the program goes on. *)
Fixpoint run_interleaved {A : Type} (env : Env) (other : Prog unit) (p : Prog A)
    (w : World) : Result A * World :=
  match p with
  | Ret a => (Resolved a, w)
  | Throw e => (Rejected e, w)
  | ReadLock k => run_interleaved env other (k (isProcessingQueue w)) w
  | WriteLock b k => run_interleaved env other k (with_lock b w)
  | Await o k =>
      let w1 := (run env other w).2 in
      let '(r, w2) := perform env o w1 in
      let w3 := (run env other w2).2 in
      run_interleaved env other (k r) w3
  end.

(** Programs that never write the lock and make only calls in [P]. *)
Inductive calls {A : Type} (P : Op -> Prop) : Prog A -> Prop :=
| calls_ret a : calls P (Ret a)
| calls_throw e : calls P (Throw e)
| calls_read k : (forall b, calls P (k b)) -> calls P (ReadLock k)
| calls_await o k : P o -> (forall r, calls P (k r)) -> calls P (Await o k).

(** Programs in which a rejected call is thrown on, never handled. *)
Inductive propagates {A : Type} : Prog A -> Prop :=
| propagates_ret a : propagates (Ret a)
| propagates_throw e : propagates (Throw e)
| propagates_read k : (forall b, propagates (k b)) -> propagates (ReadLock k)
| propagates_write b k : propagates k -> propagates (WriteLock b k)
| propagates_await o k :
    (forall e, k (Rejected e) = Throw e) ->
    (forall a, propagates (k (Resolved a))) ->
    propagates (Await o k).

End Effects.
Export Effects.

(** ** [src/core.ts] *)

Module Core.

Record PluginConfig : Type := mkPluginConfig {
  remoteApiUrl : string;
  apiToken : string;
  adminRoles : option (list string);
  protectedUsers : option (list string);
  defaultGuildMode : Mode;
  enableAutoReject : bool;
  skipBotMembers : bool;
  retryAttempts : number;
  retryDelay : number;
  verifyKickResult : bool;
  rejectionMessage : string;
  adminNotifyMessage : string;
  kickNotifyMessage : string;
  kickFailMessage : string;
  autoRejectNotifyMessage : string
}.

(** The fields of a session the core reads. *)
Record Session : Type := mkSession {
  guildId : option string;
  messageId : option string
}.

(** A string that is there and not empty, that is, truthy. *)
Definition present (o : option string) : option string :=
  match o with
  | Some s => if String.eqb s EmptyString then None else Some s
  | None => None
  end.

(** [rows[0]?.value] *)
Definition first_value {K V : Type} (rows : list (K * V)) : option V :=
  snd <$> head rows.

Definition bearer (config : PluginConfig) : string := "Bearer " ++ apiToken config.

(** *** 2. [syncBlacklist] *)

Definition batchSize : nat := 100.

(** [rows.slice(i, j)] *)
Definition slice {A : Type} (i j : nat) (rows : list A) : list A :=
  take (j - i) (drop i rows).

(** [for (let i = 0; i < rows.length; i += batchSize) await upsert(rows.slice(i, i + batchSize))],
    entered at index [i]; no more than [fuel] rounds. *)
Fixpoint upsert_batches {A : Type} (upsert : list A -> Op) (fuel i : nat) (rows : list A) : Prog unit :=
  match fuel with
  | O => Ret tt
  | S fuel' =>
      if (i <? List.length rows)%nat then
        await (upsert (slice i (i + batchSize) rows));;
        upsert_batches upsert fuel' (i + batchSize)%nat rows
      else Ret tt
  end.

Definition upsert_all {A : Type} (upsert : list A -> Op) (rows : list A) : Prog unit :=
  upsert_batches upsert (List.length rows) 0 rows.

Definition non_empty {A : Type} (l : option (list A)) : option (list A) :=
  match l with
  | Some (x :: l') => Some (x :: l')
  | _ => None
  end.

Definition full_replace (payload : SyncPayload) : Prog bool :=
  await (Log info);;
  await UsersRemoveAll;;
  await WhitelistRemoveAll;;
  lists ← match payload with
          | DataArray rows => Ret (rows, [])
          | DataObject d => Ret (default [] (blacklist d), default [] (whitelist d))
          | DataAbsent => Throw TypeError
          end;
  let '(blacklistData, whitelistData) := lists in
  hasNewEntries ← (if (0 <? List.length blacklistData)%nat
                   then upsert_all UsersUpsert blacklistData;; Ret true
                   else Ret false);
  (if (0 <? List.length whitelistData)%nat
   then upsert_all WhitelistUpsert whitelistData
   else Ret tt);;
  Ret hasNewEntries.

Definition incremental (payload : SyncPayload) : Prog bool :=
  await (Log info);;
  d ← match payload with
      | DataObject d => Ret d
      | DataArray _ => Ret (mkSyncData None None None None None None)
      | DataAbsent => Throw TypeError
      end;
  hasNewEntries ← match non_empty (upserts d) with
                  | Some rows => await (UsersUpsert rows);; Ret true
                  | None => Ret false
                  end;
  match non_empty (deletes d) with
  | Some ids => await (UsersRemove ids)
  | None => Ret tt
  end;;
  match non_empty (whitelist_upserts d) with
  | Some rows => await (WhitelistUpsert rows)
  | None => Ret tt
  end;;
  match non_empty (whitelist_deletes d) with
  | Some ids => await (WhitelistRemove ids)
  | None => Ret tt
  end;;
  Ret hasNewEntries.

(** The [try] block of [syncBlacklist]. *)
Definition sync_attempt (config : PluginConfig) : Prog bool :=
  meta ← await (MetaGet "sync_revision");
  let localRevision := default EmptyString (first_value meta) in
  instanceMeta ← await (MetaGet "instance_uuid");
  let instanceId := first_value instanceMeta in
  await (Log debug);;
  response ← await (PostSync
                      {| url := remoteApiUrl config ++ "/sync";
                         authorization := bearer config;
                         timeout := Some 10000 |}
                      localRevision instanceId);
  match response with
  | None => Throw TypeError
  | Some r =>
      if String.eqb (strategy r) "up-to-date" then
        await (Log debug);; Ret false
      else
        hasNewEntries ← (if String.eqb (strategy r) "full_replace" then full_replace (data r)
                         else if String.eqb (strategy r) "incremental" then incremental (data r)
                         else Ret false);
        await (MetaUpsert "sync_revision" (newRevision r));;
        await (Log info);;
        Ret hasNewEntries
  end.

(** The [catch] block reads [error.message] for the warning it logs, which
    throws when [error] is [null] or [undefined]. *)
Definition syncBlacklist (config : PluginConfig) : Prog bool :=
  try_catch (sync_attempt config)
    (fun error =>
       match error with
       | Value _ => await (Log warn);; Ret false
       | Null | Undefined => Throw TypeError
       end).

(** *** 3. [queueRequest] *)

Definition queueRequest (type : RequestType) (payload : obj) : Prog jval :=
  requestId ← match payload !! "requestId" with
              | Some v => if truthy v then Ret v else uuid ← await RandomUUID; Ret (JStr uuid)
              | None => uuid ← await RandomUUID; Ret (JStr uuid)
              end;
  let payload := <["requestId" := requestId]> payload in
  createdAt ← await NewDate;
  await (QueueCreate requestId
           {| type := type; payload := payload; createdAt := createdAt; retryCount := 0 |});;
  Ret requestId.

(** *** 4. [processOfflineQueue] *)

Definition isNetworkError (error : ErrorValue) : bool :=
  bool_decide (code error = Some "ECONNABORTED")
  || bool_decide (code error = Some "ENOTFOUND")
  || negb (response error).

(** [{...item.payload, instanceId, isOfflineRetry: true}] as it is serialised. *)
Definition retry_body (payload : obj) (instanceId : option string) : obj :=
  <["isOfflineRetry" := JBool true]>
    match instanceId with
    | Some v => <["instanceId" := JStr v]> payload
    | None => delete "instanceId" payload
    end.

Definition deliver (config : PluginConfig) (instanceId : option string)
    (item : jval * OfflineRequest) : Prog unit :=
  if 5 <? retryCount item.2 then
    await (Log warn);;
    await (QueueRemove item.1)
  else
    try_catch
      (await (PostApplications
                {| url := remoteApiUrl config ++ "/applications";
                   authorization := bearer config;
                   timeout := Some 5000 |}
                (retry_body (payload item.2) instanceId));;
       await (QueueRemove item.1);;
       await (Log info))
      (fun error =>
         match error with
         | Value e =>
             if isNetworkError e then await (Log debug)
             else
               await (Log warn);;
               await (QueueSetRetryCount item.1 (retryCount item.2 + 1))
         | Null | Undefined => Throw TypeError
         end).

(** [for (const item of queue) ...] *)
Fixpoint deliver_all (config : PluginConfig) (instanceId : option string)
    (queue : list (jval * OfflineRequest)) : Prog unit :=
  match queue with
  | [] => Ret tt
  | item :: rest => deliver config instanceId item;; deliver_all config instanceId rest
  end.

(** The [try] block of [processOfflineQueue]. *)
Definition drain (config : PluginConfig) : Prog unit :=
  queue ← await (QueueGet 10);
  match queue with
  | [] => Ret tt
  | _ :: _ =>
      instanceMeta ← await (MetaGet "instance_uuid");
      await (Log info);;
      deliver_all config (first_value instanceMeta) queue
  end.

Definition processOfflineQueue (config : PluginConfig) : Prog unit :=
  ReadLock (fun locked =>
    if locked then Ret tt
    else
      WriteLock true
        (finally
           (try_catch (drain config) (fun err => await (Log error)))
           (WriteLock false (Ret tt)))).

(** *** 1. [isUserAdmin] and 5. [checkAndHandleUser] *)

Section Moderation.

(** [String.prototype.toLowerCase] of the runtime. *)
Variable toLowerCase : string -> string.

Definition has_admin_role (config : PluginConfig) (member : Member) : bool :=
  let allowedRoles := map toLowerCase (default ["owner"; "admin"] (adminRoles config)) in
  let userRoles := map toLowerCase (roles member) in
  existsb (fun role => bool_decide (role ∈ allowedRoles)) userRoles.

Definition isUserAdmin (session : Session) (config : PluginConfig) (userId : string) : Prog bool :=
  match present (guildId session) with
  | None => Ret false
  | Some guild =>
      try_catch
        (member ← await (GetGuildMember guild userId);
         match member with
         | None => Ret false
         | Some m => Ret (has_admin_role config m)
         end)
        (fun error => Ret false)
  end.

Definition notification (config : PluginConfig) (mode : Mode)
    (displayName user_id reason guild : string) : string :=
  let tpl := if decide (mode = notify) then adminNotifyMessage config
             else kickNotifyMessage config in
  replace (replace (replace (replace tpl "{user}" displayName)
                      "{userId}" user_id) "{reason}" reason) "{guild}" guild.

Definition failMsg (config : PluginConfig) (displayName : string) (e : JsError) : string :=
  replace (replace (kickFailMessage config) "{user}" displayName) "{reason}" (String_of e).

(** [for (let i = 0; i < config.retryAttempts; i++) { try { kick; kicked = true; break } catch ... }],
    entered at index [i]; the result is [kicked]. *)
Fixpoint kick_attempts (config : PluginConfig) (guild user_id displayName : string)
    (fuel : nat) (i : Z) : Prog bool :=
  match fuel with
  | O => Ret false
  | S fuel' =>
      if below i (retryAttempts config) then
        bind
          (try_catch
             (await (KickGuildMember guild user_id);;
              await (Log info);;
              Ret true)
             (fun e =>
                (if below i (retryAttempts config - 1) then await (Sleep (retryDelay config))
                 else
                   try_catch (await (SessionSend (Plain (failMsg config displayName e))))
                     (fun _ => Ret tt));;
                Ret false))
          (fun kicked : bool =>
             if kicked then Ret true
             else kick_attempts config guild user_id displayName fuel' (i + 1))
      else Ret false
  end.

(** What follows the decision to enforce against [user_id]. *)
Definition enforce (config : PluginConfig) (session : Session) (mode : Mode)
    (guild user_id reason : string) : Prog bool :=
  await (Log info);;
  displayName ← try_catch
                  (member ← await (GetGuildMember guild user_id);
                   match member with
                   | Some m => Ret (str_or (nick m) (str_or (name m) user_id))
                   | None => Throw TypeError
                   end)
                  (fun _ => Ret user_id);
  (if decide (mode = notify ∨ mode = both) then
     let msg := notification config mode displayName user_id reason guild in
     try_catch
       (await (SessionSend
                 match present (messageId session) with
                 | Some id => Quoting id msg
                 | None => Plain msg
                 end))
       (fun e => await (Log warn))
   else Ret tt);;
  if decide (mode = kick ∨ mode = both) then
    bind
      (kick_attempts config guild user_id displayName (rounds (retryAttempts config)) 0)
      (fun kicked : bool =>
         (if kicked && verifyKickResult config then
            await (Sleep 2000%Q);;
            try_catch (await (GetGuildMember guild user_id);; await (Log warn))
              (fun _ => Ret tt)
          else Ret tt);;
         Ret kicked)
  else Ret false.

Definition checkAndHandleUser (config : PluginConfig) (session : Session)
    (user_id : string) : Prog bool :=
  match present (guildId session) with
  | None => Ret false
  | Some guild =>
      guildSettings ← await (SettingsGet guild);
      let mode := default (defaultGuildMode config) (first_value guildSettings) in
      if decide (mode = off) then Ret false
      else if bool_decide (user_id ∈ default [] (protectedUsers config)) then Ret false
      else
        whitelistEntries ← await (WhitelistGet user_id);
        if (0 <? List.length whitelistEntries)%nat then Ret false
        else
          entries ← await (UsersGetActive user_id);
          match entries with
          | [] => Ret false
          | entry :: _ =>
              let reason := str_or (reason entry) "QQ号黑名单" in
              bind (isUserAdmin session config user_id)
                (fun admin : bool =>
                   if admin then await (Log info);; Ret false
                   else enforce config session mode guild user_id reason)
          end
  end.

End Moderation.

End Core.
Export Core.

(** ** [src/index.ts]: the command layer that feeds the queue *)

Module Commands.

(** The body built by [blacklist.request] (lines 449-458): its id travels in
    the field [request_id]. *)
Definition request_payload (requestId : string) (applicant : option string)
    (userId reason guild : string) (timestamp : Z) : obj :=
  let fields : obj :=
    <["request_id" := JStr requestId]>
    (<["type" := JStr "ADD"]>
    (<["target_user_id" := JStr userId]>
    (<["reason" := JStr reason]>
    (<["guild_id" := JStr guild]>
    (<["timestamp" := JNum timestamp]> ∅))))) in
  match applicant with
  | Some a => <["applicant_id" := JStr a]> fields
  | None => fields
  end.

(** How a submission ends; the reply text shows [requestId] in both cases. *)
Inductive Submission : Type :=
| Submitted (requestId : string)
| Queued (requestId : string).

(** The end of the [blacklist.request] action, once the target has passed
    the local and remote allowlists. *)
Definition submit_request (config : PluginConfig) (applicant : option string)
    (userId reason guild : string) : Prog Submission :=
  requestId ← await RandomUUID;
  timestamp ← await NewDate;
  let payload := request_payload requestId applicant userId reason guild timestamp in
  try_catch
    (await (PostApplications
              {| url := remoteApiUrl config ++ "/applications";
                 authorization := bearer config;
                 timeout := None |}
              payload);;
     Ret (Submitted requestId))
    (fun e => queueRequest ADD payload;; Ret (Queued requestId)).

End Commands.
Export Commands.

(** ** What the properties observe *)

Module Observe.

Definition queue (w : World) : gmap jval OfflineRequest := blacklist_request_queue (db w).

Definition instance_uuid (w : World) : option string :=
  blacklist_meta (db w) !! "instance_uuid".

Definition sync_revision (w : World) : option string :=
  blacklist_meta (db w) !! "sync_revision".

(** The revision a sync sends: the stored one, or the empty string. *)
Definition localRevision (w : World) : string :=
  default EmptyString (sync_revision w).

(** The calls that have failed so far. *)
Definition failures (w : World) : list JsError := omap failure (trace w).

(** The bodies posted to [/applications] by the events [evs], in order. *)
Definition posts (evs : list Event) : list obj :=
  omap (fun ev => match call ev with PostApplications _ b => Some b | _ => None end) evs.

Definition enforcement (o : Op) : bool :=
  match o with
  | SessionSend _ | KickGuildMember _ _ => true
  | _ => false
  end.

(** The messages and removals attempted so far, in order. *)
Definition enforcements (w : World) : list Op :=
  filter (fun o => enforcement o = true) (map call (trace w)).

(** How the removals attempted so far ended, in order. *)
Definition kick_outcomes (w : World) : list (option JsError) :=
  omap (fun ev => match call ev with
                  | KickGuildMember _ _ => Some (failure ev)
                  | _ => None
                  end) (trace w).

(** The name shown for [user_id], given what the lookup of the member
    answered: [member.nick || member.user?.name || user_id], and [user_id]
    when the lookup failed. *)
Definition display_name (user_id : string) (looked_up : Result (option Member)) : string :=
  match looked_up with
  | Resolved (Some m) => str_or (nick m) (str_or (name m) user_id)
  | _ => user_id
  end.

(** The requests that a drain started in [w] fetches. *)
Definition fetched (env : Env) (w : World) : list (jval * OfflineRequest) :=
  oldest (queue_order env (now w)) 10 (queue w).

(** The deliveries that fail do so with a value that is not [null] or
    [undefined]. *)
Definition readable_failures (env : Env) : Prop :=
  forall n req body e, post_applications env n req body = Some e -> nullish e = false.

(** A queued request that is still within its retry budget. *)
Definition alive (item : jval * OfflineRequest) : Prop := retryCount item.2 <= 5.

#[global] Instance alive_dec item : Decision (alive item).
Proof. unfold alive. apply _. Defined.

Definition retry_request (config : PluginConfig) : Request :=
  {| url := remoteApiUrl config ++ "/applications";
     authorization := bearer config;
     timeout := Some 5000 |}.

(** The rows a [full_replace] answer delivers. *)
Definition delivered_blacklist (p : SyncPayload) : list BlacklistRow :=
  match p with
  | DataArray rows => rows
  | DataObject d => default [] (blacklist d)
  | DataAbsent => []
  end.

Definition delivered_whitelist (p : SyncPayload) : list WhitelistRow :=
  match p with
  | DataObject d => default [] (whitelist d)
  | _ => []
  end.

(** The writes an [incremental] answer asks for. *)
Definition changes (p : SyncPayload) : SyncData :=
  match p with
  | DataObject d => d
  | _ => mkSyncData None None None None None None
  end.

Definition apply_changes (d : SyncData) (t : Tables) : Tables :=
  with_whitelist
    (fun m => remove_keys (default [] (whitelist_deletes d))
                (upsert_whitelist (default [] (whitelist_upserts d)) m))
    (with_users
       (fun m => remove_keys (default [] (deletes d))
                   (upsert_users (default [] (upserts d)) m))
       t).

(** The branch of [syncBlacklist] on the strategy, once it is not [up-to-date]. *)
Definition reconcile (r : SyncResponse) : Prog bool :=
  if String.eqb (strategy r) "full_replace" then full_replace (data r)
  else if String.eqb (strategy r) "incremental" then incremental (data r)
  else Ret false.

(** Classes of calls. *)
Definition leaves_key (id : jval) (o : Op) : Prop :=
  match o with
  | QueueCreate k _ | QueueRemove k | QueueSetRetryCount k _ => k <> id
  | _ => True
  end.

Definition never_creates (o : Op) : Prop :=
  match o with QueueCreate _ _ => False | _ => True end.

Definition not_meta_write (o : Op) : Prop :=
  match o with MetaUpsert _ _ => False | _ => True end.

Definition no_kick (o : Op) : Prop :=
  match o with KickGuildMember _ _ => False | _ => True end.

End Observe.
Export Observe.

(** ** Concrete situations *)

Module Fixtures.

Definition refused : ErrorValue :=
  {| code := None; response := true; message := "Request failed with status code 400";
     rendered := "Error: Request failed with status code 400" |}.

Definition unreachable : ErrorValue :=
  {| code := Some "ENOTFOUND"; response := false; message := "getaddrinfo ENOTFOUND";
     rendered := "Error: getaddrinfo ENOTFOUND" |}.

Definition forbidden : ErrorValue :=
  {| code := None; response := false; message := "permission denied";
     rendered := "Error: permission denied" |}.

(** Everything works; the remote has nothing to say. *)
Definition quiet : Env :=
  {| store_fault := fun _ => None;
     queue_order := fun _ _ => 0;
     post_sync := fun _ _ _ _ => Resolved None;
     post_applications := fun _ _ _ => None;
     guild_member := fun _ _ _ => Resolved None;
     kick_member := fun _ _ _ => None;
     session_send := fun _ _ => None;
     random_uuid := fun _ => "fresh-uuid";
     clock := fun _ => 0 |}.

Definition answering (r : SyncResponse) : Env :=
  {| store_fault := fun _ => None;
     queue_order := fun _ _ => 0;
     post_sync := fun _ _ _ _ => Resolved (Some r);
     post_applications := fun _ _ _ => None;
     guild_member := fun _ _ _ => Resolved None;
     kick_member := fun _ _ _ => None;
     session_send := fun _ _ => None;
     random_uuid := fun _ => "fresh-uuid";
     clock := fun _ => 0 |}.

Definition rejecting (e : JsError) : Env :=
  {| store_fault := fun _ => None;
     queue_order := fun _ _ => 0;
     post_sync := fun _ _ _ _ => Rejected e;
     post_applications := fun _ _ _ => Some e;
     guild_member := fun _ _ _ => Resolved None;
     kick_member := fun _ _ _ => Some e;
     session_send := fun _ _ => None;
     random_uuid := fun _ => "fresh-uuid";
     clock := fun _ => 0 |}.

(** The remote cannot be reached; the first identifier drawn is [uuid-0],
    every later one is [uuid-later]. *)
Definition offline : Env :=
  {| store_fault := fun _ => None;
     queue_order := fun _ _ => 0;
     post_sync := fun _ _ _ _ => Rejected unreachable;
     post_applications := fun _ _ _ => Some (Value unreachable);
     guild_member := fun _ _ _ => Resolved None;
     kick_member := fun _ _ _ => None;
     session_send := fun _ _ => None;
     random_uuid := fun n => match n with O => "uuid-0" | S _ => "uuid-later" end;
     clock := fun _ => 0 |}.

Definition settings (mode : Mode) (protected : list string) : PluginConfig :=
  {| remoteApiUrl := "https://blacklist.example"; apiToken := "token";
     adminRoles := Some ["owner"; "admin"]; protectedUsers := Some protected;
     defaultGuildMode := mode; enableAutoReject := true; skipBotMembers := true;
     retryAttempts := 3; retryDelay := 2000; verifyKickResult := true;
     rejectionMessage := "rejected";
     adminNotifyMessage := "found {user} ({userId}): {reason}";
     kickNotifyMessage := "removing {user} ({userId}): {reason}";
     kickFailMessage := "cannot remove {user}: {reason}";
     autoRejectNotifyMessage := "refused {user} ({userId})" |}.

Definition with_retryAttempts (x : number) (config : PluginConfig) : PluginConfig :=
  {| remoteApiUrl := remoteApiUrl config; apiToken := apiToken config;
     adminRoles := adminRoles config; protectedUsers := protectedUsers config;
     defaultGuildMode := defaultGuildMode config;
     enableAutoReject := enableAutoReject config; skipBotMembers := skipBotMembers config;
     retryAttempts := x; retryDelay := retryDelay config;
     verifyKickResult := verifyKickResult config;
     rejectionMessage := rejectionMessage config;
     adminNotifyMessage := adminNotifyMessage config;
     kickNotifyMessage := kickNotifyMessage config;
     kickFailMessage := kickFailMessage config;
     autoRejectNotifyMessage := autoRejectNotifyMessage config |}.

Definition in_guild : Session := {| guildId := Some "g1"; messageId := None |}.

Definition spam : BlacklistEntry :=
  {| reason := "spam"; operator_id := "op"; source_id := "src"; disabled := false;
     updated_at := None |}.

Definition empty_tables : Tables :=
  {| blacklist_users := ∅; blacklist_whitelist := ∅; blacklist_request_queue := ∅;
     blacklist_meta := ∅; blacklist_guild_settings := ∅ |}.

Definition start : World :=
  {| db := empty_tables; isProcessingQueue := false; trace := [] |}.

(** [alice] is blocked, and nothing else is stored. *)
Definition alice_blocked : World :=
  {| db := with_users (insert "alice" spam) empty_tables;
     isProcessingQueue := false; trace := [] |}.

Definition request (n retries : Z) : OfflineRequest :=
  {| type := ADD; payload := {[ "request_id" := JNum n ]}; createdAt := n;
     retryCount := retries |}.

(** Two queued requests: the older has used up its retries, the newer has
    one left. *)
Definition backlog : World :=
  {| db := with_queue (fun _ => <[JStr "old" := request 1 6]> {[ JStr "new" := request 2 5 ]})
             empty_tables;
     isProcessingQueue := false; trace := [] |}.

(** Eleven queued requests, created at times 1 to 11; only the newest has
    used up its retries. *)
Definition crowded : World :=
  {| db := with_queue
             (fun _ => list_to_map
                         ((fun n : nat =>
                             (JNum (Z.of_nat n),
                              request (Z.of_nat n) (if (n =? 11)%nat then 6 else 0)))
                            <$> seq 1 11))
             empty_tables;
     isProcessingQueue := false; trace := [] |}.

(** A drain is in flight. *)
Definition draining : World :=
  {| db := db backlog; isProcessingQueue := true; trace := [] |}.

Definition scenario_row : BlacklistRow :=
  {| user_id := "u1"; set_reason := Some "spam"; set_operator_id := None;
     set_source_id := None; set_disabled := Some false; set_updated_at := None |}.

(** [strategy=full_replace, data.blacklist=[{user_id:"u1",reason:"spam",disabled:false}], newRevision="r1"] *)
Definition scenario_response : SyncResponse :=
  {| strategy := "full_replace"; newRevision := "r1";
     data := DataObject (mkSyncData (Some [scenario_row]) None None None None None) |}.

Definition delta_response : SyncResponse :=
  {| strategy := "incremental"; newRevision := "r2";
     data := DataObject (mkSyncData None None (Some [scenario_row]) (Some ["u2"])
                           None (Some ["u3"])) |}.

Definition odd_response : SyncResponse :=
  {| strategy := "rebuild"; newRevision := "r9"; data := DataAbsent |}.

End Fixtures.
Export Fixtures.

(** ** [src/core.ts]: identities as users type them *)

Module Ids.

Definition quote : ascii := "034"%char.

(** The literal text of the mention pattern before and after its group:
    an opening tag up to the quote of its [id], and a quote with the closing
    of the tag. *)
Definition at_open : string := "<at id=" ++ String quote EmptyString.
Definition at_close : string := String quote "/>".

(** The longest prefix of [s] without the character [c]. *)
Fixpoint until (c : ascii) (s : string) : string :=
  match s with
  | EmptyString => EmptyString
  | String a s' => if Ascii.eqb a c then EmptyString else String a (until c s')
  end.

(** What follows the first [c] of [s], if there is one. *)
Fixpoint after (c : ascii) (s : string) : option string :=
  match s with
  | EmptyString => None
  | String a s' => if Ascii.eqb a c then Some s' else after c s'
  end.

(** The group of the pattern matched at the start of [s]. *)
Definition at_here (s : string) : option string :=
  if String.prefix at_open s then
    let rest := drop_chars (String.length at_open) s in
    let id := until quote rest in
    if String.eqb id EmptyString then None
    else if String.prefix at_close (drop_chars (String.length id) rest) then Some id
    else None
  else None.

(** [input.match(pattern)]: the group of the leftmost match, a non-empty
    run of characters other than the quote. *)
Fixpoint at_match (s : string) : option string :=
  match at_here s with
  | Some id => Some id
  | None => match s with
            | EmptyString => None
            | String _ s' => at_match s'
            end
  end.

(** [input.includes(':') ? input.split(':')[1] : input] after the mention,
    if any, has given way to its [id]. *)
Definition parseUserId (input : string) : string :=
  if String.eqb input EmptyString then EmptyString
  else
    let input := default input (at_match input) in
    match after ":" input with
    | Some fields => until ":" fields
    | None => input
    end.

(** A mention of [id] as a message carries it. *)
Definition mention (id : string) : string := at_open ++ id ++ at_close.

End Ids.
Export Ids.

(** ** [src/index.ts]: the listener for new members and the commands *)

Module Handlers.

(** The fields of the session a command reads. *)
Record Caller : Type := mkCaller {
  from_guild : option string;
  from_user : option string
}.

Definition nl : string := String "010"%char EmptyString.

Definition request_submitted (requestId : string) : string :=
  "✅ 申请已提交至云端，请等待审批。" ++ nl ++ "🆔 申请ID: " ++ requestId ++ nl
  ++ "(可使用 blacklist.cancel 指令撤回)".

Definition request_queued (requestId : string) : string :=
  "⚠️ 无法连接服务器，申请已加入离线队列。" ++ nl ++ "🆔 申请ID: " ++ requestId ++ nl
  ++ "将在网络恢复后自动提交。(可使用 blacklist.cancel 指令撤回)".

Definition render (s : Submission) : string :=
  match s with
  | Submitted requestId => request_submitted requestId
  | Queued requestId => request_queued requestId
  end.

(** [blacklist.request <user> <reason>] (lines 436-470). *)
Definition blacklist_request (config : PluginConfig) (session : option Caller)
    (user reason : string) : Prog string :=
  match present (session ≫= from_guild) with
  | None => Ret "请在群组中使用。"
  | Some guild =>
      if String.eqb reason EmptyString then Ret "请填写理由。"
      else
        let userId := parseUserId user in
        match protectedUsers config with
        | None => Throw TypeError
        | Some protected =>
            if bool_decide (userId ∈ protected) then Ret "❌ 该用户在本地白名单中，无法拉黑。"
            else
              wl ← await (WhitelistGet userId);
              if (0 <? List.length wl)%nat then Ret "❌ 该用户在云端白名单中，无法拉黑。"
              else
                s ← submit_request config (session ≫= from_user) userId reason guild;
                Ret (render s)
        end
  end.

(** [try { await post(url, payload); return sent } catch (e) { await queueRequest(type, payload); return queued }] *)
Definition post_or_queue (config : PluginConfig) (path : string) (type : RequestType)
    (payload : obj) (sent queued : string) : Prog string :=
  try_catch
    (await (PostApplications
              {| url := remoteApiUrl config ++ path;
                 authorization := bearer config;
                 timeout := None |}
              payload);;
     Ret sent)
    (fun e => queueRequest type payload;; Ret queued).

Definition with_applicant (applicant : option string) (fields : obj) : obj :=
  match applicant with
  | Some a => <["applicant_id" := JStr a]> fields
  | None => fields
  end.

Definition removal_payload (requestId : string) (applicant : option string)
    (userId reason : string) (timestamp : Z) : obj :=
  with_applicant applicant
    (<["request_id" := JStr requestId]>
    (<["type" := JStr "REMOVE"]>
    (<["target_user_id" := JStr userId]>
    (<["reason" := JStr reason]>
    (<["timestamp" := JNum timestamp]> ∅))))).

(** [blacklist.delete <user> <reason>] (lines 473-498). *)
Definition blacklist_delete (config : PluginConfig) (session : option Caller)
    (user reason : string) : Prog string :=
  match session with
  | None => Ret "无有效session。"
  | Some caller =>
      if String.eqb reason EmptyString then Ret "请填写理由。"
      else
        let userId := parseUserId user in
        requestId ← await RandomUUID;
        timestamp ← await NewDate;
        post_or_queue config "/applications" REMOVE
          (removal_payload requestId (from_user caller) userId reason timestamp)
          ("✅ 移除申请已提交。" ++ nl ++ "🆔 申请ID: " ++ requestId)
          ("⚠️ 网络故障，移除申请已加入离线队列。" ++ nl ++ "🆔 申请ID: " ++ requestId)
  end.

Definition cancel_payload (requestId uuid : string) (applicant : option string)
    (timestamp : Z) : obj :=
  with_applicant applicant
    (<["request_id" := JStr requestId]>
    (<["target_request_id" := JStr uuid]>
    (<["timestamp" := JNum timestamp]> ∅))).

(** [blacklist.cancel <uuid>] (lines 501-521). *)
Definition blacklist_cancel (config : PluginConfig) (session : option Caller)
    (uuid : string) : Prog string :=
  if String.eqb uuid EmptyString then Ret "请输入要撤回的申请 UUID。"
  else
    requestId ← await RandomUUID;
    timestamp ← await NewDate;
    post_or_queue config "/applications/cancel" CANCEL
      (cancel_payload requestId uuid (session ≫= from_user) timestamp)
      ("✅ 针对申请 " ++ uuid ++ " 的撤回指令已发送。")
      ("⚠️ 网络故障，针对 " ++ uuid ++ " 的撤回指令已加入离线队列。").

Section Listeners.

Variable toLowerCase : string -> string.

(** [ctx.on('guild-member-added', ...)] (lines 425-430); [isBot] is
    [session.author?.isBot]. *)
Definition member_added (config : PluginConfig) (session : Session)
    (userId : option string) (isBot : bool) : Prog unit :=
  match present userId, present (guildId session) with
  | Some uid, Some _ =>
      if skipBotMembers config && isBot then Ret tt
      else checkAndHandleUser toLowerCase config session uid;; Ret tt
  | _, _ => Ret tt
  end.

End Listeners.

End Handlers.
Export Handlers.

(** ** Further observations *)

Module Watch.

(** Where the events [evs] posted a request body, in order. *)
Definition requests (evs : list Event) : list Request :=
  omap (fun ev => match call ev with PostApplications r _ => Some r | _ => None end) evs.

(** Calls that leave every collection as it is. *)
Definition reads_only (o : Op) : Prop :=
  match o with
  | MetaUpsert _ _ | UsersRemoveAll | UsersUpsert _ | UsersRemove _
  | WhitelistRemoveAll | WhitelistUpsert _ | WhitelistRemove _
  | QueueCreate _ _ | QueueRemove _ | QueueSetRetryCount _ _ => False
  | _ => True
  end.

(** Calls that concern nobody but [user_id] in [guild]. *)
Definition only_about (guild user_id : string) (o : Op) : Prop :=
  match o with
  | GetGuildMember g u | KickGuildMember g u => g = guild /\ u = user_id
  | UsersGetActive u | WhitelistGet u => u = user_id
  | SettingsGet g => g = guild
  | _ => True
  end.

(** Calls that write nothing but the two lists and the stored revision. *)
Definition lists_only (o : Op) : Prop :=
  match o with
  | QueueCreate _ _ | QueueRemove _ | QueueSetRetryCount _ _ => False
  | MetaUpsert key _ => key = "sync_revision"
  | _ => True
  end.

(** The mode in force in [guild]. *)
Definition mode_of (config : PluginConfig) (guild : string) (w : World) : Mode :=
  default (defaultGuildMode config) (blacklist_guild_settings (db w) !! guild).

(** Calls that cannot fail while the store answers. *)
Definition dependable (o : Op) : Prop :=
  match o with
  | PostSync _ _ _ | PostApplications _ _ | GetGuildMember _ _ | KickGuildMember _ _
  | SessionSend _ | QueueCreate _ _ => False
  | _ => True
  end.

(** Programs that handle the rejection of every call that can fail. *)
Inductive settles {A : Type} : Prog A -> Prop :=
| settles_ret a : settles (Ret a)
| settles_read k : (forall b, settles (k b)) -> settles (ReadLock k)
| settles_write b k : settles k -> settles (WriteLock b k)
| settles_await o k :
    dependable o -> (forall a, settles (k (Resolved a))) -> settles (Await o k)
| settles_handled o k : (forall r, settles (k r)) -> settles (Await o k).

(** Programs that attempt no more than [n] removals. *)
Definition removes_at_most {A : Type} (n : nat) (p : Prog A) : Prop :=
  forall env w,
    (List.length (kick_outcomes (run env p w).2) <= List.length (kick_outcomes w) + n)%nat.

(** Programs that post no more than [n] request bodies. *)
Definition posts_at_most {A : Type} (n : nat) (p : Prog A) : Prop :=
  forall env w,
    (List.length (posts (trace (run env p w).2)) <= List.length (posts (trace w)) + n)%nat.

(** The calls of a drain that was handed [items]: it posts to
    [/applications] only, and what it writes is the removal of a queued
    request or one more retry on the count of one of [items]. *)
Definition drain_call (config : PluginConfig) (items : list (jval * OfflineRequest))
    (o : Op) : Prop :=
  match o with
  | MetaUpsert _ _ | UsersRemoveAll | UsersUpsert _ | UsersRemove _
  | WhitelistRemoveAll | WhitelistUpsert _ | WhitelistRemove _
  | QueueCreate _ _ => False
  | QueueSetRetryCount id n => exists row, (id, row) ∈ items /\ n = retryCount row + 1
  | PostApplications req _ => req = retry_request config
  | _ => True
  end.

(** What a drain may have made of the queue [q]: no new request, and each
    one left is as it was or has one more retry counted. *)
Definition drained (q q' : gmap jval OfflineRequest) : Prop :=
  forall id r', q' !! id = Some r' ->
    exists r, q !! id = Some r /\
      (r' = r \/ r' = set_retryCount (retryCount r + 1) r).

Definition no_post (o : Op) : Prop :=
  match o with PostApplications _ _ => False | _ => True end.

(** The bodies whose post to the remote failed, in order. *)
Definition failed_posts (evs : list Event) : list obj :=
  omap (fun ev => match call ev, failure ev with
                  | PostApplications _ b, Some _ => Some b
                  | _, _ => None
                  end) evs.

(** Calls that neither post nor write. *)
Definition silent (o : Op) : Prop := reads_only o /\ no_post o.

(** How a command leaves the world [w]: at most one body posted, and the
    store as it was unless that post failed, in which case at most the
    posted body is queued, under a free key, with that key as [requestId]
    and no retry counted. *)
Definition submitted_once (kind : RequestType) (w w' : World) : Prop :=
  (posts (trace w') = posts (trace w) /\ db w' = db w) \/
  exists body,
    posts (trace w') = (posts (trace w) ++ [body])%list /\
    (db w' = db w \/
     exists id created,
       failed_posts (trace w') = (failed_posts (trace w) ++ [body])%list /\
       queue w !! id = None /\
       db w' = with_queue
                 (insert id {| type := kind; payload := <["requestId" := id]> body;
                               createdAt := created; retryCount := 0 |}) (db w)).

(** What a run must keep for [submitted_once] to carry over. *)
Definition same_account (w w1 : World) : Prop :=
  db w1 = db w /\ posts (trace w1) = posts (trace w) /\
  failed_posts (trace w1) = failed_posts (trace w).

(** Programs that leave every world as [submitted_once] says. *)
Definition submits_once (kind : RequestType) {A : Type} (p : Prog A) : Prop :=
  forall env w0 w, same_account w0 w -> submitted_once kind w0 (run env p w).2.

(** [n] drains one after the other. *)
Fixpoint drains (env : Env) (config : PluginConfig) (n : nat) (w : World) : World :=
  match n with
  | O => w
  | S n' => drains env config n' (run env (processOfflineQueue config) w).2
  end.

End Watch.
Export Watch.

(** ** The calls that only [src/index.ts] and the scanner make

    The listeners, the commands and the scanner call the core functions
    above and, besides, the store and the platform in ways the core does
    not.  A second layer of programs adds those calls; a core program is one
    step of it. *)

Module Host.

(** A member as [bot.getGuildMemberList] lists it: [user?.id] and
    [user.isBot]. *)
Record Listed : Type := mkListed {
  listed_id : option string;
  listed_isBot : bool
}.

Inductive HostOp : Type :=
(* ctx.database *)
| MetaCreate (key value : string)
| SettingsUpsert (guildId : string) (mode : Mode)
| UsersGetAllActive
| WhitelistGetAll
(* bot *)
| HandleGuildRequest (messageId : option string) (approve : bool) (comment : string)
| GetGuildMemberList (selfId guildId : string)
| GetGuildList (selfId : string).

Definition host_reply (o : HostOp) : Type :=
  match o with
  | UsersGetAllActive => list (string * BlacklistEntry)
  | WhitelistGetAll => list (string * WhitelistEntry)
  | GetGuildMemberList _ _ => list Listed
  | GetGuildList _ => list string
  | _ => unit
  end.

(** What the calls of this layer answer, by the number of such calls made
    before; the calls of the core are answered by [core]. *)
Record HostEnv : Type := mkHostEnv {
  core : Env;
  host_store_fault : nat -> option JsError;
  handle_guild_request : nat -> option string -> bool -> string -> option JsError;
  guild_member_list : nat -> string -> string -> Result (list Listed);
  guild_list : nat -> string -> Result (list string)
}.

Record HostEvent : Type := mkHostEvent {
  host_call : HostOp;
  host_failure : option JsError
}.

(** The world of the core, and the calls of this layer made so far. *)
Record Site : Type := mkSite {
  world : World;
  host_trace : list HostEvent
}.

Definition with_settings (f : gmap string Mode -> gmap string Mode) (t : Tables) : Tables :=
  {| blacklist_users := blacklist_users t;
     blacklist_whitelist := blacklist_whitelist t;
     blacklist_request_queue := blacklist_request_queue t;
     blacklist_meta := blacklist_meta t;
     blacklist_guild_settings := f (blacklist_guild_settings t) |}.

(** [get(blacklist_users, {disabled: false})] *)
Definition all_active (t : gmap string BlacklistEntry) : list (string * BlacklistEntry) :=
  filter (fun row => disabled row.2 = false) (map_to_list t).

(** What a store call of this layer does when the store accepts it. *)
Definition host_store_step (o : HostOp) (t : Tables) : Result (host_reply o) * Tables :=
  match o return Result (host_reply o) * Tables with
  | MetaCreate k v =>
      match blacklist_meta t !! k with
      | Some _ => (Rejected duplicate_key, t)
      | None => (Resolved tt, with_meta (insert k v) t)
      end
  | SettingsUpsert g m => (Resolved tt, with_settings (insert g m) t)
  | UsersGetAllActive => (Resolved (all_active (blacklist_users t)), t)
  | WhitelistGetAll => (Resolved (map_to_list (blacklist_whitelist t)), t)
  | HandleGuildRequest _ _ _ => (Resolved tt, t)
  | GetGuildMemberList _ _ => (Resolved [], t)
  | GetGuildList _ => (Resolved [], t)
  end.

Definition host_now (s : Site) : nat := List.length (host_trace s).

Definition host_answer (henv : HostEnv) (o : HostOp) (s : Site) : Result (host_reply o) * Tables :=
  match o return Result (host_reply o) * Tables with
  | HandleGuildRequest id approve comment =>
      (unit_result (handle_guild_request henv (host_now s) id approve comment), db (world s))
  | GetGuildMemberList bot g => (guild_member_list henv (host_now s) bot g, db (world s))
  | GetGuildList bot => (guild_list henv (host_now s) bot, db (world s))
  | o' =>
      match host_store_fault henv (host_now s) with
      | Some e => (Rejected e, db (world s))
      | None => host_store_step o' (db (world s))
      end
  end.

Definition host_perform (henv : HostEnv) (o : HostOp) (s : Site) : Result (host_reply o) * Site :=
  let '(r, t) := host_answer henv o s in
  (r, {| world := {| db := t; isProcessingQueue := isProcessingQueue (world s);
                     trace := trace (world s) |};
         host_trace := (host_trace s ++ [mkHostEvent o (failure_of r)])%list |}).

(** Programs of this layer: a core program awaited to its end, or a call. *)
Inductive Task (A : Type) : Type :=
| Finish (a : A)
| Raise (e : JsError)
| Inner {X : Type} (p : Prog X) (k : Result X -> Task A)
| Outer (o : HostOp) (k : Result (host_reply o) -> Task A).
Arguments Finish {A} a.
Arguments Raise {A} e.
Arguments Inner {A X} p k.
Arguments Outer {A} o k.

Fixpoint task_bind {A B : Type} (t : Task A) (f : A -> Task B) : Task B :=
  match t with
  | Finish a => f a
  | Raise e => Raise e
  | Inner p k => Inner p (fun r => task_bind (k r) f)
  | Outer o k => Outer o (fun r => task_bind (k r) f)
  end.

#[global] Instance Task_ret : MRet Task := fun A a => Finish a.
#[global] Instance Task_bind : MBind Task := fun A B f t => task_bind t f.

Definition settled {A : Type} (r : Result A) : Task A :=
  match r with Resolved a => Finish a | Rejected e => Raise e end.

(** [await p] for a core function or call [p]. *)
Definition inner {X : Type} (p : Prog X) : Task X := Inner p settled.

(** [await call] for a call of this layer. *)
Definition outer (o : HostOp) : Task (host_reply o) := Outer o settled.

Fixpoint task_try_catch {A : Type} (t : Task A) (h : JsError -> Task A) : Task A :=
  match t with
  | Finish a => Finish a
  | Raise e => h e
  | Inner p k => Inner p (fun r => task_try_catch (k r) h)
  | Outer o k => Outer o (fun r => task_try_catch (k r) h)
  end.

Fixpoint run_task {A : Type} (henv : HostEnv) (t : Task A) (s : Site) : Result A * Site :=
  match t with
  | Finish a => (Resolved a, s)
  | Raise e => (Rejected e, s)
  | Inner p k =>
      let '(r, w') := run (core henv) p (world s) in
      run_task henv (k r) {| world := w'; host_trace := host_trace s |}
  | Outer o k => let '(r, s') := host_perform henv o s in run_task henv (k r) s'
  end.

End Host.
Export Host.

(** ** [src/index.ts]: start-up, the listener for requests to join, the mode *)

Module Plugin.

(** [ctx.on('ready', ...)] (lines 364-376), up to the first synchronisation:
    the identity of the instance is read, or drawn and stored. *)
Definition ensure_instance_uuid : Task unit :=
  entries ← inner (await (MetaGet "instance_uuid"));
  match entries with
  | [] =>
      uuid ← inner (await RandomUUID);
      outer (MetaCreate "instance_uuid" uuid);;
      inner (await (Log info))
  | _ :: _ => inner (await (Log info))
  end.

Definition ready (config : PluginConfig) : Task bool :=
  ensure_instance_uuid;;
  inner (syncBlacklist config).

(** [ctx.on('guild-member-request', ...)] (lines 400-422). *)
Definition member_request (config : PluginConfig) (userId messageId : option string)
    : Task unit :=
  if negb (enableAutoReject config) then Finish tt
  else
    match present userId with
    | None => Finish tt
    | Some uid =>
        match protectedUsers config with
        | None => Raise TypeError
        | Some protected =>
            if bool_decide (uid ∈ protected) then Finish tt
            else
              wl ← inner (await (WhitelistGet uid));
              if (0 <? List.length wl)%nat then Finish tt
              else
                entries ← inner (await (UsersGetActive uid));
                if (0 <? List.length entries)%nat then
                  task_try_catch
                    (outer (HandleGuildRequest messageId false (rejectionMessage config));;
                     inner (await (Log info));;
                     let msg := replace (replace (autoRejectNotifyMessage config) "{user}" uid)
                                  "{userId}" uid in
                     inner (await (SessionSend (Plain msg))))
                    (fun e => inner (await (Log warn)))
                else Finish tt
        end
    end.

(** [valid.includes(mode)], with the mode that the text names. *)
Definition valid_mode (mode : string) : option Mode :=
  if String.eqb mode "off" then Some off
  else if String.eqb mode "notify" then Some notify
  else if String.eqb mode "kick" then Some kick
  else if String.eqb mode "both" then Some both
  else None.

(** [blacklist.mode <mode>] (lines 524-535); outside a guild it returns
    nothing. *)
Definition blacklist_mode (session : option Caller) (mode : string) : Task (option string) :=
  match present (session ≫= from_guild) with
  | None => Finish None
  | Some guild =>
      match valid_mode mode with
      | None => Finish (Some "无效模式。可用: off, notify, kick, both")
      | Some m =>
          outer (SettingsUpsert guild m);;
          Finish (Some ("当前群模式已设置为: " ++ mode))
      end
  end.

End Plugin.
Export Plugin.

Module HostWatch.

(** The answers given to requests to join so far: whose request, approved
    or not, with which comment. *)
Definition join_answers (s : Site) : list (option string * bool * string) :=
  omap (fun ev => match host_call ev with
                  | HandleGuildRequest id approve comment => Some (id, approve, comment)
                  | _ => None
                  end) (host_trace s).

(** The revision requests sent so far: the identity of the instance each
    one carried. *)
Definition sync_identities (w : World) : list (option string) :=
  omap (fun ev => match call ev with
                  | PostSync _ _ inst => Some inst
                  | _ => None
                  end) (trace w).

(** The notice sent after a request to join has been refused. *)
Definition join_notice (config : PluginConfig) (uid : string) : Op :=
  SessionSend (Plain (replace (replace (autoRejectNotifyMessage config) "{user}" uid)
                        "{userId}" uid)).

(** Calls other than the request for the revision. *)
Definition no_sync (o : Op) : Prop :=
  match o with PostSync _ _ _ => False | _ => True end.

End HostWatch.
Export HostWatch.

(** ** [src/core.ts]: the scanner *)

Module Scanner.

(** What [scanGuild] returns. *)
Record Scan : Type := mkScan {
  scan_handled : nat;
  scan_total : nat;
  scan_error : option string
}.

(** The filter of [scanGuild] (lines 305-320) on one listed member, given
    the rows read from the two lists. *)
Definition is_target (config : PluginConfig) (blacklist : list (string * BlacklistEntry))
    (whitelist : list (string * WhitelistEntry)) (m : Listed) : bool :=
  match present (listed_id m) with
  | None => false
  | Some uid =>
      if skipBotMembers config && listed_isBot m then false
      else if bool_decide (uid ∈ default [] (protectedUsers config)) then false
      else if bool_decide (uid ∈ whitelist.*1) then false
      else bool_decide (uid ∈ blacklist.*1)
  end.

(** Lines 299-320: the members are listed, the two lists are read, and the
    targets are filtered out. *)
Definition scan_listing (config : PluginConfig) (selfId guildId : string) : Task (list Listed) :=
  members ← outer (GetGuildMemberList selfId guildId);
  blacklist ← outer UsersGetAllActive;
  whitelist ← outer WhitelistGetAll;
  Finish (List.filter (is_target config blacklist whitelist) members).

(** [bot.session({type: 'message', guildId, channelId: guildId, ...})] *)
Definition fakeSession (guildId : string) : Session :=
  {| guildId := Some guildId; messageId := None |}.

Definition BATCH_SIZE : nat := 5.

(** [for (let i = 0; i < targets.length; i += BATCH_SIZE) targets.slice(i, i + BATCH_SIZE)],
    entered at index [i]: the batches, in order; no more than [fuel] of them. *)
Fixpoint scan_batches {A : Type} (fuel i : nat) (targets : list A) : list (list A) :=
  match fuel with
  | O => []
  | S fuel' =>
      if (i <? List.length targets)%nat then
        slice i (i + BATCH_SIZE) targets :: scan_batches fuel' (i + BATCH_SIZE)%nat targets
      else []
  end.

(** [Promise.all(tasks)]: the tasks go on in any order, each time one of
    them has the call it awaits answered; the whole resolves when all have
    returned and rejects as soon as one has thrown.  The relation ends
    there, with the world in which [Promise.all] settles: what the tasks
    left unfinished by a rejection do later is not followed. *)
Inductive pool (env : Env) : list (Prog bool) -> World -> Result (list bool) -> World -> Prop :=
| pool_all results w : pool env (Ret <$> results) w (Resolved results) w
| pool_rejected tasks i e w :
    tasks !! i = Some (Throw e) -> pool env tasks w (Rejected e) w
| pool_call tasks i o k w r w' :
    tasks !! i = Some (Await o k) ->
    pool env (<[i := k (perform env o w).1]> tasks) (perform env o w).2 r w' ->
    pool env tasks w r w'
| pool_read tasks i k w r w' :
    tasks !! i = Some (ReadLock k) ->
    pool env (<[i := k (isProcessingQueue w)]> tasks) w r w' ->
    pool env tasks w r w'
| pool_write tasks i b k w r w' :
    tasks !! i = Some (WriteLock b k) ->
    pool env (<[i := k]> tasks) (with_lock b w) r w' ->
    pool env tasks w r w'.

Section Scanning.

Variable toLowerCase : string -> string.

(** The body mapped over a batch (lines 340-346); its result is whether
    [handled] is incremented. *)
Definition examine (config : PluginConfig) (guildId : string) (m : Listed) : Prog bool :=
  match present (listed_id m) with
  | Some uid => checkAndHandleUser toLowerCase config (fakeSession guildId) uid
  | None => Ret false
  end.

(** The loop over the batches (lines 338-347), entered with [handled] at
    [count]: how it can end. *)
Inductive batches (env : Env) (config : PluginConfig) (guildId : string) :
    list (list Listed) -> nat -> World -> Result nat -> World -> Prop :=
| batches_done count w : batches env config guildId [] count w (Resolved count) w
| batches_next batch rest count w results w1 r w2 :
    pool env (examine config guildId <$> batch) w (Resolved results) w1 ->
    batches env config guildId rest (count + List.length (List.filter id results))%nat w1 r w2 ->
    batches env config guildId (batch :: rest) count w r w2
| batches_rejected batch rest count w e w1 :
    pool env (examine config guildId <$> batch) w (Rejected e) w1 ->
    batches env config guildId (batch :: rest) count w (Rejected e) w1.

(** [scanGuild(ctx, config, bot, guildId)]: what it can return, and the
    state it returns in. *)
Inductive scanGuild (henv : HostEnv) (config : PluginConfig) (selfId guildId : string)
    (s : Site) : Scan -> Site -> Prop :=
| scan_unlisted e s1 :
    run_task henv (scan_listing config selfId guildId) s = (Rejected e, s1) ->
    scanGuild henv config selfId guildId s
      {| scan_handled := 0; scan_total := 0; scan_error := Some (String_of e) |} s1
| scan_no_target s1 :
    run_task henv (scan_listing config selfId guildId) s = (Resolved [], s1) ->
    scanGuild henv config selfId guildId s {| scan_handled := 0; scan_total := 0; scan_error := None |} s1
| scan_through targets s1 count w2 :
    run_task henv (scan_listing config selfId guildId) s = (Resolved targets, s1) ->
    targets <> [] ->
    batches (core henv) config guildId (scan_batches (List.length targets) 0 targets) 0
      (world s1) (Resolved count) w2 ->
    scanGuild henv config selfId guildId s
      {| scan_handled := count; scan_total := List.length targets; scan_error := None |}
      {| world := w2; host_trace := host_trace s1 |}
| scan_interrupted targets s1 e w2 :
    run_task henv (scan_listing config selfId guildId) s = (Resolved targets, s1) ->
    targets <> [] ->
    batches (core henv) config guildId (scan_batches (List.length targets) 0 targets) 0
      (world s1) (Rejected e) w2 ->
    scanGuild henv config selfId guildId s
      {| scan_handled := 0; scan_total := 0; scan_error := Some (String_of e) |}
      {| world := w2; host_trace := host_trace s1 |}.

(** *** Examinations left behind

    When a batch is rejected, [scanGuild] returns while the other
    examinations of that batch are still under way.  Called once, it is done
    with them; in [scanAllGuilds] they go on beside the scans that follow. *)

(** One of [tasks] goes on by a step: the call it awaits is answered, or it
    reads or writes the lock. *)
Inductive advance (env : Env) :
    list (Prog bool) -> World -> list (Prog bool) -> World -> Prop :=
| advance_call tasks i o k w :
    tasks !! i = Some (Await o k) ->
    advance env tasks w (<[i := k (perform env o w).1]> tasks) (perform env o w).2
| advance_read tasks i k w :
    tasks !! i = Some (ReadLock k) ->
    advance env tasks w (<[i := k (isProcessingQueue w)]> tasks) w
| advance_write tasks i b k w :
    tasks !! i = Some (WriteLock b k) ->
    advance env tasks w (<[i := k]> tasks) (with_lock b w).

(** Any number of steps of the tasks [left]. *)
Inductive aside (env : Env) :
    list (Prog bool) -> World -> list (Prog bool) -> World -> Prop :=
| aside_stay left w : aside env left w left w
| aside_go left w left1 w1 left' w' :
    advance env left w left1 w1 -> aside env left1 w1 left' w' ->
    aside env left w left' w'.

(** A core program run while the tasks [left] go on: they may take steps
    each time it comes to a call.  [out] is how it ends: the result, the
    world, and the tasks as they are then. *)
Fixpoint run_beside {A : Type} (env : Env) (p : Prog A) (w : World)
    (left : list (Prog bool)) (out : Result A * World * list (Prog bool)) : Prop :=
  match p with
  | Ret a => out = (Resolved a, w, left)
  | Throw e => out = (Rejected e, w, left)
  | ReadLock k => run_beside env (k (isProcessingQueue w)) w left out
  | WriteLock b k => run_beside env k (with_lock b w) left out
  | Await o k =>
      exists left1 w1,
        aside env left w left1 w1 /\
        run_beside env (k (perform env o w1).1) (perform env o w1).2 left1 out
  end.

(** The same for a program of this layer. *)
Fixpoint task_beside {A : Type} (henv : HostEnv) (t : Task A) (s : Site)
    (left : list (Prog bool)) (out : Result A * Site * list (Prog bool)) : Prop :=
  match t with
  | Finish a => out = (Resolved a, s, left)
  | Raise e => out = (Rejected e, s, left)
  | Inner p k =>
      exists r w1 left1,
        run_beside (core henv) p (world s) left (r, w1, left1) /\
        task_beside henv (k r) {| world := w1; host_trace := host_trace s |} left1 out
  | Outer o k =>
      exists left1 w1,
        aside (core henv) left (world s) left1 w1 /\
        task_beside henv (k (host_perform henv o {| world := w1; host_trace := host_trace s |}).1)
          (host_perform henv o {| world := w1; host_trace := host_trace s |}).2 left1 out
  end.

(** [Promise.all(tasks)] while the tasks [left] go on; when it is rejected,
    the tasks of the batch join them as they are. *)
Inductive pool_beside (env : Env) :
    list (Prog bool) -> list (Prog bool) -> World ->
    Result (list bool) -> list (Prog bool) -> World -> Prop :=
| beside_all results left w :
    pool_beside env (Ret <$> results) left w (Resolved results) left w
| beside_rejected tasks i e left w :
    tasks !! i = Some (Throw e) ->
    pool_beside env tasks left w (Rejected e) (left ++ tasks)%list w
| beside_task tasks left w tasks1 w1 r left' w' :
    advance env tasks w tasks1 w1 ->
    pool_beside env tasks1 left w1 r left' w' ->
    pool_beside env tasks left w r left' w'
| beside_left tasks left w left1 w1 r left' w' :
    advance env left w left1 w1 ->
    pool_beside env tasks left1 w1 r left' w' ->
    pool_beside env tasks left w r left' w'.

Inductive batches_beside (env : Env) (config : PluginConfig) (guildId : string) :
    list (list Listed) -> nat -> list (Prog bool) -> World ->
    Result nat -> list (Prog bool) -> World -> Prop :=
| batches_beside_done count left w :
    batches_beside env config guildId [] count left w (Resolved count) left w
| batches_beside_next batch rest count left w results left1 w1 r left2 w2 :
    pool_beside env (examine config guildId <$> batch) left w (Resolved results) left1 w1 ->
    batches_beside env config guildId rest
      (count + List.length (List.filter id results))%nat left1 w1 r left2 w2 ->
    batches_beside env config guildId (batch :: rest) count left w r left2 w2
| batches_beside_rejected batch rest count left w e left1 w1 :
    pool_beside env (examine config guildId <$> batch) left w (Rejected e) left1 w1 ->
    batches_beside env config guildId (batch :: rest) count left w (Rejected e) left1 w1.

(** [scanGuild(ctx, config, bot, guildId)] called while the tasks [left] go
    on: what it can return, the state it returns in and the tasks that go on
    from there. *)
Inductive scanGuild_beside (henv : HostEnv) (config : PluginConfig) (selfId guildId : string)
    (s : Site) (left : list (Prog bool)) : Scan -> Site -> list (Prog bool) -> Prop :=
| beside_unlisted e s1 left1 :
    task_beside henv (scan_listing config selfId guildId) s left (Rejected e, s1, left1) ->
    scanGuild_beside henv config selfId guildId s left
      {| scan_handled := 0; scan_total := 0; scan_error := Some (String_of e) |} s1 left1
| beside_no_target s1 left1 :
    task_beside henv (scan_listing config selfId guildId) s left (Resolved [], s1, left1) ->
    scanGuild_beside henv config selfId guildId s left
      {| scan_handled := 0; scan_total := 0; scan_error := None |} s1 left1
| beside_through targets s1 left1 count left2 w2 :
    task_beside henv (scan_listing config selfId guildId) s left (Resolved targets, s1, left1) ->
    targets <> [] ->
    batches_beside (core henv) config guildId (scan_batches (List.length targets) 0 targets) 0
      left1 (world s1) (Resolved count) left2 w2 ->
    scanGuild_beside henv config selfId guildId s left
      {| scan_handled := count; scan_total := List.length targets; scan_error := None |}
      {| world := w2; host_trace := host_trace s1 |} left2
| beside_interrupted targets s1 left1 e left2 w2 :
    task_beside henv (scan_listing config selfId guildId) s left (Resolved targets, s1, left1) ->
    targets <> [] ->
    batches_beside (core henv) config guildId (scan_batches (List.length targets) 0 targets) 0
      left1 (world s1) (Rejected e) left2 w2 ->
    scanGuild_beside henv config selfId guildId s left
      {| scan_handled := 0; scan_total := 0; scan_error := Some (String_of e) |}
      {| world := w2; host_trace := host_trace s1 |} left2.

(** The loop of [scanAllGuilds] over the guilds of one bot (lines 364-372). *)
Inductive scan_guilds (henv : HostEnv) (config : PluginConfig) (selfId : string) :
    list string -> Site -> list (Prog bool) -> Site -> list (Prog bool) -> Prop :=
| scan_guilds_done s left : scan_guilds henv config selfId [] s left s left
| scan_guilds_next guild rest s left result s1 left1 s2 s3 left3 :
    scanGuild_beside henv config selfId guild s left result s1 left1 ->
    run_task henv (if (0 <? scan_handled result)%nat then inner (await (Log info)) else Finish tt) s1
      = (Resolved tt, s2) ->
    scan_guilds henv config selfId rest s2 left1 s3 left3 ->
    scan_guilds henv config selfId (guild :: rest) s left s3 left3.

(** The loop of [scanAllGuilds] over the bots (lines 361-376). *)
Inductive scan_bots (henv : HostEnv) (config : PluginConfig) :
    list string -> Site -> list (Prog bool) -> Site -> list (Prog bool) -> Prop :=
| scan_bots_done s left : scan_bots henv config [] s left s left
| scan_bots_next selfId rest s left guilds s1 left1 s2 left2 s3 left3 :
    task_beside henv (outer (GetGuildList selfId)) s left (Resolved guilds, s1, left1) ->
    scan_guilds henv config selfId guilds s1 left1 s2 left2 ->
    scan_bots henv config rest s2 left2 s3 left3 ->
    scan_bots henv config (selfId :: rest) s left s3 left3
| scan_bots_skip selfId rest s left e s1 left1 s2 s3 left3 :
    task_beside henv (outer (GetGuildList selfId)) s left (Rejected e, s1, left1) ->
    run_task henv (inner (await (Log warn))) s1 = (Resolved tt, s2) ->
    scan_bots henv config rest s2 left1 s3 left3 ->
    scan_bots henv config (selfId :: rest) s left s3 left3.

(** [scanAllGuilds(ctx, config)] for the bots [bots], called with no
    examination under way: the state it returns in, and the examinations
    that are still under way then. *)
Definition scanAllGuilds (henv : HostEnv) (config : PluginConfig) (bots : list string)
    (s s' : Site) (left' : list (Prog bool)) : Prop :=
  exists s1 s2,
    run_task henv (inner (await (Log info))) s = (Resolved tt, s1) /\
    scan_bots henv config bots s1 [] s2 left' /\
    run_task henv (inner (await (Log info))) s2 = (Resolved tt, s').

End Scanning.

End Scanner.
Export Scanner.

Module ScanWatch.

(** What a removal must be about, given the store [t]: an identity with a
    block entry that is not disabled, neither protected nor exempt. *)
Definition removable (config : PluginConfig) (t : Tables) (uid : string) : Prop :=
  (exists entry, blacklist_users t !! uid = Some entry /\ disabled entry = false) /\
  (uid ∉ default [] (protectedUsers config)) /\
  blacklist_whitelist t !! uid = None.

(** Calls that write nothing and remove only whom [allowed] allows. *)
Definition scan_call (allowed : string -> string -> Prop) (o : Op) : Prop :=
  reads_only o /\
  match o with
  | KickGuildMember g u => allowed g u
  | _ => True
  end.

(** The world [w'] of a scan that started in [w]: the store is as it was,
    and the calls of the core made since remove only whom [allowed] allows. *)
Definition scan_steps (allowed : string -> string -> Prop) (w w' : World) : Prop :=
  db w' = db w /\
  exists evs, trace w' = (trace w ++ evs)%list /\
              Forall (fun ev => scan_call allowed (call ev)) evs.

Definition scanned (allowed : string -> string -> Prop) (s s' : Site) : Prop :=
  scan_steps allowed (world s) (world s').

(** The members that the platform lists for [guildId] when asked in [s]. *)
Definition listed (henv : HostEnv) (selfId guildId : string) (s : Site) : list Listed :=
  match guild_member_list henv (host_now s) selfId guildId with
  | Resolved members => members
  | Rejected _ => []
  end.

(** The targets among [members], by the store [t]. *)
Definition targets_of (config : PluginConfig) (t : Tables) (members : list Listed)
    : list Listed :=
  List.filter (is_target config (all_active (blacklist_users t))
                 (map_to_list (blacklist_whitelist t))) members.

(** Whom the scan of [guildId] may remove: a listed member of that guild, no
    bot when bots are skipped, who is removable by the store [t]. *)
Definition scan_may_remove (config : PluginConfig) (t : Tables) (members : list Listed)
    (guildId : string) (g u : string) : Prop :=
  g = guildId /\ removable config t u /\
  exists m, m ∈ members /\ present (listed_id m) = Some u /\
            skipBotMembers config && listed_isBot m = false.

(** Whom a scan of all guilds may remove, by the store [t]. *)
Definition may_remove (config : PluginConfig) (t : Tables) (g u : string) : Prop :=
  removable config t u.

End ScanWatch.
Export ScanWatch.

(** * Properties *)

(** ** Running composed programs *)

Section Running.

Context (env : Env).

Lemma run_bind {A B : Type} (p : Prog A) (f : A -> Prog B) (w : World) :
  run env (p ≫= f) w =
  match run env p w with
  | (Resolved a, w') => run env (f a) w'
  | (Rejected e, w') => (Rejected e, w')
  end.
Proof.
  change (p ≫= f) with (bind p f).
  revert w. induction p as [a|e|k IH|b k IH|o k IH]; intros w; simpl; auto.
  destruct (perform env o w) as [r w']. apply IH.
Qed.

Lemma run_bind_explicit {A B : Type} (p : Prog A) (f : A -> Prog B) (w : World) :
  run env (bind p f) w =
  match run env p w with
  | (Resolved a, w') => run env (f a) w'
  | (Rejected e, w') => (Rejected e, w')
  end.
Proof. exact (run_bind p f w). Qed.

Lemma run_try_catch {A : Type} (p : Prog A) (h : JsError -> Prog A) (w : World) :
  run env (try_catch p h) w =
  match run env p w with
  | (Resolved a, w') => (Resolved a, w')
  | (Rejected e, w') => run env (h e) w'
  end.
Proof.
  revert w. induction p as [a|e|k IH|b k IH|o k IH]; intros w; simpl; auto.
  destruct (perform env o w) as [r w']. apply IH.
Qed.

Lemma run_finally {A : Type} (p : Prog A) (q : Prog unit) (w : World) :
  run env (finally p q) w =
  match run env p w with
  | (r, w') =>
      match run env q w' with
      | (Resolved _, w'') => (r, w'')
      | (Rejected e, w'') => (Rejected e, w'')
      end
  end.
Proof.
  revert w. induction p as [a|e|k IH|b k IH|o k IH]; intros w; simpl; auto.
  - change (bind q (fun _ => Ret a)) with (q ≫= fun _ => Ret a).
    rewrite run_bind. destruct (run env q w) as [[[]|e] w']; reflexivity.
  - change (bind q (fun _ => Throw e)) with (q ≫= fun _ => @Throw A e).
    rewrite run_bind. destruct (run env q w) as [[[]|e'] w']; reflexivity.
  - destruct (perform env o w) as [r w']. apply IH.
Qed.

Lemma suspended_finally {A : Type} (p : Prog A) (q : Prog unit) (w : World) :
  lock_when_suspended env (finally p q) w =
  (lock_when_suspended env p w ++ lock_when_suspended env q (run env p w).2)%list.
Proof.
  revert w. induction p as [a|e|k IH|b k IH|o k IH]; intros w; simpl; auto.
  - induction q as [[]|e|k IH|b k IH|o k IH] in w |- *; simpl; auto.
    f_equal. destruct (perform env o w) as [r w']. apply IH.
  - induction q as [[]|e'|k IH|b k IH|o k IH] in w |- *; simpl; auto.
    f_equal. destruct (perform env o w) as [r w']. apply IH.
  - f_equal. destruct (perform env o w) as [r w']. apply IH.
Qed.

End Running.

(** ** What a single call can change *)

Section Calls.

Context (env : Env).

Lemma perform_lock (o : Op) (w : World) :
  isProcessingQueue (perform env o w).2 = isProcessingQueue w.
Proof. unfold perform. destruct (answer env o w) as [r t]. reflexivity. Qed.

Lemma perform_db (o : Op) (w : World) :
  db (perform env o w).2 = (answer env o w).2.
Proof. unfold perform. destruct (answer env o w) as [r t]. reflexivity. Qed.

Lemma calls_bind {A B : Type} (P : Op -> Prop) (p : Prog A) (f : A -> Prog B) :
  calls P p -> (forall a, calls P (f a)) -> calls P (p ≫= f).
Proof.
  intros Hp Hf. change (p ≫= f) with (bind p f).
  induction Hp; simpl; auto using calls_throw, calls_read, calls_await.
Qed.

Lemma calls_try_catch {A : Type} (P : Op -> Prop) (p : Prog A) (h : JsError -> Prog A) :
  calls P p -> (forall e, calls P (h e)) -> calls P (try_catch p h).
Proof.
  intros Hp Hh.
  induction Hp; simpl; auto using calls_ret, calls_read, calls_await.
Qed.

Lemma calls_one (P : Op -> Prop) (o : Op) : P o -> calls P (await o).
Proof.
  intros Ho. apply calls_await; [exact Ho|].
  intros [a|e]; constructor.
Qed.

(** A property of the world kept by every call in [P] is kept by the run. *)
Lemma run_keeps {A : Type} (P : Op -> Prop) (I : World -> Prop) (p : Prog A) :
  (forall o w, P o -> I w -> I (perform env o w).2) ->
  calls P p -> forall w, I w -> I (run env p w).2.
Proof.
  intros Hstep Hp. induction Hp as [a|e|k Hk IH|o k Ho Hk IH]; intros w Hw; simpl; auto.
  pose proof (Hstep o w Ho Hw) as Hw'.
  destruct (perform env o w) as [r w']. apply IH. exact Hw'.
Qed.

Lemma suspended_with_lock {A : Type} (P : Op -> Prop) (p : Prog A) :
  calls P p ->
  forall w, Forall (eq (isProcessingQueue w)) (lock_when_suspended env p w).
Proof.
  intros Hp. induction Hp as [a|e|k Hk IH|o k Ho Hk IH]; intros w; simpl; auto.
  constructor; [reflexivity|].
  pose proof (perform_lock o w) as Hl.
  destruct (perform env o w) as [r w']. simpl in Hl. rewrite <- Hl. apply IH.
Qed.

(** Invocations that do nothing while the lock is held do not disturb a
    program that holds it and never writes it. *)
Lemma run_interleaved_calls {A : Type} (other : Prog unit) (P : Op -> Prop) (p : Prog A) :
  (forall w, isProcessingQueue w = true -> run env other w = (Resolved tt, w)) ->
  calls P p ->
  forall w, isProcessingQueue w = true -> run_interleaved env other p w = run env p w.
Proof.
  intros Hother Hp. induction Hp as [a|e|k Hk IH|o k Ho Hk IH]; intros w Hw; simpl; auto.
  rewrite (Hother w Hw). cbn [snd].
  pose proof (perform_lock o w) as Hl.
  destruct (perform env o w) as [r w2]. cbn [snd] in Hl. rewrite Hw in Hl.
  rewrite (Hother w2 Hl). cbn [snd]. by apply IH.
Qed.

Lemma run_interleaved_unlock {A : Type} (other : Prog unit) (p : Prog A) (w : World) :
  run_interleaved env other (finally p (WriteLock false (Ret tt))) w =
  let '(r, w') := run_interleaved env other p w in (r, with_lock false w').
Proof.
  revert w. induction p as [a|e|k IH|b k IH|o k IH]; intros w; simpl; auto.
  destruct (perform env o (run env other w).2) as [r w2]. apply IH.
Qed.

Lemma propagates_bind {A B : Type} (p : Prog A) (f : A -> Prog B) :
  propagates p -> (forall a, propagates (f a)) -> propagates (p ≫= f).
Proof.
  intros Hp Hf. change (p ≫= f) with (bind p f).
  induction Hp as [a|e|k Hk IH|b k Hk IH|o k Hthrow Hk IH]; simpl; auto;
    try (constructor; auto).
  intros e. by rewrite Hthrow.
Qed.

Lemma propagates_one (o : Op) : propagates (await o).
Proof. apply propagates_await; [reflexivity|]. intros a. constructor. Qed.

(** A run that ends normally has seen no call fail. *)
Lemma run_propagates {A : Type} (p : Prog A) :
  propagates p ->
  forall w a w', run env p w = (Resolved a, w') -> failures w' = failures w.
Proof.
  intros Hp. induction Hp as [a0|e|k Hk IH|b k Hk IH|o k Hthrow Hk IH];
    intros w a w' Hrun; simpl in Hrun.
  - by injection Hrun as _ <-.
  - discriminate.
  - by apply IH in Hrun.
  - by apply IH in Hrun.
  - unfold perform in Hrun. destruct (answer env o w) as [[a1|e] t].
    + apply IH in Hrun. rewrite Hrun. unfold failures. cbn [trace record failure_of].
      rewrite omap_app. cbn. by rewrite app_nil_r.
    + rewrite Hthrow in Hrun. discriminate.
Qed.

Lemma first_value_row_of {K V : Type} (k : K) (o : option V) :
  first_value (row_of k o) = o.
Proof. by destruct o. Qed.

Lemma posts_snoc (evs : list Event) (ev : Event) :
  posts (evs ++ [ev]) =
  (posts evs ++ match call ev with PostApplications _ b => [b] | _ => [] end)%list.
Proof.
  unfold posts. rewrite omap_app. f_equal. simpl.
  destruct (call ev); reflexivity.
Qed.

Lemma enforcements_record (o : Op) (f : option JsError) (t : Tables) (w : World) :
  enforcements (record o f t w) =
  (enforcements w ++ if enforcement o then [o] else [])%list.
Proof.
  unfold enforcements. cbn [trace record]. rewrite map_app, filter_app. f_equal.
  cbn. unfold filter. cbn. destruct (enforcement o) eqn:Ho.
  - rewrite decide_True by reflexivity. reflexivity.
  - rewrite decide_False by discriminate. reflexivity.
Qed.

Lemma kick_outcomes_record (o : Op) (f : option JsError) (t : Tables) (w : World) :
  kick_outcomes (record o f t w) =
  (kick_outcomes w ++ match o with KickGuildMember _ _ => [f] | _ => [] end)%list.
Proof.
  unfold kick_outcomes. cbn [trace record]. rewrite omap_app. f_equal.
  destruct o; reflexivity.
Qed.

End Calls.

(** Running a program symbolically, one call after the other. *)
Ltac exec NF :=
  repeat first
    [ rewrite run_bind
    | rewrite run_try_catch
    | progress cbn [run await answer store_step failure_of unit_result]
    | progress unfold perform
    | rewrite NF ].

Ltac calls_step :=
  match goal with
  | |- calls _ (_ ≫= _) => apply calls_bind
  | |- calls _ (bind _ _) => apply calls_bind
  | |- calls _ (try_catch _ _) => apply calls_try_catch
  | |- calls ?P (await ?o) => apply (calls_one P o)
  | |- calls _ (Ret _) => apply calls_ret
  | |- calls _ (Throw _) => apply calls_throw
  | |- calls _ (if ?b then _ else _) => destruct b
  | |- calls _ (match ?x with _ => _ end) => destruct x
  | |- forall _, _ => intros
  end.

Ltac propagates_step :=
  match goal with
  | |- propagates (_ ≫= _) => apply propagates_bind
  | |- propagates (await ?o) => apply (propagates_one o)
  | |- propagates (Ret _) => apply propagates_ret
  | |- propagates (Throw _) => apply propagates_throw
  | |- propagates (if ?b then _ else _) => destruct b
  | |- propagates (match ?x with _ => _ end) => destruct x
  | |- forall _, _ => intros
  end.

Ltac decide_ltb :=
  repeat match goal with
         | |- context [Z.ltb ?a ?b] =>
             let v := eval vm_compute in (Z.ltb a b) in
             change (Z.ltb a b) with v
         end.

(** ** Keyed writes *)

Section Upserts.

Context {R E : Type} (key : R -> string) (initial : E) (overwrite : R -> E -> E).
Context (merge : R -> R -> R).
Hypothesis overwrite_merge :
  forall r1 r2 e, overwrite r2 (overwrite r1 e) = overwrite (merge r1 r2) e.
Hypothesis overwrite_twice : forall r e, overwrite r (overwrite r e) = overwrite r e.

(** An upsert changes each key on its own. *)
Lemma upsert_lookup (rows : list R) (t : gmap string E) (k : string) :
  upsert key initial overwrite rows t !! k = patched key initial overwrite k rows (t !! k).
Proof.
  unfold upsert. revert t. induction rows as [|r rows IH]; intros t; simpl; [reflexivity|].
  rewrite IH. f_equal. unfold upsert_row.
  destruct (decide (key r = k)) as [->|Hne].
  - by rewrite lookup_insert_eq.
  - by rewrite lookup_insert_ne.
Qed.

Lemma upsert_app (rows1 rows2 : list R) (t : gmap string E) :
  upsert key initial overwrite (rows1 ++ rows2) t =
  upsert key initial overwrite rows2 (upsert key initial overwrite rows1 t).
Proof. unfold upsert. apply foldl_app. Qed.

Lemma patched_shape (k : string) (rows : list R) :
  (forall o, patched key initial overwrite k rows o = o) \/
  (exists c, forall o,
     patched key initial overwrite k rows o = Some (overwrite c (default initial o))).
Proof.
  induction rows as [|r rows IH]; simpl; [by left|].
  destruct (decide (key r = k)) as [Hk|Hk]; [|exact IH].
  right. destruct IH as [IH|[c IH]].
  - exists r. intros o. by rewrite IH.
  - exists (merge r c). intros o. rewrite IH. simpl. by rewrite overwrite_merge.
Qed.

Lemma patched_twice (k : string) (rows : list R) (o : option E) :
  patched key initial overwrite k rows (patched key initial overwrite k rows o) =
  patched key initial overwrite k rows o.
Proof.
  destruct (patched_shape k rows) as [H|[c H]].
  - by rewrite !H.
  - rewrite !H. simpl. by rewrite overwrite_twice.
Qed.

Lemma remove_keys_lookup (ids : list string) (t : gmap string E) (k : string) :
  remove_keys ids t !! k = if decide (k ∈ ids) then None else t !! k.
Proof.
  unfold remove_keys. induction ids as [|i ids IH]; cbn [foldr].
  - destruct (decide (k ∈ [])) as [Hin|_]; [by apply elem_of_nil in Hin|reflexivity].
  - rewrite lookup_delete, IH.
    destruct (decide (i = k)) as [->|Hne].
    + destruct (decide (k ∈ k :: ids)) as [_|Hout]; [reflexivity|].
      exfalso. apply Hout, elem_of_cons. by left.
    + destruct (decide (k ∈ ids)) as [Hin|Hin];
        destruct (decide (k ∈ i :: ids)) as [Hin'|Hin']; try reflexivity.
      * exfalso. apply Hin', elem_of_cons. by right.
      * exfalso. apply elem_of_cons in Hin' as [Heq|Hin']; [by apply Hne|by apply Hin].
Qed.

(** Upserting then removing by key, done twice, is the same as done once. *)
Lemma upsert_remove_twice (rows : list R) (ids : list string) (t : gmap string E) :
  let once := fun t => remove_keys ids (upsert key initial overwrite rows t) in
  once (once t) = once t.
Proof.
  intros once. unfold once. apply map_eq. intros k.
  rewrite !remove_keys_lookup. destruct (decide (k ∈ ids)); [reflexivity|].
  rewrite !upsert_lookup, remove_keys_lookup.
  rewrite decide_False by assumption.
  rewrite upsert_lookup. apply patched_twice.
Qed.

End Upserts.

Lemma overwrite_merge_rows (r1 r2 : BlacklistRow) (e : BlacklistEntry) :
  overwrite r2 (overwrite r1 e) = overwrite (merge_rows r1 r2) e.
Proof. destruct r1 as [? [] [] [] [] []], r2 as [? [] [] [] [] []]; reflexivity. Qed.

Lemma overwrite_same (r : BlacklistRow) (e : BlacklistEntry) :
  overwrite r (overwrite r e) = overwrite r e.
Proof. destruct r as [? [] [] [] [] []]; reflexivity. Qed.

Lemma overwrite_merge_exempt (r1 r2 : WhitelistRow) (e : WhitelistEntry) :
  overwrite_exempt r2 (overwrite_exempt r1 e) = overwrite_exempt (merge_exempt_rows r1 r2) e.
Proof. destruct r1 as [? [] [] []], r2 as [? [] [] []]; reflexivity. Qed.

Lemma overwrite_exempt_same (r : WhitelistRow) (e : WhitelistEntry) :
  overwrite_exempt r (overwrite_exempt r e) = overwrite_exempt r e.
Proof. destruct r as [? [] [] []]; reflexivity. Qed.

(** ** Synchronisation *)

(** The batch loop never needs more rounds than there are rows. *)
Lemma upsert_batches_fuel {A : Type} (env : Env) (upsert_op : list A -> Op) (rows : list A)
    (fuel extra i : nat) (w : World) :
  (List.length rows <= i + fuel)%nat ->
  run env (upsert_batches upsert_op (fuel + extra) i rows) w =
  run env (upsert_batches upsert_op fuel i rows) w.
Proof.
  revert i w. induction fuel as [|fuel IH]; intros i w Hfuel.
  - destruct extra as [|extra]; [reflexivity|]. cbn [Nat.add upsert_batches].
    destruct (Nat.ltb_spec i (List.length rows)); [lia|reflexivity].
  - cbn [Nat.add upsert_batches].
    destruct (Nat.ltb_spec i (List.length rows)); [|reflexivity].
    rewrite !run_bind.
    match goal with |- context [run env ?p w] => destruct (run env p w) as [[a|e] w1] end;
      try reflexivity.
    apply IH. unfold batchSize. lia.
Qed.

Section Batches.

Context (env : Env) {A : Type} (upsert_op : list A -> Op) (apply : list A -> Tables -> Tables).
Hypothesis upsert_op_step :
  forall rows w, exists a,
    perform env (upsert_op rows) w =
    (Resolved a, record (upsert_op rows) None (apply rows (db w)) w).
Hypothesis apply_nil : forall t, apply [] t = t.
Hypothesis apply_app : forall l1 l2 t, apply (l1 ++ l2) t = apply l2 (apply l1 t).

(** The rounds left write the rows left, if there is fuel for them. *)
Lemma upsert_batches_run (rows : list A) (fuel i : nat) (w : World) :
  (List.length rows <= i + fuel)%nat ->
  exists w', run env (upsert_batches upsert_op fuel i rows) w = (Resolved tt, w') /\
    db w' = apply (drop i rows) (db w).
Proof.
  revert i w. induction fuel as [|fuel IH]; intros i w Hlen; cbn [upsert_batches].
  - exists w. split; [reflexivity|]. rewrite drop_ge by lia. by rewrite apply_nil.
  - destruct (Nat.ltb_spec i (List.length rows)) as [Hi|Hi].
    + rewrite run_bind. cbn [run await].
      destruct (upsert_op_step (slice i (i + batchSize) rows) w) as [a ->].
      cbn [run].
      destruct (IH (i + batchSize)%nat
                  (record (upsert_op (slice i (i + batchSize) rows)) None
                     (apply (slice i (i + batchSize) rows) (db w)) w))
        as (w' & Hr & Hdb).
      { unfold batchSize. lia. }
      exists w'. split; [exact Hr|]. rewrite Hdb. cbn [db record].
      rewrite <- apply_app. f_equal. unfold slice.
      replace (i + batchSize - i)%nat with batchSize by lia.
      rewrite <- drop_drop. apply take_drop.
    + exists w. split; [reflexivity|]. rewrite drop_ge by lia. by rewrite apply_nil.
Qed.

(** The loop of [syncBlacklist] terminates and writes every row. *)
Lemma upsert_all_run (rows : list A) (w : World) :
  exists w', run env (upsert_all upsert_op rows) w = (Resolved tt, w') /\
    db w' = apply rows (db w).
Proof.
  destruct (upsert_batches_run rows (List.length rows) 0 w) as (w' & Hr & Hdb); [lia|].
  exists w'. split; [exact Hr|]. by rewrite Hdb.
Qed.

End Batches.

Lemma upsert_batches_calls {A : Type} (upsert_op : list A -> Op) (fuel i : nat) (rows : list A) :
  (forall l, not_meta_write (upsert_op l)) ->
  calls not_meta_write (upsert_batches upsert_op fuel i rows).
Proof.
  intros Hop. revert i.
  induction fuel as [|fuel IH]; intros i; cbn [upsert_batches]; repeat calls_step; auto.
Qed.

Lemma full_replace_calls (payload : SyncPayload) : calls not_meta_write (full_replace payload).
Proof.
  unfold full_replace, upsert_all.
  repeat calls_step; simpl; auto; apply upsert_batches_calls; intros; exact I.
Qed.

Lemma incremental_calls (payload : SyncPayload) : calls not_meta_write (incremental payload).
Proof. unfold incremental. repeat calls_step; simpl; auto. Qed.

Lemma upsert_batches_propagates {A : Type} (upsert_op : list A -> Op) (fuel i : nat)
    (rows : list A) :
  propagates (upsert_batches upsert_op fuel i rows).
Proof.
  revert i. induction fuel as [|fuel IH]; intros i; cbn [upsert_batches];
    repeat propagates_step; auto.
Qed.

(** Nothing in the [try] block of [syncBlacklist] handles a failure. *)
Lemma sync_attempt_propagates (config : PluginConfig) : propagates (sync_attempt config).
Proof.
  unfold sync_attempt, full_replace, incremental, upsert_all.
  repeat propagates_step; auto using upsert_batches_propagates.
Qed.

Lemma run_keeps_meta {A : Type} (env : Env) (p : Prog A) (w : World) :
  calls not_meta_write p -> blacklist_meta (db (run env p w).2) = blacklist_meta (db w).
Proof.
  intros Hp.
  apply (run_keeps env not_meta_write
           (fun w' => blacklist_meta (db w') = blacklist_meta (db w)) p); auto.
  intros o w' Ho Hw'. rewrite perform_db, <- Hw'.
  destruct o; try reflexivity; simpl in *; try contradiction;
    destruct (store_fault env (now w')); try reflexivity.
  simpl. by destruct (blacklist_request_queue (db w') !! id).
Qed.

(** An attempt that throws has not written the revision. *)
Lemma sync_attempt_rejected (env : Env) (config : PluginConfig) (w : World)
    (e : JsError) (w1 : World) :
  run env (sync_attempt config) w = (Rejected e, w1) ->
  blacklist_meta (db w1) = blacklist_meta (db w).
Proof.
  unfold sync_attempt.
  rewrite run_bind. cbn [run await]. unfold perform at 1. cbn [answer].
  destruct (store_fault env (now w)) as [e1|]; cbn [store_step failure_of run].
  { intros [= _ <-]. reflexivity. }
  rewrite run_bind. cbn [run await]. unfold perform at 1. cbn [answer].
  match goal with |- context [store_fault env ?n] => destruct (store_fault env n) as [e2|] end;
    cbn [store_step failure_of run].
  { intros [= _ <-]. reflexivity. }
  rewrite run_bind. cbn [run await]. unfold perform at 1. cbn [answer failure_of run].
  rewrite run_bind. cbn [run await]. unfold perform at 1. cbn [answer].
  match goal with |- context [post_sync env ?n ?q ?v ?i] =>
    destruct (post_sync env n q v i) as [[r|]|e3] end; cbn [failure_of run].
  2,3: intros [= _ <-]; reflexivity.
  destruct (String.eqb (strategy r) "up-to-date").
  { rewrite run_bind. cbn [run await]. unfold perform. cbn [answer failure_of run].
    discriminate. }
  rewrite run_bind.
  match goal with |- context [run env ?p ?w3] =>
    assert (calls not_meta_write p) as Hp; [|pose proof (run_keeps_meta env p w3 Hp) as Hm;
      destruct (run env p w3) as [[b|e4] w4]] end.
  { repeat calls_step; auto using full_replace_calls, incremental_calls. }
  - rewrite run_bind. cbn [run await]. unfold perform at 1. cbn [answer].
    destruct (store_fault env (now w4)) as [e5|]; cbn [store_step failure_of run].
    + intros [= _ <-]. exact Hm.
    + rewrite run_bind. cbn [run await]. unfold perform. cbn [answer failure_of run].
      discriminate.
  - intros [= _ <-]. exact Hm.
Qed.

(** What [syncBlacklist] makes of an attempt that throws [e]: a warning and
    [false], unless [e] is [null] or [undefined]; the stored revision is the
    one from before the call either way. *)
Lemma syncBlacklist_caught (config : PluginConfig) (env : Env) (w : World)
    (e : JsError) (w1 : World) :
  run env (sync_attempt config) w = (Rejected e, w1) ->
  run env (syncBlacklist config) w =
    (if nullish e then (Rejected TypeError, w1)
     else (Resolved false, record (Log warn) None (db w1) w1)) /\
  sync_revision (run env (syncBlacklist config) w).2 = sync_revision w.
Proof.
  intros Hrun. unfold syncBlacklist. rewrite run_try_catch, Hrun.
  pose proof (sync_attempt_rejected env config w e w1 Hrun) as Hmeta.
  unfold sync_revision.
  destruct e as [v| |]; cbn [nullish run];
    [|split; [reflexivity|cbn [snd]; by rewrite Hmeta]..].
  rewrite run_bind. cbn [run await]. unfold perform. cbn [answer failure_of run].
  split; [reflexivity|]. cbn [snd db record]. by rewrite Hmeta.
Qed.

(** C2.  [syncBlacklist] can raise.  A call that fails inside its [try]
    block is never handled there, and whenever the block throws, the stored
    [sync_revision] is the one from before the call; but the [catch] block
    reads [error.message], so that it logs the warning and returns [false]
    only for a thrown value that is not [null] or [undefined], and throws a
    [TypeError] itself otherwise.  With a remote whose answer to the sync
    request is a rejection with [undefined], [syncBlacklist] rejects. *)
Theorem sync_raises_on_nullish (config : PluginConfig) (env : Env) (w : World) :
  let attempt := run env (sync_attempt config) w in
  let result := run env (syncBlacklist config) w in
  match attempt.1 with
  | Resolved b => result = attempt /\ failures attempt.2 = failures w
  | Rejected e =>
      sync_revision result.2 = sync_revision w /\
      result = if nullish e then (Rejected TypeError, attempt.2)
               else (Resolved false, record (Log warn) None (db attempt.2) attempt.2)
  end /\
  (run (rejecting Undefined) (syncBlacklist (settings both [])) start).1
    = Rejected TypeError.
Proof.
  intros attempt result. split; [|reflexivity]. subst attempt result.
  destruct (run env (sync_attempt config) w) as [[b|e] w1] eqn:Hrun; cbn [fst snd].
  - split.
    + unfold syncBlacklist. by rewrite run_try_catch, Hrun.
    + exact (run_propagates env _ (sync_attempt_propagates config) w b w1 Hrun).
  - destruct (syncBlacklist_caught config env w e w1 Hrun) as [Hr Hrev]. by split.
Qed.

Section Synced.

Context (env : Env) (config : PluginConfig).
Hypothesis NF : forall n, store_fault env n = None.

Lemma users_upsert_step (rows : list BlacklistRow) (w : World) :
  exists a, perform env (UsersUpsert rows) w =
    (Resolved a, record (UsersUpsert rows) None (with_users (upsert_users rows) (db w)) w).
Proof. unfold perform. cbn [answer]. rewrite NF. by eexists. Qed.

Lemma whitelist_upsert_step (rows : list WhitelistRow) (w : World) :
  exists a, perform env (WhitelistUpsert rows) w =
    (Resolved a,
     record (WhitelistUpsert rows) None (with_whitelist (upsert_whitelist rows) (db w)) w).
Proof. unfold perform. cbn [answer]. rewrite NF. by eexists. Qed.

Lemma users_upsert_all (rows : list BlacklistRow) (w : World) :
  exists w', run env (upsert_all UsersUpsert rows) w = (Resolved tt, w') /\
    db w' = with_users (upsert_users rows) (db w).
Proof.
  apply (upsert_all_run env UsersUpsert (fun rows => with_users (upsert_users rows))).
  - apply users_upsert_step.
  - by intros [].
  - intros l1 l2 t. unfold with_users, upsert_users. cbn. by rewrite upsert_app.
Qed.

Lemma whitelist_upsert_all (rows : list WhitelistRow) (w : World) :
  exists w', run env (upsert_all WhitelistUpsert rows) w = (Resolved tt, w') /\
    db w' = with_whitelist (upsert_whitelist rows) (db w).
Proof.
  apply (upsert_all_run env WhitelistUpsert (fun rows => with_whitelist (upsert_whitelist rows))).
  - apply whitelist_upsert_step.
  - by intros [].
  - intros l1 l2 t. unfold with_whitelist, upsert_whitelist. cbn. by rewrite upsert_app.
Qed.

Lemma write_delivered (bl : list BlacklistRow) (wl : list WhitelistRow) (w : World) :
  exists w',
    run env
      ((if (0 <? List.length bl)%nat then upsert_all UsersUpsert bl;; Ret true else Ret false)
       ≫= fun hasNewEntries : bool =>
            (if (0 <? List.length wl)%nat then upsert_all WhitelistUpsert wl else Ret tt);;
            Ret hasNewEntries) w =
    (Resolved (0 <? List.length bl)%nat, w') /\
    db w' = with_whitelist (upsert_whitelist wl) (with_users (upsert_users bl) (db w)).
Proof.
  assert (exists w4, run env
            ((if (0 <? List.length bl)%nat then upsert_all UsersUpsert bl;; Ret true else Ret false)) w
            = (Resolved (0 <? List.length bl)%nat, w4) /\
            db w4 = with_users (upsert_users bl) (db w)) as (w4 & Hr4 & Hdb4).
  { destruct bl as [|b bl']; cbn [List.length Nat.ltb Nat.leb].
    - exists w. split; [reflexivity|]. by destruct (db w).
    - rewrite run_bind.
      destruct (users_upsert_all (b :: bl') w) as (w4 & -> & Hdb4). by exists w4. }
  assert (exists w5, run env
            ((if (0 <? List.length wl)%nat then upsert_all WhitelistUpsert wl else Ret tt)) w4
            = (Resolved tt, w5) /\
            db w5 = with_whitelist (upsert_whitelist wl) (db w4)) as (w5 & Hr5 & Hdb5).
  { destruct wl as [|b wl']; cbn [List.length Nat.ltb Nat.leb].
    - exists w4. split; [reflexivity|]. by destruct (db w4).
    - destruct (whitelist_upsert_all (b :: wl') w4) as (w5 & -> & Hdb5). by exists w5. }
  exists w5. rewrite run_bind, Hr4, run_bind, Hr5. split; [reflexivity|].
  by rewrite Hdb5, Hdb4.
Qed.

Lemma full_replace_run (payload : SyncPayload) (w : World) :
  payload <> DataAbsent ->
  exists w', run env (full_replace payload) w =
      (Resolved (0 <? List.length (delivered_blacklist payload))%nat, w') /\
    db w' = with_whitelist (fun _ => upsert_whitelist (delivered_whitelist payload) ∅)
              (with_users (fun _ => upsert_users (delivered_blacklist payload) ∅) (db w)).
Proof.
  intros Hp. unfold full_replace. exec NF.
  match goal with |- context [run env (match payload with _ => _ end) ?w3] =>
    set (w3' := w3) end.
  assert (db w3' = with_whitelist (fun _ => ∅) (with_users (fun _ => ∅) (db w))) as Hdb3
    by reflexivity.
  clearbody w3'.
  destruct (write_delivered (delivered_blacklist payload) (delivered_whitelist payload) w3')
    as (w5 & Hr & Hdb).
  exists w5. split.
  - destruct payload as [rows|d|]; [| |done]; cbn [run]; exact Hr.
  - rewrite Hdb, Hdb3. reflexivity.
Qed.

Lemma incremental_run (payload : SyncPayload) (w : World) :
  payload <> DataAbsent ->
  exists w', run env (incremental payload) w =
      (Resolved (bool_decide (is_Some (non_empty (upserts (changes payload))))), w') /\
    db w' = apply_changes (changes payload) (db w).
Proof.
  intros Hp. unfold incremental. exec NF.
  destruct payload as [rows|d|]; [| |done]; cbn [run changes].
  - cbn. eexists; split; [reflexivity|]. by destruct (db w).
  - destruct d as [bl wl ups dels wups wdels].
    cbn [upserts deletes whitelist_upserts whitelist_deletes].
    unfold apply_changes. cbn [upserts deletes whitelist_upserts whitelist_deletes].
    destruct ups as [[|u ups]|]; cbn [non_empty]; exec NF;
    destruct dels as [[|x dels]|]; cbn [non_empty]; exec NF;
    destruct wups as [[|y wups]|]; cbn [non_empty]; exec NF;
    destruct wdels as [[|z wdels]|]; cbn [non_empty]; exec NF;
    (eexists; split; [reflexivity|]; by destruct (db w)).
Qed.

Lemma incremental_absent (w : World) :
  exists w', run env (incremental DataAbsent) w = (Rejected TypeError, w') /\ db w' = db w.
Proof. unfold incremental. exec NF. by eexists. Qed.

(** A sync answered with [r], any strategy but [up-to-date]. *)
Lemma syncBlacklist_run (r : SyncResponse) (w : World) :
  (forall n req inst, post_sync env n req (localRevision w) inst = Resolved (Some r)) ->
  strategy r <> "up-to-date" ->
  exists w3, db w3 = db w /\
    run env (syncBlacklist config) w =
    match run env (reconcile r) w3 with
    | (Resolved b, w4) =>
        (Resolved b,
         record (Log info) None
           (with_meta (insert "sync_revision" (newRevision r)) (db w4))
           (record (MetaUpsert "sync_revision" (newRevision r)) None
              (with_meta (insert "sync_revision" (newRevision r)) (db w4)) w4))
    | (Rejected e, w4) =>
        if nullish e then (Rejected TypeError, w4)
        else (Resolved false, record (Log warn) None (db w4) w4)
    end.
Proof.
  intros Hpost Hs. unfold syncBlacklist, sync_attempt. exec NF.
  rewrite first_value_row_of. cbn [db record].
  change (default EmptyString (blacklist_meta (db w) !! "sync_revision"))
    with (localRevision w).
  rewrite Hpost. exec NF.
  destruct (String.eqb_spec (strategy r) "up-to-date"); [done|].
  exec NF. fold (reconcile r).
  match goal with |- context [run env (reconcile r) ?w3] => exists w3 end.
  split; [reflexivity|].
  destruct (run env (reconcile r) _) as [[b|[v| |]] w4]; exec NF; reflexivity.
Qed.

Lemma full_replace_sync (w : World) (r : SyncResponse) :
  (forall n req inst, post_sync env n req (localRevision w) inst = Resolved (Some r)) ->
  strategy r = "full_replace" -> data r <> DataAbsent ->
  exists w', run env (syncBlacklist config) w =
      (Resolved (0 <? List.length (delivered_blacklist (data r)))%nat, w') /\
    blacklist_users (db w') = upsert_users (delivered_blacklist (data r)) ∅ /\
    blacklist_whitelist (db w') = upsert_whitelist (delivered_whitelist (data r)) ∅ /\
    sync_revision w' = Some (newRevision r).
Proof.
  intros Hpost Hs Hd.
  destruct (syncBlacklist_run r w Hpost) as (w3 & Hdb & ->).
  { rewrite Hs. discriminate. }
  unfold reconcile. rewrite Hs. cbn [String.eqb Ascii.eqb Bool.eqb].
  destruct (full_replace_run (data r) w3 Hd) as (w4 & -> & Hdb4).
  eexists. split; [reflexivity|].
  unfold sync_revision. cbn [db record]. rewrite Hdb4. cbn.
  by rewrite lookup_insert_eq.
Qed.

Lemma incremental_sync_db (w : World) (r : SyncResponse) :
  (forall n req rev inst, post_sync env n req rev inst = Resolved (Some r)) ->
  strategy r = "incremental" ->
  db (run env (syncBlacklist config) w).2 =
  match data r with
  | DataAbsent => db w
  | _ => with_meta (insert "sync_revision" (newRevision r))
           (apply_changes (changes (data r)) (db w))
  end.
Proof.
  intros Hpost Hs.
  destruct (syncBlacklist_run r w) as (w3 & Hdb3 & ->); [auto|by rewrite Hs|].
  unfold reconcile. rewrite Hs. cbn [String.eqb Ascii.eqb Bool.eqb].
  assert (data r = DataAbsent \/ data r <> DataAbsent) as [Ha|Ha]
    by (destruct (data r); auto; right; discriminate).
  - rewrite Ha. destruct (incremental_absent w3) as (w4 & -> & Hdb4).
    cbn [snd db record]. by rewrite Hdb4.
  - destruct (incremental_run (data r) w3 Ha) as (w4 & -> & Hdb4).
    cbn [snd db record]. rewrite Hdb4, Hdb3. by destruct (data r).
Qed.

End Synced.

(** C3.  A sync answered with [full_replace] empties both collections and
    then writes the delivered rows: afterwards the block entries are the
    delivered block rows upserted into an empty table, the exempt entries
    the delivered exempt rows upserted into an empty table, the revision is
    the new one, and the result tells whether block rows were delivered.  In
    the scenario (local revision empty, one row [u1] with reason [spam], no
    whitelist, new revision [r1]) the block entries are exactly the row of
    [u1], the exempt entries are empty, the revision is [r1] and the result
    is [true]. *)
Theorem full_replace_rebuilds (config : PluginConfig) (env : Env) :
  (forall w r,
     (forall n, store_fault env n = None) ->
     (forall n req inst, post_sync env n req (localRevision w) inst = Resolved (Some r)) ->
     strategy r = "full_replace" -> data r <> DataAbsent ->
     exists w', run env (syncBlacklist config) w =
         (Resolved (0 <? List.length (delivered_blacklist (data r)))%nat, w') /\
       blacklist_users (db w') = upsert_users (delivered_blacklist (data r)) ∅ /\
       blacklist_whitelist (db w') = upsert_whitelist (delivered_whitelist (data r)) ∅ /\
       sync_revision w' = Some (newRevision r)) /\
  (forall w,
     (forall n, store_fault env n = None) ->
     localRevision w = EmptyString ->
     (forall n req inst,
        post_sync env n req EmptyString inst = Resolved (Some scenario_response)) ->
     exists w', run env (syncBlacklist config) w = (Resolved true, w') /\
       blacklist_users (db w') =
         {[ "u1" := {| reason := "spam"; operator_id := EmptyString;
                       source_id := EmptyString; disabled := false;
                       updated_at := None |} ]} /\
       blacklist_whitelist (db w') = ∅ /\
       sync_revision w' = Some "r1").
Proof.
  split.
  - intros w r NF. by apply full_replace_sync.
  - intros w NF Hrev Hpost.
    destruct (full_replace_sync env config NF w scenario_response)
      as (w' & Hr & Hu & Hw & Hs);
      [by rewrite Hrev|reflexivity|discriminate|].
    exists w'. split; [exact Hr|]. split; [exact Hu|]. split; [exact Hw|exact Hs].
Qed.

Lemma full_replace_rebuilds_witness :
  exists w',
    run (answering scenario_response) (syncBlacklist (settings both [])) alice_blocked =
      (Resolved true, w') /\
    blacklist_users (db w') =
      {[ "u1" := {| reason := "spam"; operator_id := EmptyString;
                    source_id := EmptyString; disabled := false;
                    updated_at := None |} ]} /\
    blacklist_whitelist (db w') = ∅ /\
    sync_revision w' = Some "r1".
Proof.
  apply (proj2 (full_replace_rebuilds (settings both []) (answering scenario_response))
           alice_blocked).
  - intros n. reflexivity.
  - reflexivity.
  - intros n req inst. reflexivity.
Defined.

(** C7.  When the remote keeps answering the same [incremental] payload and
    the store works, a second sync leaves the block entries and the exempt
    entries exactly as the first sync left them, from any local state. *)
Theorem incremental_sync_idempotent (config : PluginConfig) (env : Env) (w : World)
    (r : SyncResponse) :
  (forall n, store_fault env n = None) ->
  (forall n req rev inst, post_sync env n req rev inst = Resolved (Some r)) ->
  strategy r = "incremental" ->
  let once := (run env (syncBlacklist config) w).2 in
  let twice := (run env (syncBlacklist config) once).2 in
  blacklist_users (db twice) = blacklist_users (db once) /\
  blacklist_whitelist (db twice) = blacklist_whitelist (db once).
Proof.
  intros NF Hpost Hs once twice. subst twice.
  rewrite (incremental_sync_db env config NF once r Hpost Hs).
  subst once. rewrite (incremental_sync_db env config NF w r Hpost Hs).
  destruct (data r) as [rows|d|]; [| |done]; unfold apply_changes; cbn; split;
    first [ apply (upsert_remove_twice user_id initial_entry overwrite merge_rows
                     overwrite_merge_rows overwrite_same)
          | apply (upsert_remove_twice w_user_id initial_exempt overwrite_exempt
                     merge_exempt_rows overwrite_merge_exempt overwrite_exempt_same)
          | reflexivity ].
Qed.

Lemma incremental_sync_idempotent_witness :
  let env := answering delta_response in
  let config := settings both [] in
  let once := (run env (syncBlacklist config) alice_blocked).2 in
  let twice := (run env (syncBlacklist config) once).2 in
  blacklist_users (db twice) = blacklist_users (db once) /\
  blacklist_whitelist (db twice) = blacklist_whitelist (db once).
Proof.
  apply (incremental_sync_idempotent (settings both []) (answering delta_response)
           alice_blocked delta_response).
  - intros n. reflexivity.
  - intros n req rev inst. reflexivity.
  - reflexivity.
Defined.

(** C10.  A sync answered with a strategy that is none of [up-to-date],
    [full_replace] and [incremental] leaves the block entries and the exempt
    entries as they were, stores the answer's [newRevision] as
    [sync_revision], and returns [false]. *)
Theorem unknown_strategy_advances_revision (config : PluginConfig) (env : Env) (w : World)
    (r : SyncResponse) :
  (forall n, store_fault env n = None) ->
  (forall n req inst, post_sync env n req (localRevision w) inst = Resolved (Some r)) ->
  strategy r <> "up-to-date" -> strategy r <> "full_replace" -> strategy r <> "incremental" ->
  exists w', run env (syncBlacklist config) w = (Resolved false, w') /\
    blacklist_users (db w') = blacklist_users (db w) /\
    blacklist_whitelist (db w') = blacklist_whitelist (db w) /\
    sync_revision w' = Some (newRevision r).
Proof.
  intros NF Hpost H1 H2 H3.
  destruct (syncBlacklist_run env config NF r w Hpost H1) as (w3 & Hdb & ->).
  unfold reconcile.
  destruct (String.eqb_spec (strategy r) "full_replace"); [done|].
  destruct (String.eqb_spec (strategy r) "incremental"); [done|].
  cbn [run]. eexists. split; [reflexivity|].
  unfold sync_revision. cbn [db record]. rewrite Hdb. cbn.
  by rewrite lookup_insert_eq.
Qed.

Lemma unknown_strategy_advances_revision_witness :
  exists w',
    run (answering odd_response) (syncBlacklist (settings both [])) alice_blocked =
      (Resolved false, w') /\
    blacklist_users (db w') = blacklist_users (db alice_blocked) /\
    blacklist_whitelist (db w') = blacklist_whitelist (db alice_blocked) /\
    sync_revision w' = Some "r9".
Proof.
  apply (unknown_strategy_advances_revision (settings both []) (answering odd_response)
           alice_blocked odd_response).
  - intros n. reflexivity.
  - intros n req inst. reflexivity.
  - discriminate.
  - discriminate.
  - discriminate.
Defined.

(** ** The offline queue *)

#[local] Instance older_total (place : jval -> Z) : Total (older place).
Proof. intros a b. unfold older. lia. Qed.

#[local] Instance older_trans (place : jval -> Z) : Transitive (older place).
Proof. intros a b c. unfold older. lia. Qed.

Lemma oldest_lookup (place : jval -> Z) (n : nat) (q : gmap jval OfflineRequest)
    (id : jval) (row : OfflineRequest) :
  (id, row) ∈ oldest place n q -> q !! id = Some row.
Proof.
  unfold oldest. intros H. apply elem_of_take in H as (i & H & _).
  apply list_elem_of_lookup_2 in H.
  rewrite merge_sort_Permutation in H. by apply elem_of_map_to_list in H.
Qed.

Lemma oldest_NoDup (place : jval -> Z) (n : nat) (q : gmap jval OfflineRequest) :
  NoDup (oldest place n q).*1.
Proof.
  unfold oldest. rewrite fmap_take.
  eapply sublist_NoDup; [|apply sublist_take].
  rewrite merge_sort_Permutation. apply NoDup_fst_map_to_list.
Qed.

Lemma oldest_length (place : jval -> Z) (n : nat) (q : gmap jval OfflineRequest) :
  List.length (oldest place n q) = Nat.min n (size q).
Proof.
  unfold oldest. by rewrite length_take, merge_sort_Permutation, length_map_to_list.
Qed.

(** Whatever the store's own order is, no request left out is older than a
    request taken. *)
Lemma oldest_first (place : jval -> Z) (n : nat) (q : gmap jval OfflineRequest)
    (id id' : jval) (row row' : OfflineRequest) :
  (id, row) ∈ oldest place n q -> q !! id' = Some row' ->
  id' ∉ (oldest place n q).*1 -> createdAt row <= createdAt row'.
Proof.
  unfold oldest. set (l := merge_sort (older place) (map_to_list q)).
  intros Hin Hq Hout.
  assert ((id', row') ∈ drop n l) as Hrest.
  { assert ((id', row') ∈ l) as Hl.
    { unfold l. rewrite merge_sort_Permutation. by apply elem_of_map_to_list. }
    rewrite <- (take_drop n l) in Hl. apply elem_of_app in Hl as [Hl|Hl]; [|exact Hl].
    exfalso. apply Hout. by apply (list_elem_of_fmap_2 fst) in Hl. }
  assert (StronglySorted (older place) (take n l ++ drop n l)) as Hs.
  { rewrite take_drop. apply StronglySorted_merge_sort; apply _. }
  pose proof (StronglySorted_app_1_elem_of _ _ _ _ _ Hs Hin Hrest) as Ho.
  unfold older in Ho. cbn in Ho. lia.
Qed.

Lemma deliver_leaves_key (config : PluginConfig) (inst : option string)
    (item : jval * OfflineRequest) (id : jval) :
  item.1 <> id -> calls (leaves_key id) (deliver config inst item).
Proof. intros Hne. unfold deliver. repeat calls_step; simpl; auto. Qed.

Lemma deliver_all_leaves_key (config : PluginConfig) (inst : option string)
    (items : list (jval * OfflineRequest)) (id : jval) :
  id ∉ items.*1 -> calls (leaves_key id) (deliver_all config inst items).
Proof.
  induction items as [|it items IH]; intros Hfresh; simpl; [constructor|].
  apply calls_bind.
  - apply deliver_leaves_key. intros Heq. apply Hfresh. rewrite fmap_cons, Heq. left.
  - intros _. apply IH. intros Hin. apply Hfresh. rewrite fmap_cons. by right.
Qed.

Lemma deliver_all_never_creates (config : PluginConfig) (inst : option string)
    (items : list (jval * OfflineRequest)) :
  calls never_creates (deliver_all config inst items).
Proof.
  induction items as [|item items IH]; simpl; repeat calls_step; auto.
  unfold deliver. repeat calls_step; exact I.
Qed.

Lemma drain_calls (config : PluginConfig) : calls (fun _ => True) (drain config).
Proof.
  unfold drain. repeat calls_step; auto.
  match goal with |- calls _ (deliver_all _ _ ?l) => generalize l end.
  intros items. induction items as [|item items IH]; simpl; repeat calls_step; auto.
  unfold deliver. repeat calls_step; exact I.
Qed.

Section Queue.

Context (env : Env) (config : PluginConfig) (inst : option string).

Lemma perform_leaves_key (id : jval) (o : Op) (w : World) :
  leaves_key id o -> queue (perform env o w).2 !! id = queue w !! id.
Proof.
  intros Ho. unfold queue. rewrite perform_db.
  destruct o; try reflexivity; simpl in *;
    destruct (store_fault env (now w)); try reflexivity; simpl.
  - destruct (blacklist_request_queue (db w) !! id0); [reflexivity|].
    simpl. by rewrite lookup_insert_ne.
  - by rewrite lookup_delete_ne.
  - by rewrite lookup_alter_ne.
Qed.

Lemma perform_keeps_absent (id : jval) (o : Op) (w : World) :
  never_creates o -> queue w !! id = None -> queue (perform env o w).2 !! id = None.
Proof.
  intros Ho Hw. unfold queue in *. rewrite perform_db.
  destruct o; try exact Hw; simpl in *;
    destruct (store_fault env (now w)); try exact Hw; simpl; try done.
  - rewrite lookup_delete. case_decide; done.
  - rewrite lookup_alter. case_decide; subst; by rewrite ?Hw.
Qed.

Lemma run_leaves_key {A : Type} (p : Prog A) (id : jval) (w : World) :
  calls (leaves_key id) p -> queue (run env p w).2 !! id = queue w !! id.
Proof.
  intros Hp.
  apply (run_keeps env (leaves_key id) (fun w' => queue w' !! id = queue w !! id) p); auto.
  intros o w' Ho Hw'. by rewrite perform_leaves_key.
Qed.

Lemma run_keeps_absent {A : Type} (p : Prog A) (id : jval) (w : World) :
  calls never_creates p -> queue w !! id = None -> queue (run env p w).2 !! id = None.
Proof.
  intros Hp. revert w.
  apply (run_keeps env never_creates (fun w' => queue w' !! id = None) p); auto.
  intros o w' Ho Hw'. by apply perform_keeps_absent.
Qed.

(** An item whose delivery fails at the network level is kept as it is,
    whatever else happens while the list is processed. *)
Lemma deliver_all_untouched (items : list (jval * OfflineRequest)) (id : jval)
    (row : OfflineRequest) (e : ErrorValue) (w : World) :
  (forall it, it ∈ items -> it.1 = id -> it.2 = row) ->
  retryCount row <= 5 ->
  (forall n req, post_applications env n req (retry_body (payload row) inst) = Some (Value e)) ->
  isNetworkError e = true ->
  queue w !! id = Some row ->
  queue (run env (deliver_all config inst items) w).2 !! id = Some row.
Proof.
  intros Hitems Hrc Hpost He. revert w.
  induction items as [|item items IH]; intros w Hw; simpl; [exact Hw|].
  rewrite run_bind.
  assert (queue (run env (deliver config inst item) w).2 !! id = Some row) as H1.
  { destruct (decide (item.1 = id)) as [Heq|Hne].
    - assert (item.2 = row) as Hrow by (apply Hitems; [left|exact Heq]).
      unfold deliver. rewrite Hrow.
      destruct (Z.ltb_spec 5 (retryCount row)); [lia|].
      rewrite run_try_catch, run_bind. cbn [run await]. unfold perform at 1.
      cbn [answer]. rewrite Hpost. cbn [unit_result failure_of run].
      rewrite He. cbn [run await]. unfold perform. cbn [answer failure_of run].
      exact Hw.
    - rewrite run_leaves_key; [exact Hw|]. by apply deliver_leaves_key. }
  destruct (run env (deliver config inst item) w) as [[[]|e'] w1]; simpl in H1.
  - apply IH; [|exact H1]. intros it Hit. apply Hitems. by right.
  - exact H1.
Qed.

Hypothesis NF : forall n, store_fault env n = None.

Lemma deliver_dead (item : jval * OfflineRequest) (w : World) :
  5 < retryCount item.2 ->
  exists w', run env (deliver config inst item) w = (Resolved tt, w') /\
    db w' = with_queue (delete item.1) (db w) /\
    posts (trace w') = posts (trace w).
Proof.
  intros Hrc. unfold deliver.
  destruct (Z.ltb_spec 5 (retryCount item.2)); [|lia].
  exec NF.
  eexists; split; [reflexivity|]. cbn [db trace record]. split; [reflexivity|].
  rewrite !posts_snoc. simpl. by rewrite !app_nil_r.
Qed.

(** The delivery of an item within budget, when the remote fails it, if it
    does, with a value [e] whose properties can be read. *)
Lemma deliver_alive (item : jval * OfflineRequest) (w : World) :
  retryCount item.2 <= 5 ->
  match post_applications env (now w) (retry_request config)
          (retry_body (payload item.2) inst) with
  | Some e => nullish e = false
  | None => True
  end ->
  exists w', run env (deliver config inst item) w = (Resolved tt, w') /\
    db w' =
      match post_applications env (now w) (retry_request config)
              (retry_body (payload item.2) inst) with
      | None => with_queue (delete item.1) (db w)
      | Some (Value e) =>
          if isNetworkError e then db w
          else with_queue (alter (set_retryCount (retryCount item.2 + 1)) item.1) (db w)
      | Some _ => db w
      end /\
    posts (trace w') = (posts (trace w) ++ [retry_body (payload item.2) inst])%list.
Proof.
  intros Hrc. unfold deliver.
  destruct (Z.ltb_spec 5 (retryCount item.2)); [lia|].
  exec NF. fold (retry_request config).
  destruct (post_applications env (now w) (retry_request config)
              (retry_body (payload item.2) inst)) as [[e| |]|]; [|done|done|]; intros _;
    exec NF.
  - destruct (isNetworkError e); exec NF;
      (eexists; split; [reflexivity|]; cbn [db trace record]; split; [reflexivity|];
       rewrite !posts_snoc; simpl; by rewrite ?app_nil_r).
  - eexists; split; [reflexivity|]. cbn [db trace record]. split; [reflexivity|].
    rewrite !posts_snoc. simpl. by rewrite ?app_nil_r.
Qed.

Hypothesis RF : readable_failures env.

Lemma readable (w : World) (body : obj) :
  match post_applications env (now w) (retry_request config) body with
  | Some e => nullish e = false
  | None => True
  end.
Proof.
  destruct (post_applications env (now w) (retry_request config) body) as [e|] eqn:He;
    [|done]. exact (RF _ _ _ _ He).
Qed.

Lemma deliver_resolves (item : jval * OfflineRequest) (w : World) :
  exists w', run env (deliver config inst item) w = (Resolved tt, w') /\
    posts (trace w') =
      (posts (trace w) ++
       if decide (alive item) then [retry_body (payload item.2) inst] else [])%list.
Proof.
  destruct (decide (alive item)) as [Ha|Ha]; unfold alive in Ha.
  - destruct (deliver_alive item w Ha (readable w _)) as (w' & Hr & _ & Hp). eauto.
  - destruct (deliver_dead item w) as (w' & Hr & _ & Hp); [lia|].
    exists w'. by rewrite app_nil_r.
Qed.

(** With a working store and readable failures the loop reaches its end, and
    the delivery attempts it makes are exactly those for the items within
    budget, in order. *)
Lemma deliver_all_posts (items : list (jval * OfflineRequest)) (w : World) :
  exists w', run env (deliver_all config inst items) w = (Resolved tt, w') /\
    posts (trace w') =
      (posts (trace w) ++
       map (fun it => retry_body (payload it.2) inst) (filter alive items))%list.
Proof.
  revert w. induction items as [|item items IH]; intros w; simpl.
  - exists w. by rewrite app_nil_r.
  - rewrite run_bind.
    destruct (deliver_resolves item w) as (w1 & -> & Hp1).
    destruct (IH w1) as (w' & Hr & Hp). exists w'. split; [exact Hr|].
    rewrite Hp, Hp1, filter_cons. destruct (decide (alive item)); simpl.
    + by rewrite <- app_assoc.
    + by rewrite app_nil_r.
Qed.

Lemma deliver_all_evicts (items : list (jval * OfflineRequest)) (id : jval)
    (row : OfflineRequest) (w : World) :
  (id, row) ∈ items -> 5 < retryCount row ->
  queue (run env (deliver_all config inst items) w).2 !! id = None.
Proof.
  intros Hin Hrc. revert w.
  induction items as [|item items IH]; intros w; [by apply elem_of_nil in Hin|].
  simpl. rewrite run_bind.
  apply elem_of_cons in Hin as [<-|Hin].
  - destruct (deliver_dead (id, row) w Hrc) as (w1 & -> & Hdb & _).
    apply run_keeps_absent; [apply deliver_all_never_creates|].
    unfold queue. rewrite Hdb. simpl. apply lookup_delete_eq.
  - destruct (deliver_resolves item w) as (w1 & -> & _).
    by apply IH.
Qed.

Lemma deliver_all_counts (items : list (jval * OfflineRequest)) (id : jval)
    (row : OfflineRequest) (e : ErrorValue) (w : World) :
  NoDup items.*1 -> (id, row) ∈ items -> retryCount row <= 5 ->
  (forall n req, post_applications env n req (retry_body (payload row) inst) = Some (Value e)) ->
  isNetworkError e = false ->
  queue w !! id = Some row ->
  queue (run env (deliver_all config inst items) w).2 !! id =
  Some (set_retryCount (retryCount row + 1) row).
Proof.
  intros Hnd Hin Hrc Hpost He. revert w.
  induction items as [|item items IH]; intros w Hw; [by apply elem_of_nil in Hin|].
  simpl. rewrite run_bind.
  rewrite fmap_cons in Hnd. apply NoDup_cons in Hnd as [Hfresh Hnd].
  apply elem_of_cons in Hin as [<-|Hin].
  - destruct (deliver_alive (id, row) w Hrc (readable w _)) as (w1 & -> & Hdb & _).
    simpl in Hdb. rewrite Hpost, He in Hdb.
    rewrite run_leaves_key by (by apply deliver_all_leaves_key).
    unfold queue in *. rewrite Hdb. simpl. by rewrite lookup_alter_eq, Hw.
  - assert (item.1 <> id) as Hne.
    { intros Heq. apply Hfresh. rewrite Heq.
      apply (list_elem_of_fmap_2 fst) in Hin. exact Hin. }
    pose proof (run_leaves_key (deliver config inst item) id w
                  (deliver_leaves_key config inst item id Hne)) as Hk.
    destruct (deliver_resolves item w) as (w1 & Hr & _).
    rewrite Hr in Hk |- *. simpl in Hk. apply IH; auto. by rewrite Hk.
Qed.

End Queue.

Lemma processOfflineQueue_unlocked (env : Env) (config : PluginConfig) (w : World) :
  isProcessingQueue w = false ->
  run env (processOfflineQueue config) w =
  run env (finally (try_catch (drain config) (fun err => await (Log error)))
             (WriteLock false (Ret tt))) (with_lock true w).
Proof. intros Hl. unfold processOfflineQueue. cbn [run]. rewrite Hl. reflexivity. Qed.

(** A drain with a working store and readable failures: the fetched items
    are all processed, and the lock is released. *)
Lemma processOfflineQueue_run (env : Env) (config : PluginConfig) (w : World) :
  (forall n, store_fault env n = None) ->
  readable_failures env ->
  isProcessingQueue w = false ->
  exists w1, db w1 = db w /\ posts (trace w1) = posts (trace w) /\
    run env (processOfflineQueue config) w =
    (Resolved tt,
     with_lock false
       (run env (deliver_all config (instance_uuid w) (fetched env w)) w1).2).
Proof.
  intros NF RF Hl. rewrite processOfflineQueue_unlocked by exact Hl.
  rewrite run_finally, run_try_catch. unfold drain.
  exec NF. cbn [db with_lock]. fold (queue w).
  change (now (with_lock true w)) with (now w). fold (fetched env w).
  destruct (fetched env w) as [|item items] eqn:Hq.
  - eexists. split; [|split]; [| |reflexivity]; cbn; [reflexivity|].
    by rewrite posts_snoc, app_nil_r.
  - exec NF. rewrite first_value_row_of. cbn [db record]. fold (instance_uuid w).
    match goal with |- context [run env (deliver_all _ _ _) ?w1] => set (w1' := w1) end.
    destruct (deliver_all_posts env config (instance_uuid w) NF RF (item :: items) w1')
      as (w' & Hr & _).
    exists w1'. rewrite Hr. cbn [run]. split; [reflexivity|]. split; [|reflexivity].
    subst w1'. cbn [trace record with_lock]. rewrite !posts_snoc. simpl.
    by rewrite !app_nil_r.
Qed.

(** What a drain leaves of a request it does not fetch, in every
    environment. *)
Lemma drain_leaves_key (env : Env) (config : PluginConfig) (w : World) (id : jval) :
  id ∉ (fetched env w).*1 ->
  queue (run env (processOfflineQueue config) w).2 !! id = queue w !! id.
Proof.
  intros Hout.
  destruct (isProcessingQueue w) eqn:Hl.
  { unfold processOfflineQueue. cbn [run]. by rewrite Hl. }
  rewrite processOfflineQueue_unlocked by exact Hl.
  rewrite run_finally, run_try_catch. unfold drain.
  rewrite run_bind. cbn [run await]. unfold perform at 1. cbn [answer].
  destruct (store_fault env (now (with_lock true w))) as [e1|]; [by cbn|].
  cbn [store_step failure_of run db with_lock]. fold (queue w).
  change (now (with_lock true w)) with (now w). fold (fetched env w).
  destruct (fetched env w) as [|item items]; [by cbn|].
  rewrite run_bind. cbn [run await]. unfold perform at 1. cbn [answer].
  match goal with |- context [store_fault env ?n] => destruct (store_fault env n) as [e2|] end;
    [by cbn|].
  cbn [store_step failure_of run]. rewrite first_value_row_of.
  rewrite run_bind. cbn [run await]. unfold perform at 1. cbn [answer failure_of run].
  cbn [db record with_lock]. fold (instance_uuid w).
  match goal with |- context [run env (deliver_all _ _ _) ?w1] => set (w1' := w1) end.
  pose proof (run_leaves_key env (deliver_all config (instance_uuid w) (item :: items)) id w1'
                (deliver_all_leaves_key config _ _ id Hout)) as Hkeep.
  destruct (run env (deliver_all config (instance_uuid w) (item :: items)) w1')
    as [[[]|e3] w2]; cbn in Hkeep |- *; exact Hkeep.
Qed.

(** C4.  Take a queued request within its retry budget whose delivery the
    remote fails with error [e].  If [e] is a network-level failure (code
    [ECONNABORTED] or [ENOTFOUND], or no response), the request is in the
    queue after the drain exactly as before, in every environment.  If [e]
    is a business-level failure and the store works, then each time the loop
    comes to the request it leaves it queued with [retryCount] one higher and
    nothing else changed; and so does the whole drain when the request is
    among the ten it fetches and no delivery is rejected with [null] or
    [undefined], which would end the loop before its time. *)
Theorem delivery_failure_retry_count (config : PluginConfig) (env : Env) (w : World)
    (id : jval) (row : OfflineRequest) (e : ErrorValue) :
  queue w !! id = Some row ->
  retryCount row <= 5 ->
  (forall n req,
     post_applications env n req (retry_body (payload row) (instance_uuid w))
       = Some (Value e)) ->
  let w' := (run env (processOfflineQueue config) w).2 in
  (isNetworkError e = true -> queue w' !! id = Some row) /\
  (isNetworkError e = false ->
   (forall n, store_fault env n = None) ->
   (forall w1, queue w1 !! id = Some row ->
      run env (deliver config (instance_uuid w) (id, row)) w1
        = (Resolved tt, (run env (deliver config (instance_uuid w) (id, row)) w1).2) /\
      queue (run env (deliver config (instance_uuid w) (id, row)) w1).2 !! id
        = Some (set_retryCount (retryCount row + 1) row)) /\
   (isProcessingQueue w = false ->
    readable_failures env ->
    (id, row) ∈ fetched env w ->
    queue w' !! id = Some (set_retryCount (retryCount row + 1) row))).
Proof.
  intros Hw Hrc Hpost w'. split.
  - intros He. subst w'.
    destruct (isProcessingQueue w) eqn:Hl.
    { unfold processOfflineQueue. cbn [run]. rewrite Hl. exact Hw. }
    rewrite processOfflineQueue_unlocked by exact Hl.
    rewrite run_finally, run_try_catch. unfold drain.
    rewrite run_bind. cbn [run await]. unfold perform at 1. cbn [answer].
    destruct (store_fault env (now (with_lock true w))) as [e1|].
    { cbn. exact Hw. }
    cbn [store_step failure_of run db with_lock]. fold (queue w).
    change (now (with_lock true w)) with (now w). fold (fetched env w).
    pose proof (oldest_lookup (queue_order env (now w)) 10 (queue w)) as Hold.
    fold (fetched env w) in Hold.
    destruct (fetched env w) as [|item items].
    { cbn. exact Hw. }
    rewrite run_bind. cbn [run await]. unfold perform at 1. cbn [answer].
    match goal with |- context [store_fault env ?n] => destruct (store_fault env n) as [e2|] end.
    { cbn. exact Hw. }
    cbn [store_step failure_of run]. rewrite first_value_row_of.
    rewrite run_bind. cbn [run await]. unfold perform at 1. cbn [answer failure_of run].
    cbn [db record with_lock]. fold (instance_uuid w).
    match goal with |- context [run env (deliver_all _ _ _) ?w1] => set (w1' := w1) end.
    pose proof (deliver_all_untouched env config (instance_uuid w) (item :: items) id row e w1')
      as Hkeep.
    destruct (run env (deliver_all config (instance_uuid w) (item :: items)) w1')
      as [[[]|e3] w2]; cbn; apply Hkeep; auto;
      intros [k r] Hit Hk; simpl in *; subst k;
      apply Hold in Hit; rewrite Hw in Hit; congruence.
  - intros He NF. split.
    + intros w1 Hw1.
      destruct (deliver_alive env config (instance_uuid w) NF (id, row) w1 Hrc)
        as (w2 & Hr & Hdb & _).
      { cbn [snd]. by rewrite Hpost. }
      rewrite Hr. cbn [snd]. split; [reflexivity|].
      cbn [fst snd] in Hdb. rewrite Hpost, He in Hdb.
      unfold queue in *. rewrite Hdb. cbn. by rewrite lookup_alter_eq, Hw1.
    + intros Hl RF Hin. subst w'.
      destruct (processOfflineQueue_run env config w NF RF Hl) as (w1 & Hdb & _ & Hr).
      rewrite Hr. cbn [snd].
      apply (deliver_all_counts env config (instance_uuid w) NF RF _ id row e w1); auto.
      * apply oldest_NoDup.
      * unfold queue in *. by rewrite Hdb.
Qed.

Lemma delivery_failure_retry_count_witness :
  queue (run (rejecting unreachable) (processOfflineQueue (settings both [])) backlog).2
    !! JStr "new" = Some (request 2 5) /\
  queue (run (rejecting refused) (processOfflineQueue (settings both [])) backlog).2
    !! JStr "new" = Some (request 2 6).
Proof.
  split.
  - apply (proj1 (delivery_failure_retry_count (settings both []) (rejecting unreachable)
                    backlog (JStr "new") (request 2 5) unreachable
                    eq_refl ltac:(by vm_compute) (fun _ _ => eq_refl))).
    reflexivity.
  - apply (proj2 (proj2 (delivery_failure_retry_count (settings both []) (rejecting refused)
                    backlog (JStr "new") (request 2 5) refused
                    eq_refl ltac:(by vm_compute) (fun _ _ => eq_refl))
                    eq_refl (fun _ => eq_refl))).
    + reflexivity.
    + intros n req body e [= <-]. reflexivity.
    + vm_compute. right. left.
Defined.

(** C5, as stated, at a queue of eleven: the newest request has
    [retryCount] 6 and a drain runs, with the lock free and everything
    working; the ten older requests are delivered and the newest is still
    queued afterwards, as it was. *)
Lemma dead_letter_beyond_the_batch :
  let w' := (run quiet (processOfflineQueue (settings both [])) crowded).2 in
  isProcessingQueue crowded = false /\
  queue crowded !! JNum 11 = Some (request 11 6) /\
  5 < retryCount (request 11 6) /\
  List.length (posts (trace w')) = 10%nat /\
  queue w' !! JNum 11 = Some (request 11 6).
Proof. vm_compute. repeat split; reflexivity. Qed.

(** C5, amended.  A drain that starts with the lock free fetches the ten
    oldest requests, or all of them if there are fewer: no request it leaves
    out was created before one it takes.  With a working store and no
    delivery rejected with [null] or [undefined], every fetched request whose
    [retryCount] exceeds 5 is gone from the queue afterwards, and the
    deliveries attempted are exactly those of the fetched requests with
    [retryCount] at most 5, one each and in the order fetched: none is
    attempted for a fetched request with [retryCount] 6, one is for a fetched
    request with [retryCount] 5.  A request that is not fetched is queued
    afterwards exactly as it was before. *)
Theorem dead_letter_evicted_unattempted (config : PluginConfig) (env : Env) (w : World) :
  isProcessingQueue w = false ->
  (forall n, store_fault env n = None) ->
  readable_failures env ->
  let batch := fetched env w in
  let w' := (run env (processOfflineQueue config) w).2 in
  (List.length batch = Nat.min 10 (size (queue w)) /\
   (forall id row, (id, row) ∈ batch -> queue w !! id = Some row) /\
   (forall id row id' row',
      (id, row) ∈ batch -> queue w !! id' = Some row' -> id' ∉ batch.*1 ->
      createdAt row <= createdAt row')) /\
  posts (trace w') =
    (posts (trace w) ++
     map (fun it => retry_body (payload it.2) (instance_uuid w)) (filter alive batch))%list /\
  (forall id row, (id, row) ∈ batch -> 5 < retryCount row -> queue w' !! id = None) /\
  (forall id, id ∉ batch.*1 -> queue w' !! id = queue w !! id).
Proof.
  intros Hl NF RF batch w'. split; [|split; [|split]].
  - split; [apply oldest_length|]. split.
    + intros id row. apply oldest_lookup.
    + intros id row id' row'. apply oldest_first.
  - destruct (processOfflineQueue_run env config w NF RF Hl) as (w1 & Hdb & Hp & Hr).
    subst w'. rewrite Hr. cbn [snd]. fold batch.
    destruct (deliver_all_posts env config (instance_uuid w) NF RF batch w1)
      as (w2 & Hr2 & Hp2).
    rewrite Hr2. cbn [snd trace with_lock]. by rewrite Hp2, Hp.
  - intros id row Hin Hrc.
    destruct (processOfflineQueue_run env config w NF RF Hl) as (w1 & Hdb & Hp & Hr).
    subst w'. rewrite Hr. cbn [snd]. fold batch.
    exact (deliver_all_evicts env config (instance_uuid w) NF RF batch id row w1 Hin Hrc).
  - intros id Hout. by apply drain_leaves_key.
Qed.

Lemma dead_letter_evicted_unattempted_witness :
  let w' := (run quiet (processOfflineQueue (settings both [])) backlog).2 in
  posts (trace w') = [retry_body (payload (request 2 5)) None] /\
  queue w' !! JStr "old" = None /\
  queue (run quiet (processOfflineQueue (settings both [])) crowded).2 !! JNum 11
    = Some (request 11 6).
Proof.
  intros w'.
  destruct (dead_letter_evicted_unattempted (settings both []) quiet backlog
              eq_refl (fun _ => eq_refl)) as (_ & Hposts & Hgone & _).
  { intros n req body e H. discriminate H. }
  split; [exact Hposts|]. split.
  - apply (Hgone (JStr "old") (request 1 6)).
    + vm_compute. left.
    + by vm_compute.
  - destruct (dead_letter_evicted_unattempted (settings both []) quiet crowded
                eq_refl (fun _ => eq_refl)) as (_ & _ & _ & Hkept).
    { intros n req body e H. discriminate H. }
    rewrite (Hkept (JNum 11)); [reflexivity|].
    vm_compute. intros H. repeat (apply elem_of_cons in H as [H|H]; [discriminate H|]).
    by apply elem_of_nil in H.
Defined.

(** C8.  A drain invoked while the lock is held does nothing at all: it
    returns at once and the world, its record of calls included, is
    unchanged.  A drain invoked while the lock is free holds the lock at
    every call it is suspended on, so that drains invoked meanwhile, while a
    call is pending or when its answer is there, change nothing of what it
    does; and however it ends, by an empty queue, at the end of the list or
    on an error, it returns normally with the lock released. *)
Theorem drain_reentrancy_guard (config : PluginConfig) (env : Env) (w : World) :
  (isProcessingQueue w = true ->
   run env (processOfflineQueue config) w = (Resolved tt, w) /\
   lock_when_suspended env (processOfflineQueue config) w = []) /\
  (isProcessingQueue w = false ->
   Forall (eq true) (lock_when_suspended env (processOfflineQueue config) w) /\
   run_interleaved env (processOfflineQueue config) (processOfflineQueue config) w =
     run env (processOfflineQueue config) w /\
   (run env (processOfflineQueue config) w).1 = Resolved tt /\
   isProcessingQueue (run env (processOfflineQueue config) w).2 = false).
Proof.
  assert (forall w0, isProcessingQueue w0 = true ->
            run env (processOfflineQueue config) w0 = (Resolved tt, w0)) as Hnoop.
  { intros w0 Hl. simpl. by rewrite Hl. }
  assert (calls (fun _ => True)
            (try_catch (drain config) (fun err => await (Log error)))) as Hbody.
  { repeat calls_step; auto using drain_calls. }
  split; intros Hl.
  - split; [by apply Hnoop|]. simpl. by rewrite Hl.
  - unfold processOfflineQueue at 1 3 4 5 6.
    cbn [run run_interleaved lock_when_suspended]. rewrite Hl.
    cbn [run run_interleaved lock_when_suspended].
    rewrite suspended_finally, run_finally, run_interleaved_unlock.
    cbn [run lock_when_suspended]. rewrite app_nil_r.
    rewrite (run_interleaved_calls env (processOfflineQueue config) _ _ Hnoop Hbody)
      by reflexivity.
    split; [|split].
    + by apply (suspended_with_lock env (fun _ => True) _ Hbody (with_lock true w)).
    + by destruct (run env (try_catch (drain config) (fun err => await (Log error)))
                     (with_lock true w)) as [r w1].
    + rewrite run_try_catch.
      destruct (run env (drain config) (with_lock true w)) as [[[]|e] w1]; simpl; auto.
Qed.

Lemma drain_reentrancy_guard_witness :
  run quiet (processOfflineQueue (settings both [])) draining = (Resolved tt, draining) /\
  isProcessingQueue (run quiet (processOfflineQueue (settings both [])) backlog).2 = false.
Proof.
  split.
  - exact (proj1 (proj1 (drain_reentrancy_guard (settings both []) quiet draining) eq_refl)).
  - exact (proj2 (proj2 (proj2 (proj2 (drain_reentrancy_guard (settings both []) quiet
                                          backlog) eq_refl)))).
Defined.

Lemma request_payload_requestId (requestId : string) (applicant : option string)
    (userId reason guild : string) (timestamp : Z) :
  request_payload requestId applicant userId reason guild timestamp !! "requestId" = None /\
  request_payload requestId applicant userId reason guild timestamp !! "request_id"
    = Some (JStr requestId).
Proof.
  unfold request_payload. destruct applicant; split; by simplify_map_eq.
Qed.

(** What [queueRequest] does with a payload that has no [requestId] field. *)
Lemma queueRequest_fresh (env : Env) (w : World) (kind : RequestType) (body : obj) :
  (forall n, store_fault env n = None) ->
  body !! "requestId" = None ->
  let id := JStr (random_uuid env (now w)) in
  queue w !! id = None ->
  exists w', run env (queueRequest kind body) w = (Resolved id, w') /\
    queue w' =
      <[id := {| type := kind; payload := <["requestId" := id]> body;
                 createdAt := clock env (S (now w)); retryCount := 0 |}]> (queue w).
Proof.
  intros NF Hbody id Hfree. unfold queueRequest. rewrite Hbody. exec NF.
  cbn [db record]. fold (queue w). fold id. rewrite Hfree. exec NF.
  eexists. split; [reflexivity|]. unfold queue, now. cbn [db record trace with_queue].
  rewrite length_app. cbn [List.length]. by rewrite Nat.add_1_r.
Qed.

(** C9.  The payload built by [blacklist.request] carries its id in
    [request_id], a field [queueRequest] never reads: given the payload with
    id [abc], [queueRequest] draws a fresh id, returns it and stores the
    request under it, and nothing is stored under [abc].  Through the command
    itself, with the remote out of reach, the id shown to the user is the one
    of the payload, [uuid-0], while the request is queued under another,
    [uuid-later]. *)
Theorem queueRequest_ignores_request_id :
  let body := request_payload "abc" (Some "alice") "bob" "spam" "g1" 0 in
  let queued := run quiet (queueRequest ADD body) start in
  let submitted := run offline (submit_request (settings both []) (Some "alice")
                                  "bob" "spam" "g1") start in
  body !! "request_id" = Some (JStr "abc") /\
  queued.1 = Resolved (JStr "fresh-uuid") /\
  queue queued.2 !! JStr "abc" = None /\
  queue queued.2 !! JStr "fresh-uuid" =
    Some {| type := ADD; payload := <["requestId" := JStr "fresh-uuid"]> body;
            createdAt := 0; retryCount := 0 |} /\
  submitted.1 = Resolved (Queued "uuid-0") /\
  queue submitted.2 !! JStr "uuid-0" = None /\
  is_Some (queue submitted.2 !! JStr "uuid-later").
Proof. vm_compute. repeat split; try reflexivity. by eexists. Qed.

(** ** The moderation decision *)

Lemma exempt_run (toLowerCase : string -> string) (config : PluginConfig)
    (session : Session) (user_id : string) (env : Env) (w : World) :
  user_id ∈ default [] (protectedUsers config) \/
  is_Some (blacklist_whitelist (db w) !! user_id) ->
  exists r w', run env (checkAndHandleUser toLowerCase config session user_id) w = (r, w') /\
    enforcements w' = enforcements w /\
    ((forall n, store_fault env n = None) -> r = Resolved false).
Proof.
  intros Hexempt. unfold checkAndHandleUser.
  destruct (present (guildId session)) as [guild|]; [|by eexists _, _].
  rewrite run_bind. cbn [run await]. unfold perform at 1. cbn [answer].
  destruct (store_fault env (now w)) as [e|] eqn:Hf1.
  { cbn [run fst snd failure_of]. eexists _, _. split; [reflexivity|].
    rewrite enforcements_record, app_nil_r. split; [reflexivity|].
    intros NF. rewrite NF in Hf1. discriminate. }
  cbn [store_step failure_of run].
  match goal with |- context [decide (?m = off)] => destruct (decide (m = off)) end.
  { cbn [run]. eexists _, _. split; [reflexivity|].
    rewrite enforcements_record, app_nil_r. by split. }
  destruct (bool_decide (user_id ∈ default [] (protectedUsers config))) eqn:Hp.
  { cbn [run]. eexists _, _. split; [reflexivity|].
    rewrite enforcements_record, app_nil_r. by split. }
  destruct Hexempt as [Hin|[x Hx]].
  { apply bool_decide_eq_false in Hp. contradiction. }
  rewrite run_bind. cbn [run await]. unfold perform at 1. cbn [answer].
  match goal with |- context [store_fault env ?n] =>
    destruct (store_fault env n) as [e|] eqn:Hf2 end.
  { cbn [run fst snd failure_of]. eexists _, _. split; [reflexivity|].
    rewrite !enforcements_record, !app_nil_r. split; [reflexivity|].
    intros NF. rewrite NF in Hf2. discriminate. }
  cbn [store_step failure_of run db record]. rewrite Hx.
  cbn [run fst snd option_list List.length Nat.ltb Nat.leb].
  eexists _, _. split; [reflexivity|].
  rewrite !enforcements_record, !app_nil_r. by split.
Qed.

(** C1.  For an identity in the configured protected list, or with a row in
    the exempt collection, [checkAndHandleUser] sends no message and attempts
    no removal, whatever the block entries, the roles and the environment
    are; and when the store answers, it returns [false]. *)
Theorem exempt_identity_never_enforced (toLowerCase : string -> string)
    (config : PluginConfig) (session : Session) (user_id : string) (env : Env) (w : World) :
  user_id ∈ default [] (protectedUsers config) \/
  is_Some (blacklist_whitelist (db w) !! user_id) ->
  let result := run env (checkAndHandleUser toLowerCase config session user_id) w in
  enforcements result.2 = enforcements w /\
  ((forall n, store_fault env n = None) -> result.1 = Resolved false).
Proof.
  intros Hexempt result. subst result.
  destruct (exempt_run toLowerCase config session user_id env w Hexempt)
    as (r & w' & -> & He & Hr).
  by split.
Qed.

Lemma exempt_identity_never_enforced_witness :
  let result := run quiet (checkAndHandleUser (fun s => s) (settings both ["alice"])
                             in_guild "alice") alice_blocked in
  blacklist_users (db alice_blocked) !! "alice" = Some spam /\
  enforcements result.2 = [] /\
  result.1 = Resolved false.
Proof.
  intros result.
  destruct (exempt_identity_never_enforced (fun s => s) (settings both ["alice"])
              in_guild "alice" quiet alice_blocked) as [Hnone Hfalse].
  - left. cbn. left.
  - split; [reflexivity|]. split; [exact Hnone|].
    apply Hfalse. intros n. reflexivity.
Defined.

Lemma now_record (o : Op) (f : option JsError) (t : Tables) (w : World) :
  now (record o f t w) = S (now w).
Proof. unfold now. cbn [trace record]. rewrite length_app. cbn. lia. Qed.

(** *** Counters and numbers *)

Lemma below_spec (i : Z) (x : number) : below i x = true <-> (inject_Z i < x)%Q.
Proof.
  unfold below. rewrite negb_true_iff, <- not_true_iff_false, Qle_bool_iff.
  split; [apply Qnot_le_lt|apply Qlt_not_le].
Qed.

(** The counters below [x] are those below the least whole number that is
    not below [x]. *)
Lemma below_ltb (i : Z) (x : number) : below i x = (i <? Qceiling x).
Proof.
  apply eq_true_iff_eq. rewrite below_spec, Z.ltb_lt. split; intros H.
  - rewrite Zlt_Qlt. eapply Qlt_le_trans; [exact H|apply Qle_ceiling].
  - eapply Qle_lt_trans; [|apply Qceiling_lt]. rewrite <- Zle_Qle. lia.
Qed.

Lemma Qceiling_pred (x : number) : Qceiling (x - 1) = Qceiling x - 1.
Proof.
  assert (forall y c, (inject_Z (c - 1) < y)%Q -> (y <= inject_Z c)%Q -> Qceiling y = c)
    as Hunique.
  { intros y c Hlo Hhi.
    pose proof (Qle_ceiling y) as H1. pose proof (Qceiling_lt y) as H2.
    assert (Qceiling y - 1 < c) by (rewrite Zlt_Qlt; eapply Qlt_le_trans; eauto).
    assert (c - 1 < Qceiling y) by (rewrite Zlt_Qlt; eapply Qlt_le_trans; eauto).
    lia. }
  apply Hunique.
  - pose proof (Qceiling_lt x) as H.
    replace (Qceiling x - 1 - 1) with ((Qceiling x - 1) + - 1) by lia.
    rewrite inject_Z_plus. unfold Qminus. by apply Qplus_lt_le_compat.
  - pose proof (Qle_ceiling x) as H.
    replace (Qceiling x - 1) with (Qceiling x + - 1) by lia.
    rewrite inject_Z_plus. unfold Qminus. by apply Qplus_le_compat.
Qed.

Lemma run_keeps_kicks {A : Type} (env : Env) (p : Prog A) (w : World) :
  calls no_kick p -> kick_outcomes (run env p w).2 = kick_outcomes w.
Proof.
  intros Hp.
  apply (run_keeps env no_kick (fun w' => kick_outcomes w' = kick_outcomes w) p); auto.
  intros o w' Ho Hw'. unfold perform. destruct (answer env o w') as [r t]. cbn [snd].
  rewrite kick_outcomes_record, Hw'. destruct o; try apply app_nil_r. contradiction.
Qed.

(** Step over the first part of a sequence when it attempts no removal. *)
Ltac over env :=
  first [rewrite run_bind | rewrite run_bind_explicit];
  match goal with
  | |- context [@run ?A env ?p ?w0] =>
      let Hp := fresh "Hp" in
      let Hk := fresh "Hk" in
      assert (@calls A no_kick p) as Hp by (repeat calls_step; exact I);
      pose proof (@run_keeps_kicks A env p w0 Hp) as Hk;
      clear Hp;
      destruct (@run A env p w0) as [[?|?] ?]; cbn [snd] in Hk; cbv beta iota;
      [|discriminate]
  end.

Section Kicks.

Context (env : Env) (config : PluginConfig) (guild user_id displayName : string).

(** The retry loop always ends; it ends with [kicked] set exactly when its
    last removal succeeded, after fewer failures than the budget allows. *)
Lemma kick_attempts_run (fuel : nat) (i : Z) (w : World) :
  exists b w' fails,
    run env (kick_attempts config guild user_id displayName fuel i) w = (Resolved b, w') /\
    kick_outcomes w' =
      (kick_outcomes w ++ map Some fails ++ if b then [None] else [])%list /\
    (b = true -> below (i + Z.of_nat (List.length fails)) (retryAttempts config) = true) /\
    (List.length fails + (if b then 1 else 0) <= fuel)%nat /\
    (i + Z.of_nat (List.length fails) + (if b then 1 else 0)
       <= Z.max i (Qceiling (retryAttempts config))).
Proof.
  revert i w. induction fuel as [|fuel IH]; intros i w; cbn [kick_attempts].
  { exists false, w, []. cbn. rewrite app_nil_r. repeat split; try done; lia. }
  destruct (below i (retryAttempts config)) eqn:Hi.
  2: { exists false, w, []. cbn. rewrite app_nil_r. repeat split; try done; lia. }
  rewrite run_bind_explicit, run_try_catch, run_bind.
  cbn [run await]. unfold perform at 1. cbn [answer].
  destruct (kick_member env (now w) guild user_id) as [e|].
  - cbn [unit_result failure_of run]. rewrite run_bind.
    match goal with |- context [run env ?p ?w0] =>
      assert (calls no_kick p) as Hp by (repeat calls_step; exact I);
      pose proof (run_keeps_kicks env p w0 Hp) as Hk;
      assert (exists w1, run env p w0 = (Resolved tt, w1)) as (w1 & Hr)
    end.
    { destruct (below i (retryAttempts config - 1)).
      - cbn [run await]. unfold perform. cbn. by eexists.
      - rewrite run_try_catch. cbn [run await]. unfold perform. cbn [answer].
        match goal with |- context [session_send env ?n ?c] =>
          destruct (session_send env n c) end; cbn; by eexists. }
    rewrite Hr in Hk |- *. cbn [run snd] in Hk |- *.
    rewrite kick_outcomes_record in Hk.
    destruct (IH (i + 1) w1) as (b & w' & fails & -> & Ho & Hb & Hfuel & Hmax).
    exists b, w', (e :: fails). split; [reflexivity|]. split; [|split; [|split]].
    + rewrite Ho, Hk. cbn [map]. by rewrite <- !app_assoc.
    + intros Hbt. specialize (Hb Hbt). cbn [List.length].
      by replace (i + Z.of_nat (S (List.length fails)))
        with (i + 1 + Z.of_nat (List.length fails)) by lia.
    + cbn [List.length]. lia.
    + rewrite below_ltb in Hi. apply Z.ltb_lt in Hi. cbn [List.length]. lia.
  - cbn [unit_result failure_of run]. rewrite run_bind.
    cbn [run await]. unfold perform. cbn [answer failure_of run].
    eexists true, _, []. split; [reflexivity|]. split; [|split; [|split]].
    + rewrite !kick_outcomes_record. cbn. by rewrite app_nil_r.
    + intros _. cbn. by rewrite Z.add_0_r.
    + cbn. lia.
    + rewrite below_ltb in Hi. apply Z.ltb_lt in Hi. cbn. lia.
Qed.

(** The retry loop never needs more rounds than there are counters below
    [retryAttempts]. *)
Lemma kick_attempts_fuel (fuel extra : nat) (i : Z) (w : World) :
  Qceiling (retryAttempts config) - i <= Z.of_nat fuel ->
  run env (kick_attempts config guild user_id displayName (fuel + extra) i) w =
  run env (kick_attempts config guild user_id displayName fuel i) w.
Proof.
  revert i w. induction fuel as [|fuel IH]; intros i w Hfuel.
  - destruct extra as [|extra]; [reflexivity|]. cbn [Nat.add kick_attempts].
    rewrite below_ltb. destruct (Z.ltb_spec i (Qceiling (retryAttempts config)));
      [lia|reflexivity].
  - cbn [Nat.add kick_attempts]. rewrite below_ltb.
    destruct (Z.ltb_spec i (Qceiling (retryAttempts config))); [|reflexivity].
    rewrite !run_bind_explicit.
    match goal with |- context [run env ?p w] => destruct (run env p w) as [[[]|e] w1] end;
      try reflexivity.
    apply IH. lia.
Qed.

End Kicks.

Lemma kicked_only_if (toLowerCase : string -> string) (config : PluginConfig)
    (session : Session) (user_id : string) (env : Env) (w w' : World) :
  run env (checkAndHandleUser toLowerCase config session user_id) w = (Resolved true, w') ->
  exists fails,
    kick_outcomes w' = (kick_outcomes w ++ map Some fails ++ [None])%list /\
    (inject_Z (Z.of_nat (List.length fails)) < retryAttempts config)%Q.
Proof.
  unfold checkAndHandleUser.
  destruct (present (guildId session)) as [guild|]; [|discriminate].
  over env.
  match goal with |- context [decide (?m = off)] => destruct (decide (m = off)) end;
    [discriminate|].
  destruct (bool_decide _); [discriminate|].
  over env.
  destruct (0 <? _)%nat; [discriminate|].
  over env.
  match goal with |- context [match ?l with [] => _ | _ => _ end] =>
    destruct l as [|entry ?] end; [discriminate|].
  unfold isUserAdmin.
  over env.
  match goal with |- context [if ?b then _ else _] => destruct b end.
  { over env. discriminate. }
  unfold enforce.
  over env. over env. over env.
  match goal with |- context [decide (?P)] => destruct (decide P) end; [|discriminate].
  rewrite run_bind_explicit.
  match goal with |- context [run env (kick_attempts _ ?g ?u ?d ?f ?i) ?w0] =>
    destruct (kick_attempts_run env config g u d f i w0)
      as (b & wk & fails & -> & Ho & Hb & _) end.
  over env.
  cbn [run]. intros [= -> <-].
  exists fails. split.
  - repeat match goal with H : kick_outcomes _ = _ |- _ => rewrite H; clear H end.
    reflexivity.
  - apply below_spec. exact (Hb eq_refl).
Qed.

Lemma kick_mode_all_fail (toLowerCase : string -> string) (config : PluginConfig)
    (session : Session) (user_id : string) (env : Env) (w : World)
    (guild : string) (entry : BlacklistEntry) (e : JsError) :
  present (guildId session) = Some guild ->
  (forall n, store_fault env n = None) ->
  default (defaultGuildMode config) (blacklist_guild_settings (db w) !! guild) = kick ->
  user_id ∉ default [] (protectedUsers config) ->
  blacklist_whitelist (db w) !! user_id = None ->
  blacklist_users (db w) !! user_id = Some entry ->
  disabled entry = false ->
  (forall n m, guild_member env n guild user_id = Resolved (Some m) ->
               has_admin_role toLowerCase config m = false) ->
  (retryAttempts config == 3)%Q ->
  (forall n, kick_member env n guild user_id <> None) ->
  kick_member env (10 + now w) guild user_id = Some e ->
  let displayName := display_name user_id (guild_member env (5 + now w) guild user_id) in
  exists w',
    run env (checkAndHandleUser toLowerCase config session user_id) w = (Resolved false, w') /\
    enforcements w' =
      (enforcements w ++
       [KickGuildMember guild user_id; KickGuildMember guild user_id;
        KickGuildMember guild user_id;
        SessionSend
          (Plain (replace (replace (kickFailMessage config) "{user}" displayName)
                    "{reason}" (String_of e)))])%list.
Proof.
  intros Hg NF Hmode Hprot Hwl Hentry Hdis Hadmin Hretry Hkick Hlast displayName.
  subst displayName. cbn [Nat.add] in Hlast |- *.
  assert (rounds (retryAttempts config) = 3%nat) as Hrounds.
  { unfold rounds. by rewrite Hretry. }
  assert (forall i, below i (retryAttempts config) = (i <? 3)) as Hbelow.
  { intros i. rewrite below_ltb. by rewrite Hretry. }
  assert (forall i, below i (retryAttempts config - 1) = (i <? 2)) as Hbelow1.
  { intros i. rewrite below_ltb, Qceiling_pred. by rewrite Hretry. }
  unfold checkAndHandleUser. rewrite Hg. exec NF.
  rewrite first_value_row_of, Hmode.
  destruct (decide (kick = off)) as [|_]; [discriminate|].
  rewrite bool_decide_eq_false_2 by exact Hprot.
  exec NF. cbn [db record]. rewrite Hwl. unfold option_list.
  cbn [option_rect List.length Nat.ltb Nat.leb].
  exec NF. cbn [db record]. unfold active_entries. rewrite Hentry, Hdis.
  unfold isUserAdmin. rewrite Hg, run_bind_explicit. exec NF.
  rewrite ?now_record.
  match goal with |- context [guild_member env ?n guild user_id] =>
    pose proof (Hadmin n) as Ha; destruct (guild_member env n guild user_id) as [[m|]|e0] end;
    exec NF; [rewrite (Ha m eq_refl)| |]; clear Ha; exec NF;
  (unfold enforce; exec NF; rewrite ?now_record;
   match goal with |- context [guild_member env ?n guild user_id] =>
     destruct (guild_member env n guild user_id) as [[m'|]|e1] end; exec NF;
   (destruct (decide (kick = notify \/ kick = both)) as [[|]|_]; [discriminate..|];
    destruct (decide (kick = kick \/ kick = both)) as [_|Hno]; [|exfalso; apply Hno; by left];
    exec NF; rewrite run_bind_explicit, Hrounds;
    cbn [kick_attempts];
    rewrite !Hbelow, !Hbelow1; decide_ltb; cbv beta iota;
    rewrite run_bind_explicit; exec NF;
    match goal with |- context [kick_member env ?n guild user_id] =>
      pose proof (Hkick n); destruct (kick_member env n guild user_id) as [k1|]; [|done] end;
    exec NF; decide_ltb; cbv beta iota;
    rewrite run_bind_explicit; exec NF;
    match goal with |- context [kick_member env ?n guild user_id] =>
      pose proof (Hkick n); destruct (kick_member env n guild user_id) as [k2|]; [|done] end;
    exec NF; decide_ltb; cbv beta iota;
    rewrite run_bind_explicit; exec NF; rewrite ?now_record, Hlast;
    exec NF;
    match goal with |- context [session_send env ?n ?c] =>
      destruct (session_send env n c) end; exec NF;
    cbn [andb];
    exec NF;
    (eexists; split; [reflexivity|];
     rewrite !enforcements_record; cbn [enforcement display_name];
     rewrite ?app_nil_r, <- ?app_assoc; reflexivity))).
Qed.

(** C6.  When enforcement is reached for an identity (a guild, a working
    store, the identity blocked, neither protected nor exempt nor admin),
    the effective mode is [kick], [retryAttempts] is 3 and every removal
    fails, then [checkAndHandleUser] attempts the removal three times, then
    sends one message and no other, and returns [false].  The message is
    [kickFailMessage] with [{user}] replaced by the name shown for the
    member, the one that the lookup after the admin check gives (the sixth
    call), and [{reason}] by [String(e)] for the error [e] of the third
    removal (the eleventh call).  And in any situation at all, if
    [checkAndHandleUser] returns [true] then its last removal succeeded,
    after fewer failed ones than [retryAttempts]. *)
Theorem kick_budget_exhausted (toLowerCase : string -> string) (config : PluginConfig)
    (session : Session) (user_id : string) (env : Env) (w : World) :
  (forall guild entry e,
     present (guildId session) = Some guild ->
     (forall n, store_fault env n = None) ->
     default (defaultGuildMode config) (blacklist_guild_settings (db w) !! guild) = kick ->
     user_id ∉ default [] (protectedUsers config) ->
     blacklist_whitelist (db w) !! user_id = None ->
     blacklist_users (db w) !! user_id = Some entry ->
     disabled entry = false ->
     (forall n m, guild_member env n guild user_id = Resolved (Some m) ->
                  has_admin_role toLowerCase config m = false) ->
     (retryAttempts config == 3)%Q ->
     (forall n, kick_member env n guild user_id <> None) ->
     kick_member env (10 + now w) guild user_id = Some e ->
     exists w',
       run env (checkAndHandleUser toLowerCase config session user_id) w
         = (Resolved false, w') /\
       enforcements w' =
         (enforcements w ++
          [KickGuildMember guild user_id; KickGuildMember guild user_id;
           KickGuildMember guild user_id;
           SessionSend
             (Plain
                (replace
                   (replace (kickFailMessage config) "{user}"
                      (display_name user_id (guild_member env (5 + now w) guild user_id)))
                   "{reason}" (String_of e)))])%list) /\
  (forall w',
     run env (checkAndHandleUser toLowerCase config session user_id) w = (Resolved true, w') ->
     exists fails,
       kick_outcomes w' = (kick_outcomes w ++ map Some fails ++ [None])%list /\
       (inject_Z (Z.of_nat (List.length fails)) < retryAttempts config)%Q).
Proof.
  split.
  - intros guild entry e. apply kick_mode_all_fail.
  - intros w'. apply kicked_only_if.
Qed.

Lemma kick_budget_exhausted_witness :
  exists w',
    run (rejecting forbidden)
      (checkAndHandleUser (fun s => s) (settings kick []) in_guild "alice") alice_blocked
      = (Resolved false, w') /\
    enforcements w' =
      [KickGuildMember "g1" "alice"; KickGuildMember "g1" "alice";
       KickGuildMember "g1" "alice";
       SessionSend (Plain "cannot remove alice: Error: permission denied")].
Proof.
  apply (proj1 (kick_budget_exhausted (fun s => s) (settings kick []) in_guild "alice"
                  (rejecting forbidden) alice_blocked) "g1" spam forbidden).
  - reflexivity.
  - intros n. reflexivity.
  - reflexivity.
  - apply not_elem_of_nil.
  - reflexivity.
  - reflexivity.
  - reflexivity.
  - intros n m H. discriminate H.
  - reflexivity.
  - intros n. discriminate.
  - reflexivity.
Defined.

(** ** Identities as users type them *)

Lemma after_until (c : ascii) (s : string) : after c (until c s) = None.
Proof.
  induction s as [|a s IH]; [done|].
  cbn [until]. destruct (Ascii.eqb a c) eqn:E; [done|].
  cbn [after]. by rewrite E.
Qed.

Lemma until_all (c : ascii) (s : string) : after c s = None -> until c s = s.
Proof.
  induction s as [|a s IH]; [done|].
  cbn [after until]. destruct (Ascii.eqb a c); [done|].
  intros H. by rewrite IH.
Qed.

Lemma after_app (c : ascii) (p s : string) :
  after c p = None -> after c (p ++ s) = after c s.
Proof.
  induction p as [|a p IH]; [done|].
  simpl. destruct (Ascii.eqb a c); [done|]. exact IH.
Qed.

Lemma until_app (c : ascii) (p s : string) :
  after c p = None -> until c (p ++ String c s) = p.
Proof.
  induction p as [|a p IH].
  - intros _. simpl. by rewrite Ascii.eqb_refl.
  - simpl. destruct (Ascii.eqb a c); [done|].
    intros H. by rewrite IH.
Qed.

Lemma prefix_app (p s : string) : String.prefix p (p ++ s) = true.
Proof.
  induction p as [|a p IH]; [by destruct s|].
  simpl. by destruct (ascii_dec a a).
Qed.

Lemma drop_chars_app (p s : string) : drop_chars (String.length p) (p ++ s) = s.
Proof. induction p as [|a p IH]; [done|]. exact IH. Qed.

Lemma prefix_split (p s : string) : String.prefix p s = true -> exists r, s = p ++ r.
Proof.
  revert s. induction p as [|a p IH]; intros s; [by exists s|].
  destruct s as [|b s]; [done|]. simpl.
  destruct (ascii_dec a b) as [<-|]; [|done].
  intros H. destruct (IH s H) as [r ->]. by exists r.
Qed.

Lemma at_here_quote (s id : string) :
  at_here s = Some id -> is_Some (after "<" s) /\ is_Some (after quote s).
Proof.
  unfold at_here. destruct (String.prefix at_open s) eqn:E; [|done].
  intros _. apply prefix_split in E as [r ->].
  split; by eexists.
Qed.

Lemma at_match_quote (s id : string) :
  at_match s = Some id -> is_Some (after "<" s) /\ is_Some (after quote s).
Proof.
  induction s as [|a s IH]; cbn [at_match].
  - destruct (at_here EmptyString) eqn:E; [|done].
    intros _. by apply at_here_quote in E.
  - destruct (at_here (String a s)) eqn:E.
    + intros _. by apply at_here_quote in E.
    + intros H. destruct (IH H) as [H1 H2].
      cbn [after]. split.
      * by destruct (Ascii.eqb a "<").
      * by destruct (Ascii.eqb a quote).
Qed.

Lemma at_match_none (s : string) :
  after "<" s = None \/ after quote s = None -> at_match s = None.
Proof.
  intros H. destruct (at_match s) eqn:E; [|done].
  apply at_match_quote in E as [[? H1] [? H2]].
  destruct H as [H|H]; congruence.
Qed.

Lemma append_assoc (a b c : string) : (a ++ b) ++ c = a ++ b ++ c.
Proof.
  induction a as [|x a IH]; [done|].
  change (String x ((a ++ b) ++ c) = String x (a ++ b ++ c)). by rewrite IH.
Qed.

Lemma at_match_mention (id rest : string) :
  id <> EmptyString -> after quote id = None ->
  at_match (mention id ++ rest) = Some id.
Proof.
  intros Hid Hq.
  assert (at_here (mention id ++ rest) = Some id) as H.
  { unfold at_here, mention.
    rewrite !append_assoc.
    rewrite prefix_app, drop_chars_app.
    change (at_close ++ rest) with (String quote ("/>" ++ rest)).
    rewrite (until_app quote id _ Hq).
    destruct (String.eqb_spec id EmptyString) as [->|_]; [done|].
    rewrite drop_chars_app.
    change (String quote ("/>" ++ rest)) with (at_close ++ rest).
    by rewrite prefix_app. }
  destruct (mention id ++ rest); cbn [at_match]; by rewrite H.
Qed.

(** X1.  What [parseUserId] returns never contains a colon, whatever the
    input: a mention, a qualified identity or any other text. *)
Theorem parseUserId_no_colon (input : string) : after ":" (parseUserId input) = None.
Proof.
  unfold parseUserId.
  destruct (String.eqb input EmptyString); [done|].
  cbv zeta.
  destruct (after ":" (default input (at_match input))) eqn:E; [apply after_until|exact E].
Qed.

(** X2.  A mention stands for the identity it carries: a text that begins
    with the mention of a non-empty [id] is parsed as [id] alone would be,
    whatever follows the mention. *)
Theorem parseUserId_mention (id rest : string) :
  id <> EmptyString -> after quote id = None ->
  parseUserId (mention id ++ rest) = parseUserId id.
Proof.
  intros Hid Hq. unfold parseUserId.
  rewrite (at_match_mention id rest Hid Hq).
  rewrite (at_match_none id) by by right.
  destruct (String.eqb_spec id EmptyString) as [->|_]; [done|].
  by destruct (String.eqb_spec (mention id ++ rest) EmptyString).
Qed.

Lemma parseUserId_mention_witness :
  parseUserId (mention "onebot:10001" ++ " spam") = parseUserId "onebot:10001".
Proof. apply parseUserId_mention; [discriminate|reflexivity]. Defined.

(** X3.  An identity without colon or angle bracket is returned as it is,
    and with a platform prefix, [platform:id], it is returned without the
    prefix. *)
Theorem parseUserId_plain (platform id : string) :
  after "<" id = None -> after ":" id = None ->
  after "<" platform = None -> after ":" platform = None ->
  parseUserId id = id /\ parseUserId (platform ++ ":" ++ id) = id.
Proof.
  intros H1 H2 H3 H4. unfold parseUserId. split.
  - destruct (String.eqb_spec id EmptyString) as [->|_]; [done|].
    rewrite (at_match_none id) by by left.
    cbn [default]. by rewrite H2.
  - destruct (String.eqb_spec (platform ++ ":" ++ id) EmptyString) as [E|_].
    { by destruct platform. }
    rewrite (at_match_none (platform ++ ":" ++ id)).
    + cbn [default]. rewrite (after_app _ _ _ H4).
      cbn. by apply until_all.
    + left. rewrite (after_app _ _ _ H3). exact H1.
Qed.

Lemma parseUserId_plain_witness :
  parseUserId "10001" = "10001" /\ parseUserId ("onebot" ++ ":" ++ "10001") = "10001".
Proof. apply parseUserId_plain; reflexivity. Defined.

(** ** What a run records, writes and lets through *)

Section Accounts.

Context (env : Env).

Lemma run_events {A : Type} (P : Op -> Prop) (p : Prog A) :
  calls P p ->
  forall w, exists evs,
    trace (run env p w).2 = (trace w ++ evs)%list /\
    Forall (fun ev => P (call ev)) evs.
Proof.
  induction 1 as [a|e|k Hk IH|o k Ho Hk IH]; intros w; cbn [run].
  - exists []. by rewrite app_nil_r.
  - exists []. by rewrite app_nil_r.
  - apply IH.
  - unfold perform. destruct (answer env o w) as [r t].
    destruct (IH r (record o (failure_of r) t w)) as (evs & -> & Hevs).
    exists (mkEvent o (failure_of r) :: evs). split.
    + cbn [record trace]. by rewrite <- app_assoc.
    + by constructor.
Qed.

Lemma run_lock {A : Type} (P : Op -> Prop) (p : Prog A) (w : World) :
  calls P p -> isProcessingQueue (run env p w).2 = isProcessingQueue w.
Proof.
  intros Hp.
  apply (run_keeps env P (fun w' => isProcessingQueue w' = isProcessingQueue w) p); auto.
  intros o w' _ <-. apply perform_lock.
Qed.

Lemma perform_reads_only (o : Op) (w : World) :
  reads_only o -> db (perform env o w).2 = db w.
Proof.
  intros Ho. rewrite perform_db. unfold answer.
  destruct o; try contradiction; try reflexivity;
    cbn [store_step]; by destruct (store_fault env (now w)).
Qed.

Lemma run_reads_only {A : Type} (p : Prog A) (w : World) :
  calls reads_only p -> db (run env p w).2 = db w.
Proof.
  intros Hp.
  apply (run_keeps env reads_only (fun w' => db w' = db w) p); auto.
  intros o w' Ho <-. by apply perform_reads_only.
Qed.

Lemma calls_weaken {A : Type} (P Q : Op -> Prop) (p : Prog A) :
  (forall o, P o -> Q o) -> calls P p -> calls Q p.
Proof. intros HPQ. induction 1; constructor; auto. Qed.

Lemma settles_bind {A B : Type} (p : Prog A) (f : A -> Prog B) :
  settles p -> (forall a, settles (f a)) -> settles (p ≫= f).
Proof.
  intros Hp Hf. induction Hp as [a|k Hk IH|b k Hk IH|o k Ho Hk IH|o k Hk IH].
  - apply Hf.
  - apply settles_read, IH.
  - apply settles_write, IH.
  - apply settles_await; [exact Ho|]. intros a. apply IH.
  - apply settles_handled. intros r. apply IH.
Qed.

Lemma settles_try_catch {A : Type} (p : Prog A) (h : JsError -> Prog A) :
  (forall e, settles (h e)) -> settles (try_catch p h).
Proof.
  intros Hh. induction p as [a|e|k IH|b k IH|o k IH]; cbn [try_catch].
  - constructor.
  - apply Hh.
  - apply settles_read, IH.
  - apply settles_write, IH.
  - apply settles_handled, IH.
Qed.

Lemma settles_one (o : Op) : dependable o -> settles (await o).
Proof. intros Ho. apply settles_await; [exact Ho|]. intros a. constructor. Qed.

Lemma dependable_resolves (o : Op) (w : World) :
  (forall n, store_fault env n = None) ->
  dependable o -> exists a, (perform env o w).1 = Resolved a.
Proof.
  intros NF Ho. unfold perform, answer.
  destruct o; try contradiction; rewrite ?NF; cbn; by eexists.
Qed.

Lemma run_settles {A : Type} (p : Prog A) :
  (forall n, store_fault env n = None) ->
  settles p -> forall w, exists a w', run env p w = (Resolved a, w').
Proof.
  intros NF. induction 1 as [a|k Hk IH|b k Hk IH|o k Ho Hk IH|o k Hk IH]; intros w; cbn [run].
  - by eexists _, _.
  - apply IH.
  - apply IH.
  - destruct (dependable_resolves o w NF Ho) as [a Ha].
    destruct (perform env o w) as [r w1]. cbn [fst] in Ha. subst r. apply IH.
  - destruct (perform env o w) as [r w1]. apply IH.
Qed.

End Accounts.

Ltac settles_step :=
  match goal with
  | |- settles (_ ≫= _) => apply settles_bind
  | |- settles (bind _ _) => apply settles_bind
  | |- settles (try_catch _ _) => apply settles_try_catch
  | |- settles (await ?o) => apply (settles_one o); exact I
  | |- settles (Ret _) => apply settles_ret
  | |- settles (if ?b then _ else _) => destruct b
  | |- settles (match ?x with _ => _ end) => destruct x
  | |- forall _, _ => intros
  end.

(** ** The decision on one member, in every environment *)

Section Decision.

Context (toLowerCase : string -> string) (config : PluginConfig).

Lemma kick_attempts_about (guild user_id displayName : string) (fuel : nat) (i : Z) :
  calls (fun o => reads_only o /\ only_about guild user_id o)
    (kick_attempts config guild user_id displayName fuel i).
Proof.
  revert i. induction fuel as [|fuel IH]; intros i; cbn [kick_attempts].
  - constructor.
  - repeat calls_step; try (split; exact I); try done.
Qed.

Lemma checkAndHandleUser_about (session : Session) (user_id : string) :
  calls (fun o => reads_only o /\
                  forall guild, present (guildId session) = Some guild ->
                                only_about guild user_id o)
    (checkAndHandleUser toLowerCase config session user_id).
Proof.
  unfold checkAndHandleUser, isUserAdmin.
  destruct (present (guildId session)) as [guild|]; [|constructor].
  eapply (calls_weaken (fun o => reads_only o /\ only_about guild user_id o)).
  { intros o [H1 H2]. split; [exact H1|]. by intros g [= <-]. }
  unfold enforce.
  repeat calls_step; try (split; exact I); try done; apply kick_attempts_about.
Qed.


Lemma kick_attempts_settles (guild user_id displayName : string) (fuel : nat) (i : Z) :
  settles (kick_attempts config guild user_id displayName fuel i).
Proof.
  revert i. induction fuel as [|fuel IH]; intros i; cbn [kick_attempts].
  - constructor.
  - repeat settles_step; try done.
Qed.

Lemma checkAndHandleUser_settles (session : Session) (user_id : string) :
  settles (checkAndHandleUser toLowerCase config session user_id).
Proof.
  unfold checkAndHandleUser, isUserAdmin, enforce.
  repeat settles_step; try done; apply kick_attempts_settles.
Qed.

(** X5.  Examining a member writes nothing: the store and the lock are
    after [checkAndHandleUser] what they were before, in every environment. *)
Theorem decision_writes_nothing (session : Session) (user_id : string)
    (env : Env) (w : World) :
  let w' := (run env (checkAndHandleUser toLowerCase config session user_id) w).2 in
  db w' = db w /\ isProcessingQueue w' = isProcessingQueue w.
Proof.
  intros w'. subst w'.
  pose proof (checkAndHandleUser_about session user_id) as Hc.
  split.
  - apply run_reads_only. revert Hc. apply calls_weaken. tauto.
  - by apply (run_lock env _ _ w Hc).
Qed.

(** X6.  Examining a member concerns nobody else: whatever the environment,
    every row read, every member looked up and every removal attempted by
    [checkAndHandleUser] is for the examined identity in the guild of the
    session; without a guild it makes no call at all. *)
Theorem decision_concerns_one_member (session : Session) (user_id : string)
    (env : Env) (w : World) :
  exists evs,
    trace (run env (checkAndHandleUser toLowerCase config session user_id) w).2
      = (trace w ++ evs)%list /\
    match present (guildId session) with
    | Some guild => Forall (fun ev => only_about guild user_id (call ev)) evs
    | None => evs = []
    end.
Proof.
  destruct (present (guildId session)) as [guild|] eqn:Hg.
  - destruct (run_events env _ _ (checkAndHandleUser_about session user_id) w)
      as (evs & Ht & Hevs).
    exists evs. split; [exact Ht|].
    eapply Forall_impl; [exact Hevs|]. intros ev [_ H]. by apply H.
  - exists []. unfold checkAndHandleUser. rewrite Hg. cbn. by rewrite app_nil_r.
Qed.

(** X7.  While the store answers, [checkAndHandleUser] never rejects: a
    failing lookup, message or removal is handled inside. *)
Theorem decision_never_rejects (session : Session) (user_id : string)
    (env : Env) (w : World) :
  (forall n, store_fault env n = None) ->
  exists kicked w',
    run env (checkAndHandleUser toLowerCase config session user_id) w = (Resolved kicked, w').
Proof.
  intros NF. apply run_settles; [exact NF|]. apply checkAndHandleUser_settles.
Qed.

End Decision.

Lemma decision_never_rejects_witness :
  exists kicked w',
    run (rejecting forbidden) (checkAndHandleUser (fun s => s) (settings both []) in_guild "alice")
      alice_blocked = (Resolved kicked, w').
Proof. apply decision_never_rejects. intros n. reflexivity. Defined.

Section Enforcement.

Context (toLowerCase : string -> string) (config : PluginConfig).

Ltac unchanged :=
  let H := fresh in
  intros H; exfalso; apply H; unfold option_list;
  cbn [option_rect List.length Nat.ltb Nat.leb run snd];
  rewrite ?enforcements_record; cbn [enforcement]; rewrite ?app_nil_r; reflexivity.

Lemma enforced_only_if (session : Session) (user_id : string)
    (env : Env) (w : World) :
  (enforcements (run env (checkAndHandleUser toLowerCase config session user_id) w).2
   <> enforcements w) ->
  exists guild entry,
    present (guildId session) = Some guild /\
    mode_of config guild w <> off /\
    (user_id ∉ default [] (protectedUsers config)) /\
    blacklist_whitelist (db w) !! user_id = None /\
    blacklist_users (db w) !! user_id = Some entry /\
    disabled entry = false.
Proof.
  unfold checkAndHandleUser.
  destruct (present (guildId session)) as [guild|]; [|unchanged].
  rewrite run_bind. cbn [run await]. unfold perform at 1. cbn [answer].
  destruct (store_fault env (now w)) as [e|]; [unchanged|].
  cbn [store_step failure_of run]. rewrite first_value_row_of.
  fold (mode_of config guild w).
  destruct (decide (mode_of config guild w = off)) as [|Hmode]; [unchanged|].
  destruct (bool_decide (user_id ∈ default [] (protectedUsers config))) eqn:Hp; [unchanged|].
  apply bool_decide_eq_false in Hp.
  rewrite run_bind. cbn [run await]. unfold perform at 1. cbn [answer].
  match goal with |- context [store_fault env ?n] => destruct (store_fault env n) end;
    [unchanged|].
  cbn [store_step failure_of run db record].
  destruct (blacklist_whitelist (db w) !! user_id) eqn:Hwl; [unchanged|].
  unfold option_list. cbn [option_rect List.length Nat.ltb Nat.leb].
  rewrite run_bind. cbn [run await]. unfold perform at 1. cbn [answer].
  match goal with |- context [store_fault env ?n] => destruct (store_fault env n) end;
    [unchanged|].
  cbn [store_step failure_of run db record]. unfold active_entries.
  destruct (blacklist_users (db w) !! user_id) as [entry|] eqn:Hentry; [|unchanged].
  destruct (disabled entry) eqn:Hdis; [unchanged|].
  intros _. by exists guild, entry.
Qed.


(** X8.  [checkAndHandleUser] sends a message or attempts a removal only in
    a guild whose mode is not [off], for an identity that is neither
    protected nor exempt and has a block entry that is not disabled. *)
Theorem enforcement_requires (session : Session) (user_id : string)
    (env : Env) (w : World) :
  (enforcements (run env (checkAndHandleUser toLowerCase config session user_id) w).2
   <> enforcements w) ->
  exists guild entry,
    present (guildId session) = Some guild /\
    mode_of config guild w <> off /\
    (user_id ∉ default [] (protectedUsers config)) /\
    blacklist_whitelist (db w) !! user_id = None /\
    blacklist_users (db w) !! user_id = Some entry /\
    disabled entry = false.
Proof. apply enforced_only_if. Qed.

Lemma has_admin_role_spec (m : Member) :
  has_admin_role toLowerCase config m = true <->
  exists role allowed,
    role ∈ roles m /\ allowed ∈ default ["owner"; "admin"] (adminRoles config) /\
    toLowerCase role = toLowerCase allowed.
Proof.
  unfold has_admin_role. rewrite existsb_exists. split.
  - intros (r & Hr & Hin). apply bool_decide_eq_true in Hin.
    apply in_map_iff in Hr as (role & <- & Hrole).
    apply list_elem_of_In, in_map_iff in Hin as (allowed & Heq & Hallowed).
    exists role, allowed. by rewrite !list_elem_of_In.
  - intros (role & allowed & Hrole & Hallowed & Heq).
    exists (toLowerCase role). split.
    + apply in_map. by apply list_elem_of_In.
    + apply bool_decide_eq_true, list_elem_of_In. rewrite Heq.
      apply in_map. by apply list_elem_of_In.
Qed.

(** X4.  [isUserAdmin] never rejects and writes nothing; it answers [true]
    exactly when the session has a guild, the lookup of the member succeeds
    and one of the member's roles equals, once both are in lower case, one of
    the configured admin roles (by default [owner] and [admin]). *)
Theorem isUserAdmin_answers (session : Session) (user_id : string)
    (env : Env) (w : World) :
  exists admin w',
    run env (isUserAdmin toLowerCase session config user_id) w = (Resolved admin, w') /\
    db w' = db w /\
    (admin = true <->
     exists guild m role allowed,
       present (guildId session) = Some guild /\
       guild_member env (now w) guild user_id = Resolved (Some m) /\
       role ∈ roles m /\ allowed ∈ default ["owner"; "admin"] (adminRoles config) /\
       toLowerCase role = toLowerCase allowed).
Proof.
  unfold isUserAdmin.
  destruct (present (guildId session)) as [guild|].
  2: { exists false, w. split; [reflexivity|]. split; [reflexivity|].
       split; [discriminate|]. by intros (? & ? & ? & ? & ? & _). }
  rewrite run_try_catch, run_bind. cbn [run await]. unfold perform. cbn [answer].
  destruct (guild_member env (now w) guild user_id) as [[m|]|e] eqn:Hm;
    cbn [failure_of run]; eexists _, _; (split; [reflexivity|]); (split; [reflexivity|]).
  - rewrite has_admin_role_spec. split.
    + intros (role & allowed & H). by exists guild, m, role, allowed.
    + intros (g & m' & role & allowed & [= <-] & Hm' & H).
      rewrite Hm in Hm'. injection Hm' as <-. by exists role, allowed.
  - split; [discriminate|]. intros (g & m' & ? & ? & [= <-] & Hm' & _). congruence.
  - split; [discriminate|]. intros (g & m' & ? & ? & [= <-] & Hm' & _). congruence.
Qed.

Lemma admin_run (session : Session) (user_id : string)
    (env : Env) (w : World) (guild : string) (m : Member) :
  present (guildId session) = Some guild ->
  (forall n, guild_member env n guild user_id = Resolved (Some m)) ->
  has_admin_role toLowerCase config m = true ->
  exists r w', run env (checkAndHandleUser toLowerCase config session user_id) w = (r, w') /\
    enforcements w' = enforcements w /\
    ((forall n, store_fault env n = None) -> r = Resolved false).
Proof.
  intros Hg Hm Hadmin.
  assert (forall (e : JsError) (n : nat), store_fault env n = Some e ->
          (forall n, store_fault env n = None) -> @Rejected bool e = Resolved false) as Hno.
  { intros e n He NF. rewrite NF in He. discriminate. }
  unfold checkAndHandleUser. rewrite Hg.
  rewrite run_bind. cbn [run await]. unfold perform at 1. cbn [answer].
  destruct (store_fault env (now w)) as [e|] eqn:Hf1.
  { cbn [failure_of run]. eexists _, _. split; [reflexivity|].
    rewrite enforcements_record, app_nil_r. split; [done|by eapply Hno]. }
  cbn [store_step failure_of run].
  match goal with |- context [decide (?mode = off)] => destruct (decide (mode = off)) end.
  { cbn [run]. eexists _, _. split; [reflexivity|].
    by rewrite enforcements_record, app_nil_r. }
  destruct (bool_decide _).
  { cbn [run]. eexists _, _. split; [reflexivity|].
    by rewrite enforcements_record, app_nil_r. }
  rewrite run_bind. cbn [run await]. unfold perform at 1. cbn [answer].
  match goal with |- context [store_fault env ?n] =>
    destruct (store_fault env n) as [e|] eqn:Hf2 end.
  { cbn [failure_of run]. eexists _, _. split; [reflexivity|].
    rewrite !enforcements_record, !app_nil_r. split; [done|by eapply Hno]. }
  cbn [store_step failure_of run].
  destruct (0 <? _)%nat.
  { cbn [run]. eexists _, _. split; [reflexivity|].
    by rewrite !enforcements_record, !app_nil_r. }
  rewrite run_bind. cbn [run await]. unfold perform at 1. cbn [answer].
  match goal with |- context [store_fault env ?n] =>
    destruct (store_fault env n) as [e|] eqn:Hf3 end.
  { cbn [failure_of run]. eexists _, _. split; [reflexivity|].
    rewrite !enforcements_record, !app_nil_r. split; [done|by eapply Hno]. }
  cbn [store_step failure_of run].
  destruct (active_entries _ _) as [|entry ?].
  { cbn [run]. eexists _, _. split; [reflexivity|].
    by rewrite !enforcements_record, !app_nil_r. }
  unfold isUserAdmin. rewrite Hg, run_bind_explicit, run_try_catch, run_bind.
  cbn [run await]. unfold perform. cbn [answer]. rewrite Hm.
  cbn [failure_of run]. rewrite Hadmin. cbn [answer failure_of run].
  eexists _, _. split; [reflexivity|].
  by rewrite !enforcements_record, !app_nil_r.
Qed.

(** X9.  A member whom the platform reports with an admin role is never
    enforced against, blocked or not: no message, no removal, and [false]
    when the store answers. *)
Theorem admin_never_enforced (session : Session) (user_id : string)
    (env : Env) (w : World) (guild : string) (m : Member) :
  present (guildId session) = Some guild ->
  (forall n, guild_member env n guild user_id = Resolved (Some m)) ->
  has_admin_role toLowerCase config m = true ->
  let result := run env (checkAndHandleUser toLowerCase config session user_id) w in
  enforcements result.2 = enforcements w /\
  ((forall n, store_fault env n = None) -> result.1 = Resolved false).
Proof.
  intros Hg Hm Hadmin result. subst result.
  destruct (admin_run session user_id env w guild m Hg Hm Hadmin) as (r & w' & -> & He & Hr).
  by split.
Qed.

End Enforcement.

Lemma enforcement_requires_witness :
  exists guild entry,
    present (guildId in_guild) = Some guild /\
    mode_of (settings both []) guild alice_blocked <> off /\
    ("alice" ∉ default [] (protectedUsers (settings both []))) /\
    blacklist_whitelist (db alice_blocked) !! "alice" = None /\
    blacklist_users (db alice_blocked) !! "alice" = Some entry /\
    disabled entry = false.
Proof.
  apply (enforcement_requires (fun s => s) (settings both []) in_guild "alice" quiet).
  vm_compute. discriminate.
Defined.

Lemma admin_never_enforced_witness :
  let env := {| store_fault := fun _ => None;
                queue_order := fun _ _ => 0;
                post_sync := fun _ _ _ _ => Resolved None;
                post_applications := fun _ _ _ => None;
                guild_member := fun _ _ _ =>
                  Resolved (Some {| nick := "Alice"; name := "alice"; roles := ["Admin"] |});
                kick_member := fun _ _ _ => None;
                session_send := fun _ _ => None;
                random_uuid := fun _ => "fresh-uuid";
                clock := fun _ => 0 |} in
  let lower := fun s : string => if String.eqb s "Admin" then "admin" else s in
  let result := run env (checkAndHandleUser lower (settings both []) in_guild "alice")
                  alice_blocked in
  enforcements result.2 = enforcements alice_blocked /\
  ((forall n, store_fault env n = None) -> result.1 = Resolved false).
Proof.
  intros env lower.
  apply (admin_never_enforced lower (settings both []) in_guild "alice" env alice_blocked
           "g1" {| nick := "Alice"; name := "alice"; roles := ["Admin"] |});
    [reflexivity|intros n; reflexivity|vm_compute; reflexivity].
Defined.

(** ** The budget of removals *)

Lemma removes_none {A : Type} (p : Prog A) : calls no_kick p -> removes_at_most 0 p.
Proof. intros Hp env w. rewrite (run_keeps_kicks env p w Hp). lia. Qed.

Lemma removes_more {A : Type} (n m : nat) (p : Prog A) :
  (n <= m)%nat -> removes_at_most n p -> removes_at_most m p.
Proof. intros Hnm Hp env w. specialize (Hp env w). lia. Qed.

Lemma removes_bind {A B : Type} (n m : nat) (p : Prog A) (f : A -> Prog B) :
  removes_at_most n p -> (forall a, removes_at_most m (f a)) ->
  removes_at_most (n + m) (p ≫= f).
Proof.
  intros Hp Hf env w. rewrite run_bind. specialize (Hp env w).
  destruct (run env p w) as [[a|e] w1]; cbn [snd] in *.
  - specialize (Hf a env w1). lia.
  - lia.
Qed.

Lemma removes_try_catch {A : Type} (n m : nat) (p : Prog A) (h : JsError -> Prog A) :
  removes_at_most n p -> (forall e, removes_at_most m (h e)) ->
  removes_at_most (n + m) (try_catch p h).
Proof.
  intros Hp Hh env w. rewrite run_try_catch. specialize (Hp env w).
  destruct (run env p w) as [[a|e] w1]; cbn [snd] in *.
  - lia.
  - specialize (Hh e env w1). lia.
Qed.

Lemma removes_one (guild user_id : string) :
  removes_at_most 1 (await (KickGuildMember guild user_id)).
Proof.
  intros env w. cbn [run await]. unfold perform. cbn [answer].
  destruct (kick_member env (now w) guild user_id); cbn [unit_result failure_of run snd];
    rewrite kick_outcomes_record, length_app; cbn; lia.
Qed.

Lemma kick_attempts_budget (config : PluginConfig) (guild user_id displayName : string)
    (fuel : nat) (i : Z) :
  removes_at_most fuel (kick_attempts config guild user_id displayName fuel i).
Proof.
  revert i. induction fuel as [|fuel IH]; intros i; cbn [kick_attempts].
  - apply removes_none. constructor.
  - destruct (below i (retryAttempts config));
      [|apply (removes_more 0); [lia|]; apply removes_none; constructor].
    apply (removes_bind 1 fuel).
    + apply (removes_try_catch 1 0).
      * apply (removes_bind 1 0); [apply removes_one|].
        intros _. apply removes_none. repeat calls_step; exact I.
      * intros e. apply removes_none. repeat calls_step; exact I.
    + intros [|]; [apply (removes_more 0); [lia|]; apply removes_none; constructor|apply IH].
Qed.

Lemma checkAndHandleUser_budget (toLowerCase : string -> string) (config : PluginConfig)
    (session : Session) (user_id : string) :
  removes_at_most (rounds (retryAttempts config))
    (checkAndHandleUser toLowerCase config session user_id).
Proof.
  set (n := rounds (retryAttempts config)).
  assert (forall A (p : Prog A), calls no_kick p -> removes_at_most n p) as Hfree.
  { intros A p Hp. apply (removes_more 0); [lia|]. by apply removes_none. }
  assert (forall A B (p : Prog A) (f : A -> Prog B),
            calls no_kick p -> (forall a, removes_at_most n (f a)) ->
            removes_at_most n (p ≫= f)) as Hthen.
  { intros A B p f Hp Hf. apply (removes_bind 0 n); [by apply removes_none|exact Hf]. }
  unfold checkAndHandleUser.
  destruct (present (guildId session)) as [guild|]; [|apply Hfree; constructor].
  apply Hthen; [repeat calls_step; exact I|intros guildSettings].
  destruct (decide _); [apply Hfree; constructor|].
  destruct (bool_decide _); [apply Hfree; constructor|].
  apply Hthen; [repeat calls_step; exact I|intros whitelistEntries].
  destruct (0 <? _)%nat; [apply Hfree; constructor|].
  apply Hthen; [repeat calls_step; exact I|intros [|entry ?]]; [apply Hfree; constructor|].
  apply Hthen; [unfold isUserAdmin; repeat calls_step; exact I|intros [|]].
  { apply Hfree. repeat calls_step; exact I. }
  unfold enforce.
  apply Hthen; [repeat calls_step; exact I|intros _].
  apply Hthen; [repeat calls_step; exact I|intros displayName].
  apply Hthen; [repeat calls_step; exact I|intros _].
  destruct (decide _); [|apply Hfree; constructor].
  replace n with (n + 0)%nat by lia.
  apply (removes_bind n 0); [apply kick_attempts_budget|].
  intros kicked. apply removes_none. repeat calls_step; exact I.
Qed.

(** X11.  [retryAttempts] is any number, and the removals are counted 0, 1,
    2, ... while the count is below it.  So [checkAndHandleUser] attempts no
    more removals than any whole number [n] that is at least [retryAttempts],
    whatever the environment answers: at most 3 with a budget of 3 and also
    with one of 2.5, none with a budget of zero or less. *)
Theorem removals_within_budget (toLowerCase : string -> string) (config : PluginConfig)
    (session : Session) (user_id : string) (env : Env) (w : World) (n : nat) :
  (retryAttempts config <= inject_Z (Z.of_nat n))%Q ->
  (List.length (kick_outcomes
                  (run env (checkAndHandleUser toLowerCase config session user_id) w).2)
   <= List.length (kick_outcomes w) + n)%nat.
Proof.
  intros Hn.
  pose proof (checkAndHandleUser_budget toLowerCase config session user_id env w) as Hb.
  assert (rounds (retryAttempts config) <= n)%nat; [|lia].
  unfold rounds. apply Qceiling_resp_le in Hn. rewrite Qceiling_Z in Hn. lia.
Qed.

Lemma removals_within_budget_witness :
  let config := with_retryAttempts (5 # 2) (settings kick []) in
  let result := run (rejecting forbidden)
                  (checkAndHandleUser (fun s => s) config in_guild "alice") alice_blocked in
  (retryAttempts config <= inject_Z (Z.of_nat 3))%Q /\
  (List.length (kick_outcomes result.2) <= List.length (kick_outcomes alice_blocked) + 3)%nat /\
  List.length (kick_outcomes result.2) = 3%nat.
Proof.
  intros config result.
  assert (retryAttempts config <= inject_Z (Z.of_nat 3))%Q as Hn by (by vm_compute).
  split; [exact Hn|]. split; [|reflexivity].
  exact (removals_within_budget (fun s => s) config in_guild "alice" (rejecting forbidden)
           alice_blocked 3 Hn).
Defined.

(** X10.  In a guild whose mode is [notify], [checkAndHandleUser] attempts no
    removal and never returns [true], whatever the environment answers. *)
Theorem notify_never_removes (toLowerCase : string -> string) (config : PluginConfig)
    (session : Session) (user_id : string) (env : Env) (w : World) (guild : string) :
  present (guildId session) = Some guild ->
  mode_of config guild w = notify ->
  let result := run env (checkAndHandleUser toLowerCase config session user_id) w in
  kick_outcomes result.2 = kick_outcomes w /\ result.1 <> Resolved true.
Proof.
  intros Hg Hmode result.
  assert (kick_outcomes result.2 = kick_outcomes w) as Hk.
  { subst result. unfold checkAndHandleUser. rewrite Hg.
    rewrite run_bind. cbn [run await]. unfold perform. cbn [answer].
    destruct (store_fault env (now w)) as [e|].
    { cbn [failure_of run snd]. by rewrite kick_outcomes_record, app_nil_r. }
    cbn [store_step failure_of run]. rewrite first_value_row_of.
    fold (mode_of config guild w). rewrite Hmode.
    match goal with |- context [run env ?p ?w0] =>
      rewrite (run_keeps_kicks env p w0)
    end.
    - by rewrite kick_outcomes_record, app_nil_r.
    - unfold isUserAdmin, enforce.
      repeat calls_step; try exact I;
        match goal with H : _ \/ _ |- _ => destruct H; discriminate end. }
  split; [exact Hk|].
  subst result.
  destruct (run env (checkAndHandleUser toLowerCase config session user_id) w)
    as [r w'] eqn:Hrun.
  cbn [fst snd] in *. intros ->.
  destruct (kicked_only_if _ _ _ _ _ _ _ Hrun) as (fails & Ho & _).
  rewrite Hk in Ho. apply (f_equal List.length) in Ho.
  rewrite !length_app in Ho. cbn in Ho. lia.
Qed.

Lemma notify_never_removes_witness :
  let result := run quiet (checkAndHandleUser (fun s => s) (settings notify []) in_guild "alice")
                  alice_blocked in
  kick_outcomes result.2 = kick_outcomes alice_blocked /\ result.1 <> Resolved true.
Proof.
  apply (notify_never_removes (fun s => s) (settings notify []) in_guild "alice" quiet
           alice_blocked "g1"); reflexivity.
Defined.

(** ** Synchronisation: what changes, and what never does *)

Lemma upsert_batches_lists {A : Type} (upsert_op : list A -> Op) (fuel i : nat) (rows : list A) :
  (forall l, lists_only (upsert_op l)) ->
  calls lists_only (upsert_batches upsert_op fuel i rows).
Proof.
  intros Hop. revert i. induction fuel as [|fuel IH]; intros i; cbn [upsert_batches].
  - constructor.
  - repeat calls_step; try done.
Qed.

Lemma syncBlacklist_lists (config : PluginConfig) : calls lists_only (syncBlacklist config).
Proof.
  unfold syncBlacklist, sync_attempt, full_replace, incremental, upsert_all.
  repeat calls_step; try exact I; try reflexivity;
    apply upsert_batches_lists; intros; exact I.
Qed.

Lemma perform_lists_only (env : Env) (o : Op) (w : World) :
  lists_only o ->
  queue (perform env o w).2 = queue w /\
  blacklist_guild_settings (db (perform env o w).2) = blacklist_guild_settings (db w) /\
  forall key, key <> "sync_revision" ->
    blacklist_meta (db (perform env o w).2) !! key = blacklist_meta (db w) !! key.
Proof.
  intros Ho. unfold queue. rewrite perform_db. unfold answer.
  destruct o; try contradiction; try done;
    cbn [store_step]; destruct (store_fault env (now w)); try done.
  cbn in Ho. subst key. cbn. repeat split; try done.
  intros key Hkey. by rewrite lookup_insert_ne.
Qed.

Lemma sync_frame (config : PluginConfig) (env : Env) (w : World) :
  let w' := (run env (syncBlacklist config) w).2 in
  queue w' = queue w /\
  blacklist_guild_settings (db w') = blacklist_guild_settings (db w) /\
  instance_uuid w' = instance_uuid w /\
  isProcessingQueue w' = isProcessingQueue w.
Proof.
  intros w'. subst w'.
  pose proof (syncBlacklist_lists config) as Hc.
  assert (queue (run env (syncBlacklist config) w).2 = queue w /\
          blacklist_guild_settings (db (run env (syncBlacklist config) w).2)
            = blacklist_guild_settings (db w) /\
          forall key, key <> "sync_revision" ->
            blacklist_meta (db (run env (syncBlacklist config) w).2) !! key
              = blacklist_meta (db w) !! key) as (Hq & Hs & Hm).
  { apply (run_keeps env lists_only
             (fun w' => queue w' = queue w /\
                        blacklist_guild_settings (db w') = blacklist_guild_settings (db w) /\
                        forall key, key <> "sync_revision" ->
                          blacklist_meta (db w') !! key = blacklist_meta (db w) !! key));
      [|exact Hc|done].
    intros o w1 Ho (H1 & H2 & H3).
    destruct (perform_lists_only env o w1 Ho) as (-> & -> & H4).
    repeat split; try done. intros key Hkey. by rewrite H4, H3. }
  repeat split; try done.
  - by apply Hm.
  - by apply (run_lock env _ _ w Hc).
Qed.

(** X13.  A synchronisation leaves the offline queue, the settings of the
    guilds, the lock and every stored value other than [sync_revision] (so
    the identity of the instance) as they are, in every environment. *)
Theorem sync_leaves_the_rest (config : PluginConfig) (env : Env) (w : World) :
  let w' := (run env (syncBlacklist config) w).2 in
  queue w' = queue w /\
  blacklist_guild_settings (db w') = blacklist_guild_settings (db w) /\
  instance_uuid w' = instance_uuid w /\
  isProcessingQueue w' = isProcessingQueue w.
Proof. apply sync_frame. Qed.




(** X14.  An [incremental] answer is applied as upserts followed by deletions,
    on each list: an identity named in [deletes] ends up absent even if the
    same answer upserts it, every other identity carries what the upserts
    make of its former row.  The stored revision becomes [newRevision], and
    the result is [true] exactly when the answer carries block upserts:
    deletions and changes to the exempt list alone give [false]. *)
Theorem incremental_sync_applies (config : PluginConfig) (env : Env) (w : World)
    (r : SyncResponse) :
  (forall n, store_fault env n = None) ->
  (forall n req inst, post_sync env n req (localRevision w) inst = Resolved (Some r)) ->
  strategy r = "incremental" -> data r <> DataAbsent ->
  let d := changes (data r) in
  exists w',
    run env (syncBlacklist config) w
      = (Resolved (bool_decide (is_Some (non_empty (upserts d)))), w') /\
    (forall id,
       blacklist_users (db w') !! id =
       if decide (id ∈ default [] (deletes d)) then None
       else patched user_id initial_entry overwrite id (default [] (upserts d))
              (blacklist_users (db w) !! id)) /\
    (forall id,
       blacklist_whitelist (db w') !! id =
       if decide (id ∈ default [] (whitelist_deletes d)) then None
       else patched w_user_id initial_exempt overwrite_exempt id
              (default [] (whitelist_upserts d)) (blacklist_whitelist (db w) !! id)) /\
    sync_revision w' = Some (newRevision r).
Proof.
  intros NF Hpost Hs Hd d.
  destruct (syncBlacklist_run env config NF r w Hpost) as (w3 & Hdb & ->).
  { rewrite Hs. discriminate. }
  unfold reconcile. rewrite Hs. cbn [String.eqb Ascii.eqb Bool.eqb].
  destruct (incremental_run env NF (data r) w3 Hd) as (w4 & -> & Hdb4).
  eexists. split; [reflexivity|].
  cbn [db record]. rewrite Hdb4, Hdb. unfold sync_revision. cbn.
  fold d. repeat split.
  - intros id. unfold upsert_users. by rewrite remove_keys_lookup, upsert_lookup.
  - intros id. unfold upsert_whitelist. by rewrite remove_keys_lookup, upsert_lookup.
  - by rewrite lookup_insert.
Qed.

Lemma incremental_sync_applies_witness :
  let d := changes (data delta_response) in
  exists w',
    run (answering delta_response) (syncBlacklist (settings both [])) alice_blocked
      = (Resolved (bool_decide (is_Some (non_empty (upserts d)))), w') /\
    (forall id,
       blacklist_users (db w') !! id =
       if decide (id ∈ default [] (deletes d)) then None
       else patched user_id initial_entry overwrite id (default [] (upserts d))
              (blacklist_users (db alice_blocked) !! id)) /\
    (forall id,
       blacklist_whitelist (db w') !! id =
       if decide (id ∈ default [] (whitelist_deletes d)) then None
       else patched w_user_id initial_exempt overwrite_exempt id
              (default [] (whitelist_upserts d))
              (blacklist_whitelist (db alice_blocked) !! id)) /\
    sync_revision w' = Some (newRevision delta_response).
Proof.
  apply (incremental_sync_applies (settings both []) (answering delta_response)
           alice_blocked delta_response);
    [intros n; reflexivity|intros n req inst; reflexivity|reflexivity|discriminate].
Defined.

(** X15.  A [full_replace] answer without [data] empties both lists and then
    fails: the synchronisation returns [false] and the stored revision stays
    what it was. *)
Theorem full_replace_without_data (config : PluginConfig) (env : Env) (w : World)
    (r : SyncResponse) :
  (forall n, store_fault env n = None) ->
  (forall n req inst, post_sync env n req (localRevision w) inst = Resolved (Some r)) ->
  strategy r = "full_replace" -> data r = DataAbsent ->
  exists w',
    run env (syncBlacklist config) w = (Resolved false, w') /\
    blacklist_users (db w') = ∅ /\
    blacklist_whitelist (db w') = ∅ /\
    sync_revision w' = sync_revision w.
Proof.
  intros NF Hpost Hs Hd.
  destruct (syncBlacklist_run env config NF r w Hpost) as (w3 & Hdb & ->).
  { rewrite Hs. discriminate. }
  unfold reconcile. rewrite Hs, Hd. cbn [String.eqb Ascii.eqb Bool.eqb].
  unfold full_replace. exec NF.
  eexists. split; [reflexivity|].
  cbn [db record]. unfold sync_revision. cbn. by rewrite Hdb.
Qed.

Lemma full_replace_without_data_witness :
  let r := {| strategy := "full_replace"; newRevision := "r5"; data := DataAbsent |} in
  exists w',
    run (answering r) (syncBlacklist (settings both [])) alice_blocked = (Resolved false, w') /\
    blacklist_users (db w') = ∅ /\
    blacklist_whitelist (db w') = ∅ /\
    sync_revision w' = sync_revision alice_blocked.
Proof.
  intros r.
  apply (full_replace_without_data (settings both []) (answering r) alice_blocked r);
    [intros n; reflexivity|intros n req inst; reflexivity|reflexivity|reflexivity].
Defined.

(** ** The offline queue in every environment *)

Lemma processOfflineQueue_any (env : Env) (config : PluginConfig) (w : World) :
  isProcessingQueue w = false ->
  exists r w1,
    run env (try_catch (drain config) (fun err => await (Log error))) (with_lock true w)
      = (r, w1) /\
    run env (processOfflineQueue config) w = (r, with_lock false w1).
Proof.
  intros Hl. rewrite processOfflineQueue_unlocked by exact Hl.
  rewrite run_finally.
  destruct (run env (try_catch (drain config) (fun err => await (Log error)))
              (with_lock true w)) as [r w1].
  by exists r, w1.
Qed.

Lemma deliver_drain_call (config : PluginConfig) (inst : option string)
    (items : list (jval * OfflineRequest)) (item : jval * OfflineRequest) :
  item ∈ items -> calls (drain_call config items) (deliver config inst item).
Proof.
  intros Hin. unfold deliver.
  repeat calls_step; try exact I; try reflexivity.
  exists item.2. by destruct item.
Qed.

Lemma deliver_all_drain_call (config : PluginConfig) (inst : option string)
    (items rest : list (jval * OfflineRequest)) :
  rest ⊆ items -> calls (drain_call config items) (deliver_all config inst rest).
Proof.
  induction rest as [|item rest IH]; intros Hsub; cbn [deliver_all].
  - constructor.
  - apply calls_bind.
    + apply deliver_drain_call, Hsub. by left.
    + intros _. apply IH. intros x Hx. apply Hsub. by right.
Qed.

Lemma posts_record (o : Op) (f : option JsError) (t : Tables) (w : World) :
  posts (trace (record o f t w)) =
  (posts (trace w) ++ match o with PostApplications _ b => [b] | _ => [] end)%list.
Proof. cbn [trace record]. by rewrite posts_snoc. Qed.

Lemma posts_none {A : Type} (p : Prog A) : calls no_post p -> posts_at_most 0 p.
Proof.
  intros Hp env w. rewrite Nat.add_0_r.
  enough (posts (trace (run env p w).2) = posts (trace w)) as -> by lia.
  apply (run_keeps env no_post (fun w' => posts (trace w') = posts (trace w)) p); auto.
  intros o w' Ho Hw'. unfold perform. destruct (answer env o w') as [r t]. cbn [snd].
  rewrite posts_record, Hw'. destruct o; try apply app_nil_r. contradiction.
Qed.

Lemma posts_more {A : Type} (n m : nat) (p : Prog A) :
  (n <= m)%nat -> posts_at_most n p -> posts_at_most m p.
Proof. intros Hnm Hp env w. specialize (Hp env w). lia. Qed.

Lemma posts_bind {A B : Type} (n m : nat) (p : Prog A) (f : A -> Prog B) :
  posts_at_most n p -> (forall a, posts_at_most m (f a)) ->
  posts_at_most (n + m) (p ≫= f).
Proof.
  intros Hp Hf env w. rewrite run_bind. specialize (Hp env w).
  destruct (run env p w) as [[a|e] w1]; cbn [snd] in *.
  - specialize (Hf a env w1). lia.
  - lia.
Qed.

Lemma posts_try_catch {A : Type} (n m : nat) (p : Prog A) (h : JsError -> Prog A) :
  posts_at_most n p -> (forall e, posts_at_most m (h e)) ->
  posts_at_most (n + m) (try_catch p h).
Proof.
  intros Hp Hh env w. rewrite run_try_catch. specialize (Hp env w).
  destruct (run env p w) as [[a|e] w1]; cbn [snd] in *.
  - lia.
  - specialize (Hh e env w1). lia.
Qed.

Lemma posts_one (req : Request) (body : obj) :
  posts_at_most 1 (await (PostApplications req body)).
Proof.
  intros env w. cbn [run await]. unfold perform. cbn [answer].
  destruct (post_applications env (now w) req body); cbn [unit_result failure_of run snd];
    rewrite posts_record, length_app; cbn; lia.
Qed.

Lemma deliver_posts (config : PluginConfig) (inst : option string)
    (item : jval * OfflineRequest) :
  posts_at_most 1 (deliver config inst item).
Proof.
  unfold deliver. destruct (5 <? retryCount item.2).
  - apply (posts_more 0); [lia|]. apply posts_none. repeat calls_step; exact I.
  - apply (posts_try_catch 1 0).
    + apply (posts_bind 1 0); [apply posts_one|].
      intros _. apply posts_none. repeat calls_step; exact I.
    + intros e. apply posts_none. repeat calls_step; exact I.
Qed.

Lemma deliver_all_posts_bound (config : PluginConfig) (inst : option string)
    (items : list (jval * OfflineRequest)) :
  posts_at_most (List.length items) (deliver_all config inst items).
Proof.
  induction items as [|item items IH]; cbn [deliver_all List.length].
  - apply posts_none. constructor.
  - apply (posts_bind 1 (List.length items)); [apply deliver_posts|]. intros _. exact IH.
Qed.

(** What is left of a drain once the queue has been read (or not). *)
Lemma drain_after_read (env : Env) (config : PluginConfig) (w : World) :
  exists (p : Prog unit) (w1 : World),
    run env (try_catch (drain config) (fun err => await (Log error))) w = run env p w1 /\
    calls (drain_call config (fetched env w)) p /\
    posts_at_most 10 p /\
    db w1 = db w /\
    (exists ev, trace w1 = (trace w ++ [ev])%list /\ call ev = QueueGet 10).
Proof.
  unfold drain. rewrite run_try_catch, run_bind. cbn [run await].
  unfold perform at 1. cbn [answer].
  destruct (store_fault env (now w)) as [e|].
  - cbn [failure_of run].
    exists (await (Log error)), (record (QueueGet 10) (Some e) (db w) w).
    split; [reflexivity|]. split; [apply (calls_one _ (Log error)); exact I|].
    split; [apply (posts_more 0); [lia|]; apply posts_none, (calls_one _ (Log error)); exact I|].
    split; [reflexivity|]. by eexists.
  - cbn [store_step failure_of run]. fold (queue w). fold (fetched env w).
    set (items := fetched env w).
    exists (try_catch
              (match items with
               | [] => Ret tt
               | _ :: _ =>
                   instanceMeta ← await (MetaGet "instance_uuid");
                   await (Log info);;
                   deliver_all config (first_value instanceMeta) items
               end) (fun err => await (Log error))),
      (record (QueueGet 10) None (db w) w).
    split; [by rewrite run_try_catch|].
    assert (List.length items <= 10)%nat as Hlen.
    { subst items. unfold fetched, oldest. rewrite length_take. lia. }
    split; [|split; [|split; [reflexivity|by eexists]]].
    + apply calls_try_catch; [|intros; apply (calls_one _ (Log error)); exact I].
      destruct items as [|item rest] eqn:Hitems; [constructor|].
      rewrite <- Hitems.
      repeat calls_step; try exact I. by apply deliver_all_drain_call.
    + replace 10%nat with (10 + 0)%nat by lia.
      apply posts_try_catch;
        [|intros; apply posts_none, (calls_one _ (Log error)); exact I].
      destruct items as [|item rest] eqn:Hitems; [apply (posts_more 0); [lia|]; apply posts_none; constructor|].
      rewrite <- Hitems in *.
      replace 10%nat with (0 + (0 + 10))%nat by lia.
      apply posts_bind; [apply posts_none, (calls_one _ (MetaGet _)); exact I|intros meta].
      apply posts_bind; [apply posts_none, (calls_one _ (Log info)); exact I|intros _].
      apply (posts_more (List.length items)); [exact Hlen|apply deliver_all_posts_bound].
Qed.

Lemma set_retryCount_twice (n m : Z) (r : OfflineRequest) :
  set_retryCount n (set_retryCount m r) = set_retryCount n r.
Proof. reflexivity. Qed.

Lemma perform_drain_call (env : Env) (config : PluginConfig)
    (items : list (jval * OfflineRequest)) (w0 : World) (o : Op) (w : World) :
  (forall id row, (id, row) ∈ items -> queue w0 !! id = Some row) ->
  drain_call config items o ->
  drained (queue w0) (queue w) ->
  drained (queue w0) (queue (perform env o w).2) /\
  with_queue (fun _ => ∅) (db (perform env o w).2) = with_queue (fun _ => ∅) (db w).
Proof.
  intros Hitems Ho Hd. unfold queue in *. rewrite perform_db. unfold answer.
  destruct o; try contradiction; try done;
    cbn [store_step]; destruct (store_fault env (now w)); try done.
  - (* remove *) cbn [snd]. split; [|done]. intros k r'. cbn.
    intros Hk. apply lookup_delete_Some in Hk as [_ Hk]. by apply Hd.
  - (* set *) cbn [snd]. split; [|done]. intros k r'. cbn.
    destruct Ho as (row & Hrow & ->).
    destruct (decide (id = k)) as [<-|Hne].
    + rewrite lookup_alter_eq. intros Hk.
      destruct (blacklist_request_queue (db w) !! id) as [r1|] eqn:Hr1; [|done].
      injection Hk as <-.
      destruct (Hd id r1 Hr1) as (r & Hr & Hcase).
      exists r. split; [exact Hr|]. right.
      rewrite (Hitems id row Hrow) in Hr. injection Hr as ->.
      by destruct Hcase as [->| ->].
    + rewrite lookup_alter_ne by done. apply Hd.
Qed.

Lemma drain_frame (config : PluginConfig) (env : Env) (w : World) :
  let w' := (run env (processOfflineQueue config) w).2 in
  drained (queue w) (queue w') /\
  blacklist_users (db w') = blacklist_users (db w) /\
  blacklist_whitelist (db w') = blacklist_whitelist (db w) /\
  blacklist_meta (db w') = blacklist_meta (db w) /\
  blacklist_guild_settings (db w') = blacklist_guild_settings (db w).
Proof.
  intros w'. subst w'.
  assert (drained (queue w) (queue w)) as Hrefl.
  { intros id r Hr. exists r. by split; [|left]. }
  destruct (isProcessingQueue w) eqn:Hl.
  { unfold processOfflineQueue. cbn [run]. by rewrite Hl. }
  destruct (processOfflineQueue_any env config w Hl) as (r & w1 & Hr & ->).
  destruct (drain_after_read env config (with_lock true w)) as (p & w2 & Hp & Hc & _ & Hdb & _).
  rewrite Hp in Hr. cbn [snd].
  change (queue (with_lock false w1)) with (queue w1).
  change (db (with_lock false w1)) with (db w1).
  change (fetched env (with_lock true w)) with (fetched env w) in Hc.
  change (db (with_lock true w)) with (db w) in Hdb.
  assert (drained (queue w) (queue (run env p w2).2) /\
          with_queue (fun _ => ∅) (db (run env p w2).2) = with_queue (fun _ => ∅) (db w))
    as [Hq Hrest].
  { apply (run_keeps env (drain_call config (fetched env w))
             (fun w' => drained (queue w) (queue w') /\
                        with_queue (fun _ => ∅) (db w') = with_queue (fun _ => ∅) (db w)));
      [|exact Hc|].
    - intros o w3 Ho [H1 H2].
      destruct (perform_drain_call env config (fetched env w) w o w3) as [H3 H4];
        [apply oldest_lookup|exact Ho|exact H1|].
      split; [exact H3|]. by rewrite H4.
    - unfold queue. by rewrite Hdb. }
  rewrite Hr in Hq, Hrest. cbn [snd] in Hq, Hrest.
  split; [exact Hq|].
  unfold with_queue in Hrest. by injection Hrest.
Qed.

(** X17.  A drain only ever shrinks the queue: whatever the environment
    answers, no request is added, a request that is left keeps its type, body
    and creation time and has at most one more retry counted, and the block
    list, the exempt list, the stored values and the settings of the guilds
    are not written. *)
Theorem drain_only_shrinks (config : PluginConfig) (env : Env) (w : World) :
  let w' := (run env (processOfflineQueue config) w).2 in
  drained (queue w) (queue w') /\
  blacklist_users (db w') = blacklist_users (db w) /\
  blacklist_whitelist (db w') = blacklist_whitelist (db w) /\
  blacklist_meta (db w') = blacklist_meta (db w) /\
  blacklist_guild_settings (db w') = blacklist_guild_settings (db w).
Proof. apply drain_frame. Qed.

Lemma requests_posts (evs : list Event) : List.length (requests evs) = List.length (posts evs).
Proof.
  induction evs as [|ev evs IH]; [done|].
  unfold requests, posts in *. cbn [omap list_omap]. destruct (call ev); cbn; auto.
Qed.

Lemma requests_all (config : PluginConfig) (items : list (jval * OfflineRequest))
    (evs : list Event) :
  Forall (fun ev => drain_call config items (call ev)) evs ->
  Forall (eq (retry_request config)) (requests evs).
Proof.
  induction 1 as [|ev evs Hev _ IH]; [constructor|].
  unfold requests in *. cbn [omap list_omap].
  destruct (call ev); cbn; auto.
Qed.

Lemma drain_events (config : PluginConfig) (env : Env) (w : World) :
  exists evs,
    trace (run env (processOfflineQueue config) w).2 = (trace w ++ evs)%list /\
    Forall (eq {| url := remoteApiUrl config ++ "/applications";
                  authorization := "Bearer " ++ apiToken config;
                  timeout := Some 5000 |}) (requests evs) /\
    (List.length (requests evs) <= 10)%nat.
Proof.
  destruct (isProcessingQueue w) eqn:Hl.
  { exists []. unfold processOfflineQueue. cbn [run]. rewrite Hl. cbn.
    rewrite app_nil_r. repeat split; [constructor|lia]. }
  destruct (processOfflineQueue_any env config w Hl) as (r & w1 & Hr & ->).
  destruct (drain_after_read env config (with_lock true w))
    as (p & w2 & Hp & Hc & Hn & _ & ev & Hev & Hcall).
  rewrite Hp in Hr.
  destruct (run_events env _ p Hc w2) as (evs & Ht & Hevs).
  specialize (Hn env w2). rewrite Hr in Ht, Hn. cbn [snd with_lock trace] in *.
  exists (ev :: evs). split; [|split].
  - rewrite Ht, Hev. cbn. by rewrite <- app_assoc.
  - unfold requests. cbn [omap list_omap]. rewrite Hcall.
    eapply requests_all, Hevs.
  - rewrite Ht, Hev in Hn. unfold posts in Hn. rewrite !omap_app, !length_app in Hn.
    rewrite requests_posts. unfold posts. cbn [omap list_omap] in *. rewrite Hcall in *.
    cbn in Hn. lia.
Qed.

(** X18.  Whatever the environment answers and whatever the queued requests
    are ([ADD], [REMOVE] or [CANCEL]), a drain posts at most ten bodies, each
    to [remoteApiUrl + "/applications"] with the token of the configuration
    and a timeout of 5000 ms. *)
Theorem drain_posts_bounded (config : PluginConfig) (env : Env) (w : World) :
  exists evs,
    trace (run env (processOfflineQueue config) w).2 = (trace w ++ evs)%list /\
    Forall (eq {| url := remoteApiUrl config ++ "/applications";
                  authorization := "Bearer " ++ apiToken config;
                  timeout := Some 5000 |}) (requests evs) /\
    (List.length (requests evs) <= 10)%nat.
Proof. apply drain_events. Qed.

(** ** Queueing a request *)

Lemma enqueue_run (env : Env) (kind : RequestType) (body : obj) (id : jval) (w : World) :
  exists r w',
    run env
      (createdAt ← await NewDate;
       await (QueueCreate id
                {| type := kind; payload := <["requestId" := id]> body;
                   createdAt := createdAt; retryCount := 0 |});;
       Ret id) w = (r, w') /\
    match r with
    | Rejected _ => queue w' = queue w
    | Resolved id' =>
        id' = id /\ queue w !! id = None /\
        exists created,
          queue w' = <[id := {| type := kind; payload := <["requestId" := id]> body;
                                createdAt := created; retryCount := 0 |}]> (queue w)
    end.
Proof.
  rewrite run_bind. cbn [run await]. unfold perform at 1. cbn [answer failure_of run].
  rewrite run_bind. cbn [run await]. unfold perform at 1. cbn [answer].
  match goal with |- context [store_fault env ?n] => destruct (store_fault env n) as [e|] end.
  { cbn [failure_of run]. by eexists _, _. }
  cbn [store_step db record]. fold (queue w).
  destruct (queue w !! id) eqn:Hq.
  { cbn [failure_of run]. by eexists _, _. }
  cbn [failure_of run]. eexists _, _. split; [reflexivity|].
  split; [reflexivity|]. split; [reflexivity|]. by eexists.
Qed.

Lemma queueRequest_run (env : Env) (kind : RequestType) (body : obj) (w : World) :
  exists r w',
    run env (queueRequest kind body) w = (r, w') /\
    match r with
    | Rejected _ => queue w' = queue w
    | Resolved id =>
        queue w !! id = None /\
        (exists created,
           queue w' = <[id := {| type := kind; payload := <["requestId" := id]> body;
                                 createdAt := created; retryCount := 0 |}]> (queue w)) /\
        match body !! "requestId" with
        | Some v => if truthy v then id = v else id = JStr (random_uuid env (now w))
        | None => id = JStr (random_uuid env (now w))
        end
    end.
Proof.
  unfold queueRequest. rewrite run_bind.
  assert (forall id w1, queue w1 = queue w ->
            match body !! "requestId" with
            | Some v => if truthy v then id = v else id = JStr (random_uuid env (now w))
            | None => id = JStr (random_uuid env (now w))
            end ->
            exists r w',
              run env
                (createdAt ← await NewDate;
                 await (QueueCreate id
                          {| type := kind; payload := <["requestId" := id]> body;
                             createdAt := createdAt; retryCount := 0 |});;
                 Ret id) w1 = (r, w') /\
              match r with
              | Rejected _ => queue w' = queue w
              | Resolved id =>
                  queue w !! id = None /\
                  (exists created,
                     queue w' = <[id := {| type := kind; payload := <["requestId" := id]> body;
                                           createdAt := created; retryCount := 0 |}]> (queue w)) /\
                  match body !! "requestId" with
                  | Some v => if truthy v then id = v
                              else id = JStr (random_uuid env (now w))
                  | None => id = JStr (random_uuid env (now w))
                  end
              end) as Htail.
  { intros id w1 Hq Hid.
    destruct (enqueue_run env kind body id w1) as (r & w' & Hr & Hcase).
    exists r, w'. split; [exact Hr|].
    destruct r as [id'|e]; [|by rewrite Hcase].
    destruct Hcase as (-> & Hnone & created & Hins).
    rewrite Hq in Hnone, Hins. split; [exact Hnone|]. split; [by exists created|exact Hid]. }
  destruct (body !! "requestId") as [v|] eqn:Hv; [destruct (truthy v) eqn:Ht|].
  - cbn [run]. by apply Htail.
  - rewrite run_bind. cbn [run await]. unfold perform. cbn [answer failure_of run].
    by apply Htail.
  - rewrite run_bind. cbn [run await]. unfold perform. cbn [answer failure_of run].
    by apply Htail.
Qed.

(** X16.  [queueRequest] either rejects and leaves the queue as it was, or
    adds exactly one request under a key that was free: the request has the
    given type, no retry counted and the body with [requestId] set to its
    key, the key being the [requestId] of the body when that is truthy and a
    fresh UUID otherwise; the key is what is returned. *)
Theorem queueRequest_outcome (env : Env) (kind : RequestType) (body : obj) (w : World) :
  let result := run env (queueRequest kind body) w in
  match result.1 with
  | Rejected _ => queue result.2 = queue w
  | Resolved id =>
      queue w !! id = None /\
      (exists created,
         queue result.2 =
         <[id := {| type := kind; payload := <["requestId" := id]> body;
                    createdAt := created; retryCount := 0 |}]> (queue w)) /\
      match body !! "requestId" with
      | Some v => if truthy v then id = v else id = JStr (random_uuid env (now w))
      | None => id = JStr (random_uuid env (now w))
      end
  end.
Proof.
  intros result. subst result.
  destruct (queueRequest_run env kind body w) as (r & w' & -> & H). exact H.
Qed.

(** ** Deliveries that succeed, and retries that never do *)

Section Delivered.

Context (env : Env) (config : PluginConfig) (inst : option string).
Hypothesis NF : forall n, store_fault env n = None.
Hypothesis RF : readable_failures env.

Lemma deliver_all_delivers (items : list (jval * OfflineRequest)) (id : jval)
    (row : OfflineRequest) (w : World) :
  (id, row) ∈ items -> retryCount row <= 5 ->
  (forall n req, post_applications env n req (retry_body (payload row) inst) = None) ->
  queue (run env (deliver_all config inst items) w).2 !! id = None.
Proof.
  intros Hin Hrc Hpost. revert w.
  induction items as [|item items IH]; intros w; [by apply elem_of_nil in Hin|].
  simpl. rewrite run_bind.
  apply elem_of_cons in Hin as [<-|Hin].
  - destruct (deliver_alive env config inst NF (id, row) w Hrc) as (w1 & -> & Hdb & _).
    { cbn [snd]. by rewrite Hpost. }
    apply run_keeps_absent; [apply deliver_all_never_creates|].
    unfold queue. rewrite Hdb. cbn [fst snd]. rewrite Hpost. simpl. apply lookup_delete_eq.
  - destruct (deliver_resolves env config inst NF RF item w) as (w1 & -> & _).
    by apply IH.
Qed.

End Delivered.

(** X19.  A request of the fetched batch that is within its retry budget and
    that the remote accepts is gone from the queue after the drain, when the
    store works and no delivery is rejected with [null] or [undefined] (which
    would end the loop before its time). *)
Theorem delivered_request_leaves (config : PluginConfig) (env : Env) (w : World)
    (id : jval) (row : OfflineRequest) :
  (forall n, store_fault env n = None) ->
  readable_failures env ->
  isProcessingQueue w = false ->
  (id, row) ∈ fetched env w ->
  retryCount row <= 5 ->
  (forall n req,
     post_applications env n req (retry_body (payload row) (instance_uuid w)) = None) ->
  queue (run env (processOfflineQueue config) w).2 !! id = None.
Proof.
  intros NF RF Hl Hin Hrc Hpost.
  destruct (processOfflineQueue_run env config w NF RF Hl) as (w1 & _ & _ & ->).
  cbn [snd]. by apply (deliver_all_delivers env config (instance_uuid w) NF RF _ id row).
Qed.

Lemma delivered_request_leaves_witness :
  queue (run quiet (processOfflineQueue (settings both [])) backlog).2 !! JStr "new" = None.
Proof.
  apply (delivered_request_leaves (settings both []) quiet backlog (JStr "new") (request 2 5)).
  - intros n. reflexivity.
  - intros n req body e H. discriminate H.
  - reflexivity.
  - vm_compute. right. left.
  - vm_compute. discriminate.
  - intros n req. reflexivity.
Defined.

(** The whole queue is fetched when it has no more than ten requests. *)
Lemma oldest_all (place : jval -> Z) (q : gmap jval OfflineRequest) (id : jval)
    (row : OfflineRequest) :
  (size q <= 10)%nat -> q !! id = Some row -> (id, row) ∈ oldest place 10 q.
Proof.
  intros Hsize Hq. unfold oldest.
  rewrite take_ge.
  - rewrite merge_sort_Permutation. by apply elem_of_map_to_list.
  - rewrite merge_sort_Permutation, length_map_to_list. exact Hsize.
Qed.

Lemma drained_size (q q' : gmap jval OfflineRequest) :
  drained q q' -> (size q' <= size q)%nat.
Proof.
  intros Hd. rewrite <- !size_dom. apply subseteq_size.
  intros id. rewrite !elem_of_dom. intros [r' Hr'].
  destruct (Hd id r' Hr') as (r & Hr & _). by exists r.
Qed.

Section Refused.

Context (env : Env) (config : PluginConfig).
Hypothesis NF : forall n, store_fault env n = None.
Hypothesis RF : readable_failures env.

Lemma drain_unlocks (w : World) :
  isProcessingQueue w = false ->
  isProcessingQueue (run env (processOfflineQueue config) w).2 = false.
Proof.
  intros Hl. by destruct (processOfflineQueue_run env config w NF RF Hl) as (w1 & _ & _ & ->).
Qed.

Lemma drain_counts (w : World) (id : jval) (row : OfflineRequest) (e : ErrorValue) :
  isProcessingQueue w = false ->
  (size (queue w) <= 10)%nat ->
  queue w !! id = Some row ->
  retryCount row <= 5 ->
  (forall n req,
     post_applications env n req (retry_body (payload row) (instance_uuid w))
       = Some (Value e)) ->
  isNetworkError e = false ->
  queue (run env (processOfflineQueue config) w).2 !! id
    = Some (set_retryCount (retryCount row + 1) row).
Proof.
  intros Hl Hsize Hq Hrc Hpost He.
  destruct (processOfflineQueue_run env config w NF RF Hl) as (w1 & Hdb & _ & ->).
  cbn [snd].
  apply (deliver_all_counts env config (instance_uuid w) NF RF _ id row e w1); auto.
  - apply oldest_NoDup.
  - by apply oldest_all.
  - unfold queue in *. by rewrite Hdb.
Qed.

Lemma drain_evicts (w : World) (id : jval) (row : OfflineRequest) :
  isProcessingQueue w = false ->
  (size (queue w) <= 10)%nat ->
  queue w !! id = Some row ->
  5 < retryCount row ->
  queue (run env (processOfflineQueue config) w).2 !! id = None.
Proof.
  intros Hl Hsize Hq Hrc.
  destruct (processOfflineQueue_run env config w NF RF Hl) as (w1 & Hdb & _ & ->).
  cbn [snd].
  apply (deliver_all_evicts env config (instance_uuid w) NF RF _ id row w1); auto.
  by apply oldest_all.
Qed.

Lemma drains_refused (w : World) (id : jval) (row : OfflineRequest) (e : ErrorValue)
    (k : nat) :
  isProcessingQueue w = false ->
  (size (queue w) <= 10)%nat ->
  queue w !! id = Some row ->
  (forall n req inst,
     post_applications env n req (retry_body (payload row) inst) = Some (Value e)) ->
  isNetworkError e = false ->
  (Z.of_nat k + retryCount row <= 6) ->
  let w' := drains env config k w in
  isProcessingQueue w' = false /\ (size (queue w') <= 10)%nat /\
  queue w' !! id = Some (set_retryCount (retryCount row + Z.of_nat k) row).
Proof.
  intros Hl Hsize Hq Hpost He. revert w row Hl Hsize Hq Hpost.
  induction k as [|k IH]; intros w row Hl Hsize Hq Hpost Hk; cbn [drains].
  - repeat split; try done. rewrite Hq.
    replace (retryCount row + Z.of_nat 0) with (retryCount row) by lia. by destruct row.
  - set (w1 := (run env (processOfflineQueue config) w).2).
    assert (queue w1 !! id = Some (set_retryCount (retryCount row + 1) row)) as Hq1.
    { apply (drain_counts w id row e); [done|done|done|lia| |done].
      intros n req. apply Hpost. }
    destruct (IH w1 (set_retryCount (retryCount row + 1) row)) as (H1 & H2 & H3); auto.
    + by apply drain_unlocks.
    + pose proof (drain_frame config env w) as [Hd _].
      apply drained_size in Hd. fold w1 in Hd. lia.
    + cbn. lia.
    + repeat split; try done. rewrite H3. cbn [set_retryCount retryCount].
      unfold set_retryCount. cbn. do 2 f_equal. lia.
Qed.

Lemma drains_add (a b : nat) (w : World) :
  drains env config (a + b) w = drains env config b (drains env config a w).
Proof. revert w. induction a as [|a IH]; intros w; [done|]. cbn [Nat.add drains]. apply IH. Qed.

End Refused.

(** X20.  Bounded retries.  With no more than ten requests queued, a working
    store and no delivery rejected with [null] or [undefined], a request
    that the remote refuses each time with a business error has one more
    retry counted by each of six drains and is dropped, without a further
    attempt, by the seventh. *)
Theorem refused_request_dropped (config : PluginConfig) (env : Env) (w : World)
    (id : jval) (row : OfflineRequest) (e : ErrorValue) :
  (forall n, store_fault env n = None) ->
  readable_failures env ->
  isProcessingQueue w = false ->
  (size (queue w) <= 10)%nat ->
  queue w !! id = Some row ->
  retryCount row = 0 ->
  (forall n req inst,
     post_applications env n req (retry_body (payload row) inst) = Some (Value e)) ->
  isNetworkError e = false ->
  (forall k, (k <= 6)%nat ->
     queue (drains env config k w) !! id = Some (set_retryCount (Z.of_nat k) row)) /\
  queue (drains env config 7 w) !! id = None.
Proof.
  intros NF RF Hl Hsize Hq Hrc Hpost He.
  assert (forall k, (k <= 6)%nat ->
            let w' := drains env config k w in
            isProcessingQueue w' = false /\ (size (queue w') <= 10)%nat /\
            queue w' !! id = Some (set_retryCount (Z.of_nat k) row)) as Hk.
  { intros k Hk.
    pose proof (drains_refused env config NF RF w id row e k Hl Hsize Hq Hpost He) as H.
    rewrite Hrc in H. apply H. lia. }
  split; [intros k Hle; by apply Hk|].
  change 7%nat with (6 + 1)%nat. rewrite drains_add. cbn [drains].
  destruct (Hk 6%nat) as (H1 & H2 & H3); [lia|].
  by apply (drain_evicts env config NF RF _ id (set_retryCount (Z.of_nat 6) row)).
Qed.

Lemma refused_request_dropped_witness :
  let w := {| db := with_queue (fun _ => {[ JStr "r1" := request 1 0 ]}) empty_tables;
              isProcessingQueue := false; trace := [] |} in
  let env := rejecting refused in
  (forall k, (k <= 6)%nat ->
     queue (drains env (settings both []) k w) !! JStr "r1"
       = Some (set_retryCount (Z.of_nat k) (request 1 0))) /\
  queue (drains env (settings both []) 7 w) !! JStr "r1" = None.
Proof.
  intros w env.
  apply (refused_request_dropped (settings both []) env w (JStr "r1") (request 1 0) refused).
  - intros n. reflexivity.
  - intros n req body e [= <-]. reflexivity.
  - reflexivity.
  - vm_compute. lia.
  - reflexivity.
  - reflexivity.
  - intros n req inst. reflexivity.
  - reflexivity.
Defined.

(** ** The commands that submit a request *)

Lemma failed_posts_record (o : Op) (f : option JsError) (t : Tables) (w : World) :
  failed_posts (trace (record o f t w)) =
  (failed_posts (trace w) ++
   match o, f with PostApplications _ b, Some _ => [b] | _, _ => [] end)%list.
Proof.
  cbn [trace record]. unfold failed_posts. rewrite omap_app. cbn.
  by destruct o, f.
Qed.

Lemma run_silent {A : Type} (env : Env) (p : Prog A) (w0 w : World) :
  calls silent p -> same_account w0 w -> same_account w0 (run env p w).2.
Proof.
  intros Hp Hw. apply (run_keeps env silent (same_account w0) p); auto.
  intros o w1 [Hr Hn] (H1 & H2 & H3). unfold same_account.
  rewrite (perform_reads_only env o w1 Hr).
  unfold perform. destruct (answer env o w1) as [r t]. cbn [snd].
  rewrite posts_record, failed_posts_record, H1, H2, H3.
  destruct o; try contradiction; by rewrite ?app_nil_r.
Qed.

Lemma submitted_once_from (kind : RequestType) (w0 w w' : World) :
  same_account w0 w -> submitted_once kind w w' -> submitted_once kind w0 w'.
Proof.
  intros (H1 & H2 & H3) H. unfold submitted_once, queue in *.
  by rewrite H1, H2, H3 in H.
Qed.

Lemma queueRequest_silent (kind : RequestType) (body : obj) :
  calls no_post (queueRequest kind body).
Proof. unfold queueRequest. repeat calls_step; exact I. Qed.

Lemma queueRequest_db (env : Env) (kind : RequestType) (body : obj) (w : World) :
  exists r w',
    run env (queueRequest kind body) w = (r, w') /\
    posts (trace w') = posts (trace w) /\
    failed_posts (trace w') = failed_posts (trace w) /\
    (db w' = db w \/
     exists id created,
       r = Resolved id /\
       queue w !! id = None /\
       db w' = with_queue
                 (insert id {| type := kind; payload := <["requestId" := id]> body;
                               createdAt := created; retryCount := 0 |}) (db w)).
Proof.
  assert (forall id w1, db w1 = db w ->
            posts (trace w1) = posts (trace w) ->
            failed_posts (trace w1) = failed_posts (trace w) ->
            exists r w',
              run env
                (createdAt ← await NewDate;
                 await (QueueCreate id
                          {| type := kind; payload := <["requestId" := id]> body;
                             createdAt := createdAt; retryCount := 0 |});;
                 Ret id) w1 = (r, w') /\
              posts (trace w') = posts (trace w) /\
              failed_posts (trace w') = failed_posts (trace w) /\
              (db w' = db w \/
               exists id created,
                 r = Resolved id /\
                 queue w !! id = None /\
                 db w' = with_queue
                           (insert id {| type := kind; payload := <["requestId" := id]> body;
                                         createdAt := created; retryCount := 0 |}) (db w)))
    as Htail.
  { intros id w1 Hdb Hp Hf.
    rewrite run_bind. cbn [run await]. unfold perform at 1. cbn [answer failure_of run].
    rewrite run_bind. cbn [run await]. unfold perform at 1. cbn [answer].
    match goal with |- context [store_fault env ?n] => destruct (store_fault env n) as [e|] end.
    { cbn [failure_of run]. eexists _, _. split; [reflexivity|].
      rewrite !posts_record, !failed_posts_record, !app_nil_r. cbn [db record].
      repeat split; try done. by left. }
    cbn [store_step db record].
    destruct (blacklist_request_queue (db w1) !! id) eqn:Hq.
    { cbn [failure_of run]. eexists _, _. split; [reflexivity|].
      rewrite !posts_record, !failed_posts_record, !app_nil_r. cbn [db record].
      repeat split; try done. by left. }
    cbn [failure_of run]. eexists _, _. split; [reflexivity|].
    rewrite !posts_record, !failed_posts_record, !app_nil_r. cbn [db record].
    repeat split; try done. right. eexists id, _. split; [reflexivity|].
    unfold queue. rewrite <- Hdb. by split. }
  unfold queueRequest. rewrite run_bind.
  destruct (body !! "requestId") as [v|]; [destruct (truthy v)|].
  - cbn [run]. by apply Htail.
  - rewrite run_bind. cbn [run await]. unfold perform. cbn [answer failure_of run].
    apply Htail; [done|by rewrite posts_record, app_nil_r|by rewrite failed_posts_record, app_nil_r].
  - rewrite run_bind. cbn [run await]. unfold perform. cbn [answer failure_of run].
    apply Htail; [done|by rewrite posts_record, app_nil_r|by rewrite failed_posts_record, app_nil_r].
Qed.

(** The shape shared by the three commands: post, and queue on failure. *)
Lemma post_else_queue {A : Type} (env : Env) (req : Request) (kind : RequestType)
    (body : obj) (sent queued : A) (w : World) :
  submitted_once kind w
    (run env
       (try_catch (await (PostApplications req body);; Ret sent)
          (fun e => queueRequest kind body;; Ret queued)) w).2.
Proof.
  rewrite run_try_catch, run_bind. cbn [run await]. unfold perform at 1. cbn [answer].
  destruct (post_applications env (now w) req body) as [e|].
  - cbn [unit_result failure_of run]. rewrite run_bind.
    match goal with |- context [run env (queueRequest kind body) ?w1] =>
      destruct (queueRequest_db env kind body w1) as (r & w2 & -> & Hp & Hf & Hdb) end.
    rewrite posts_record in Hp. rewrite failed_posts_record in Hf. cbn [db record] in Hdb.
    right. exists body.
    assert (posts (trace (match r with
                          | Resolved a => run env (Ret queued) w2
                          | Rejected e0 => (Rejected e0, w2)
                          end).2) = posts (trace w2) /\
            failed_posts (trace (match r with
                          | Resolved a => run env (Ret queued) w2
                          | Rejected e0 => (Rejected e0, w2)
                          end).2) = failed_posts (trace w2) /\
            db (match r with
                | Resolved a => run env (Ret queued) w2
                | Rejected e0 => (Rejected e0, w2)
                end).2 = db w2) as (-> & -> & ->) by by destruct r.
    split; [exact Hp|].
    destruct Hdb as [Hdb|(id & created & _ & Hfree & Hdb)]; [by left|right].
    exists id, created. by rewrite Hf.
  - cbn [unit_result failure_of run snd]. right. exists body.
    rewrite posts_record. split; [reflexivity|]. by left.
Qed.

Lemma submits_nothing (kind : RequestType) {A : Type} (p : Prog A) :
  calls silent p -> submits_once kind p.
Proof.
  intros Hp env w0 w Hw. destruct (run_silent env p w0 w Hp Hw) as (H1 & H2 & _).
  by left.
Qed.

Lemma submits_after (kind : RequestType) {A B : Type} (p : Prog A) (f : A -> Prog B) :
  calls silent p -> (forall a, submits_once kind (f a)) -> submits_once kind (p ≫= f).
Proof.
  intros Hp Hf env w0 w Hw. rewrite run_bind.
  pose proof (run_silent env p w0 w Hp Hw) as Hw1.
  destruct (run env p w) as [[a|e] w1]; cbn [snd] in *.
  - by apply Hf.
  - destruct Hw1 as (H1 & H2 & _). by left.
Qed.

Lemma submits_then (kind : RequestType) {A B : Type} (p : Prog A) (g : A -> B) :
  submits_once kind p -> submits_once kind (p ≫= fun a => Ret (g a)).
Proof.
  intros Hp env w0 w Hw. rewrite run_bind. specialize (Hp env w0 w Hw).
  by destruct (run env p w) as [[a|e] w1].
Qed.

Lemma submits_shape (kind : RequestType) {A : Type} (req : Request) (body : obj)
    (sent queued : A) :
  submits_once kind
    (try_catch (await (PostApplications req body);; Ret sent)
       (fun e => queueRequest kind body;; Ret queued)).
Proof.
  intros env w0 w Hw. eapply submitted_once_from; [exact Hw|]. apply post_else_queue.
Qed.

Ltac silent_calls := repeat calls_step; split; exact I.

Lemma blacklist_request_once (config : PluginConfig) (session : option Caller)
    (user reason : string) :
  submits_once ADD (blacklist_request config session user reason).
Proof.
  unfold blacklist_request.
  destruct (present _) as [guild|]; [|apply submits_nothing; constructor].
  destruct (String.eqb reason _); [apply submits_nothing; constructor|].
  destruct (protectedUsers config) as [protected|]; [|apply submits_nothing; constructor].
  destruct (bool_decide _); [apply submits_nothing; constructor|].
  apply submits_after; [silent_calls|intros wl].
  destruct (0 <? _)%nat; [apply submits_nothing; constructor|].
  apply submits_then. unfold submit_request.
  apply submits_after; [silent_calls|intros requestId].
  apply submits_after; [silent_calls|intros timestamp].
  apply submits_shape.
Qed.

Lemma blacklist_delete_once (config : PluginConfig) (session : option Caller)
    (user reason : string) :
  submits_once REMOVE (blacklist_delete config session user reason).
Proof.
  unfold blacklist_delete, post_or_queue.
  destruct session as [caller|]; [|apply submits_nothing; constructor].
  destruct (String.eqb reason _); [apply submits_nothing; constructor|].
  apply submits_after; [silent_calls|intros requestId].
  apply submits_after; [silent_calls|intros timestamp].
  apply submits_shape.
Qed.

Lemma blacklist_cancel_once (config : PluginConfig) (session : option Caller)
    (uuid : string) :
  submits_once CANCEL (blacklist_cancel config session uuid).
Proof.
  unfold blacklist_cancel, post_or_queue.
  destruct (String.eqb uuid _); [apply submits_nothing; constructor|].
  apply submits_after; [silent_calls|intros requestId].
  apply submits_after; [silent_calls|intros timestamp].
  apply submits_shape.
Qed.

Lemma same_account_refl (w : World) : same_account w w.
Proof. done. Qed.

(** X21.  Each of the commands [blacklist.request], [blacklist.delete] and
    [blacklist.cancel] posts at most one body, whatever the environment
    answers, and writes to the store only when that post failed: then it
    queues at most one request, of the type of the command ([ADD], [REMOVE],
    [CANCEL]), under a key that was free, the body being the one posted with
    that key as [requestId], and no retry counted. *)
Theorem commands_submit_once (config : PluginConfig) (session : option Caller)
    (user reason uuid : string) (env : Env) (w : World) :
  submitted_once ADD w (run env (blacklist_request config session user reason) w).2 /\
  submitted_once REMOVE w (run env (blacklist_delete config session user reason) w).2 /\
  submitted_once CANCEL w (run env (blacklist_cancel config session uuid) w).2.
Proof.
  split; [|split].
  - apply blacklist_request_once, same_account_refl.
  - apply blacklist_delete_once, same_account_refl.
  - apply blacklist_cancel_once, same_account_refl.
Qed.

(** X22.  [blacklist.request] submits nothing for a target it refuses: used
    outside a guild or without a reason, or against an identity that is
    protected by the configuration or has a row in the exempt list, it
    posts nothing and leaves the store as it was, whatever the environment
    answers. *)
Theorem refused_request_submits_nothing (config : PluginConfig) (session : option Caller)
    (user reason : string) (env : Env) (w : World) :
  present (session ≫= from_guild) = None \/ reason = EmptyString \/
  parseUserId user ∈ default [] (protectedUsers config) \/
  is_Some (blacklist_whitelist (db w) !! parseUserId user) ->
  let w' := (run env (blacklist_request config session user reason) w).2 in
  posts (trace w') = posts (trace w) /\ db w' = db w.
Proof.
  intros Hrefused w'. subst w'. unfold blacklist_request.
  destruct (present (session ≫= from_guild)) as [guild|]; [|done].
  destruct Hrefused as [|Hrefused]; [done|].
  destruct (String.eqb_spec reason EmptyString) as [|Hreason]; [done|].
  destruct Hrefused as [|Hrefused]; [done|].
  destruct (protectedUsers config) as [protected|]; [|done].
  cbn [default] in Hrefused.
  destruct (bool_decide (parseUserId user ∈ protected)) eqn:Hp; [done|].
  apply bool_decide_eq_false in Hp.
  destruct Hrefused as [|[x Hx]]; [done|].
  rewrite run_bind. cbn [run await]. unfold perform. cbn [answer].
  destruct (store_fault env (now w)) as [e|].
  { cbn [failure_of run snd]. by rewrite posts_record, app_nil_r. }
  cbn [store_step failure_of run]. rewrite Hx. unfold option_list.
  cbn [option_rect List.length Nat.ltb Nat.leb run snd].
  by rewrite posts_record, app_nil_r.
Qed.

Lemma refused_request_submits_nothing_witness :
  let w' := (run offline
               (blacklist_request (settings both ["carol"])
                  (Some {| from_guild := Some "g1"; from_user := Some "alice" |})
                  (mention "onebot:carol") "spam") start).2 in
  posts (trace w') = posts (trace start) /\ db w' = db start.
Proof.
  apply (refused_request_submits_nothing (settings both ["carol"])
           (Some {| from_guild := Some "g1"; from_user := Some "alice" |})
           (mention "onebot:carol") "spam" offline start).
  right. right. left. vm_compute. left.
Defined.

(** X23.  When the remote cannot take it, an accepted [blacklist.request] is
    queued once, as an [ADD] with no retry counted, and the user is shown the
    identifier that the queued body carries as [request_id]; the target in
    that body is the identity [parseUserId] makes of what the user typed. *)
Theorem request_queued_offline (config : PluginConfig) (session : option Caller)
    (user reason : string) (env : Env) (w : World) (guild : string)
    (protected : list string) (e : JsError) :
  (forall n, store_fault env n = None) ->
  present (session ≫= from_guild) = Some guild ->
  reason <> EmptyString ->
  protectedUsers config = Some protected ->
  parseUserId user ∉ protected ->
  blacklist_whitelist (db w) !! parseUserId user = None ->
  (forall n req body, post_applications env n req body = Some e) ->
  let shown := random_uuid env (1 + now w) in
  let key := JStr (random_uuid env (4 + now w)) in
  queue w !! key = None ->
  exists w' row,
    run env (blacklist_request config session user reason) w
      = (Resolved (request_queued shown), w') /\
    queue w' = <[key := row]> (queue w) /\
    type row = ADD /\ retryCount row = 0 /\
    payload row !! "request_id" = Some (JStr shown) /\
    payload row !! "target_user_id" = Some (JStr (parseUserId user)).
Proof.
  intros NF Hg Hreason Hprot Hnot Hwl Hpost shown key Hfree.
  unfold blacklist_request. rewrite Hg, Hprot.
  destruct (String.eqb_spec reason EmptyString) as [|_]; [done|].
  rewrite bool_decide_eq_false_2 by exact Hnot.
  exec NF. rewrite Hwl. unfold option_list.
  cbn [option_rect List.length Nat.ltb Nat.leb].
  unfold submit_request. exec NF. rewrite Hpost. exec NF.
  rewrite !now_record.
  match goal with |- context [run env (queueRequest ADD ?body) ?w1] =>
    destruct (queueRequest_fresh env w1 ADD body NF) as (w2 & -> & Hq)
  end.
  { apply request_payload_requestId. }
  { rewrite !now_record. exact Hfree. }
  rewrite !now_record in Hq. cbn [run].
  eexists _, _. split; [reflexivity|]. split; [exact Hq|].
  split; [reflexivity|]. split; [reflexivity|]. cbn [payload].
  rewrite !lookup_insert_ne by done.
  destruct (session ≫= from_user); cbn; by simplify_map_eq.
Qed.

Lemma request_queued_offline_witness :
  exists w' row,
    run offline
      (blacklist_request (settings both [])
         (Some {| from_guild := Some "g1"; from_user := Some "alice" |})
         "onebot:bob" "spam") start
      = (Resolved (request_queued "uuid-later"), w') /\
    queue w' = <[JStr "uuid-later" := row]> (queue start) /\
    type row = ADD /\ retryCount row = 0 /\
    payload row !! "request_id" = Some (JStr "uuid-later") /\
    payload row !! "target_user_id" = Some (JStr "bob").
Proof.
  apply (request_queued_offline (settings both [])
           (Some {| from_guild := Some "g1"; from_user := Some "alice" |})
           "onebot:bob" "spam" offline start "g1" [] unreachable).
  - intros n. reflexivity.
  - reflexivity.
  - discriminate.
  - reflexivity.
  - vm_compute. apply not_elem_of_nil.
  - reflexivity.
  - intros n req body. reflexivity.
  - reflexivity.
Defined.

Lemma oldest_singleton (place : jval -> Z) (n : nat) (id : jval) (row : OfflineRequest) :
  oldest place (S n) {[ id := row ]} = [(id, row)].
Proof. unfold oldest, merge_sort. rewrite map_to_list_singleton. cbn. by rewrite take_nil. Qed.

(** A drain with a working store posts what the loop over the fetched
    requests posts, however the loop ends. *)
Lemma processOfflineQueue_posts (env : Env) (config : PluginConfig) (w : World) :
  (forall n, store_fault env n = None) ->
  isProcessingQueue w = false ->
  exists w1, db w1 = db w /\ posts (trace w1) = posts (trace w) /\
    posts (trace (run env (processOfflineQueue config) w).2) =
    posts (trace (run env (deliver_all config (instance_uuid w) (fetched env w)) w1).2).
Proof.
  intros NF Hl. rewrite processOfflineQueue_unlocked by exact Hl.
  rewrite run_finally, run_try_catch. unfold drain.
  exec NF. cbn [db with_lock]. fold (queue w).
  change (now (with_lock true w)) with (now w). fold (fetched env w).
  destruct (fetched env w) as [|item items] eqn:Hq.
  - eexists. split; [|split]; [| |reflexivity]; cbn; [reflexivity|].
    by rewrite posts_snoc, app_nil_r.
  - exec NF. rewrite first_value_row_of. cbn [db record]. fold (instance_uuid w).
    match goal with |- context [run env (deliver_all _ _ _) ?w1] => set (w1' := w1) end.
    exists w1'. split; [reflexivity|]. split.
    + subst w1'. cbn [trace record with_lock]. rewrite !posts_snoc. simpl.
      by rewrite !app_nil_r.
    + destruct (run env (deliver_all config (instance_uuid w) (item :: items)) w1')
        as [[[]|e] w2]; cbn [run snd trace with_lock]; [reflexivity|].
      unfold perform. cbn [answer failure_of run snd trace with_lock record].
      by rewrite posts_snoc, app_nil_r.
Qed.

(** The delivery of a request within its budget posts its body once,
    however it ends. *)
Lemma deliver_posts_once (env : Env) (config : PluginConfig) (inst : option string)
    (item : jval * OfflineRequest) (w : World) :
  (forall n, store_fault env n = None) ->
  retryCount item.2 <= 5 ->
  posts (trace (run env (deliver config inst item) w).2)
    = (posts (trace w) ++ [retry_body (payload item.2) inst])%list.
Proof.
  intros NF Hrc. unfold deliver.
  destruct (Z.ltb_spec 5 (retryCount item.2)); [lia|].
  exec NF.
  match goal with |- context [post_applications env ?n ?req ?body] =>
    destruct (post_applications env n req body) as [[e| |]|] end; exec NF;
    try (destruct (isNetworkError e); exec NF);
    cbn [snd trace record]; rewrite !posts_snoc; simpl; by rewrite ?app_nil_r.
Qed.

(** X24.  A cancellation that could not be sent is posted to
    [/applications/cancel] by the command but, once queued, is retried by the
    drain at [/applications], like every queued request: the body it retries
    is the cancellation with [requestId], the identity of the instance and
    [isOfflineRetry] added, and it has no [type] field. *)
Theorem queued_cancel_retried_as_application (config : PluginConfig)
    (session : option Caller) (uuid : string) (env : Env) (w : World) (e : JsError) :
  (forall n, store_fault env n = None) ->
  isProcessingQueue w = false ->
  queue w = ∅ ->
  uuid <> EmptyString ->
  (forall n req body, post_applications env n req body = Some e) ->
  let w1 := (run env (blacklist_cancel config session uuid) w).2 in
  let w2 := (run env (processOfflineQueue config) w1).2 in
  let body := cancel_payload (random_uuid env (now w)) uuid (session ≫= from_user)
                (clock env (1 + now w)) in
  exists evs1 evs2,
    trace w1 = (trace w ++ evs1)%list /\ trace w2 = (trace w1 ++ evs2)%list /\
    requests evs1 = [{| url := remoteApiUrl config ++ "/applications/cancel";
                        authorization := "Bearer " ++ apiToken config;
                        timeout := None |}] /\
    posts evs1 = [body] /\
    requests evs2 = [{| url := remoteApiUrl config ++ "/applications";
                        authorization := "Bearer " ++ apiToken config;
                        timeout := Some 5000 |}] /\
    posts evs2 = [retry_body (<["requestId" := JStr (random_uuid env (3 + now w))]> body)
                    (instance_uuid w)] /\
    body !! "type" = None.
Proof.
  intros NF Hl Hq Huuid Hpost w1 w2 body.
  assert (exists evs1 row,
            trace w1 = (trace w ++ evs1)%list /\
            requests evs1 = [{| url := remoteApiUrl config ++ "/applications/cancel";
                                authorization := "Bearer " ++ apiToken config;
                                timeout := None |}] /\
            posts evs1 = [body] /\
            db w1 = with_queue (fun _ => {[ JStr (random_uuid env (3 + now w)) := row ]}) (db w) /\
            payload row = <["requestId" := JStr (random_uuid env (3 + now w))]> body /\
            retryCount row = 0 /\
            isProcessingQueue w1 = false) as (evs1 & row & Ht1 & Hr1 & Hp1 & Hdb1 & Hrow & Hrc & Hl1).
  { subst w1. unfold blacklist_cancel, post_or_queue.
    destruct (String.eqb_spec uuid EmptyString) as [|_]; [done|].
    exec NF. rewrite Hpost. exec NF. unfold queueRequest.
    assert (cancel_payload (random_uuid env (now w)) uuid (session ≫= from_user)
              (clock env (now (record RandomUUID None (db w) w))) !! "requestId" = None) as ->.
    { unfold cancel_payload, with_applicant. destruct (session ≫= from_user); by simplify_map_eq. }
    exec NF. cbn [db record]. fold (queue w). rewrite Hq, lookup_empty. exec NF.
    cbn [snd trace record db isProcessingQueue]. rewrite !now_record.
    eexists _, _. split; [rewrite <- !app_assoc; reflexivity|].
    split; [reflexivity|]. split; [reflexivity|].
    split.
    { unfold with_queue. f_equal. unfold queue in Hq. rewrite Hq. apply insert_empty. }
    split; [reflexivity|split; [reflexivity|exact Hl]]. }
  assert (body !! "type" = None) as Htype.
  { subst body. unfold cancel_payload, with_applicant.
    destruct (session ≫= from_user); by simplify_map_eq. }
  destruct (drain_events config env w1) as (evs2 & Ht2 & Hall & Hlen).
  fold w2 in Ht2.
  assert (posts evs2 = [retry_body (payload row) (instance_uuid w)]) as Hp2.
  { destruct (processOfflineQueue_posts env config w1 NF Hl1) as (w3 & Hdb3 & Hp3 & Hr).
    assert (instance_uuid w1 = instance_uuid w) as Hinst
      by (unfold instance_uuid; by rewrite Hdb1).
    assert (fetched env w1 = [(JStr (random_uuid env (3 + now w)), row)]) as Hold.
    { unfold fetched, queue. rewrite Hdb1. cbn. apply oldest_singleton. }
    rewrite Hinst, Hold in Hr. cbn [deliver_all] in Hr. rewrite run_bind in Hr.
    pose proof (deliver_posts_once env config (instance_uuid w)
                  (JStr (random_uuid env (3 + now w)), row) w3 NF) as Hp4.
    cbn [snd] in Hp4. rewrite Hrc in Hp4. specialize (Hp4 ltac:(lia)).
    destruct (run env (deliver config (instance_uuid w)
                         (JStr (random_uuid env (3 + now w)), row)) w3) as [[[]|e'] w4];
      cbn [run snd] in Hr, Hp4.
    all: fold w2 in Hr; rewrite Hp4, Hp3, Ht2 in Hr;
      unfold posts in Hr |- *; rewrite omap_app in Hr;
      by apply app_inv_head in Hr. }
  exists evs1, evs2. repeat split; try done.
  - pose proof (requests_posts evs2) as Hsame. rewrite Hp2 in Hsame.
    destruct (requests evs2) as [|req [|? ?]]; try done.
    apply Forall_cons in Hall as [<- _]. reflexivity.
  - by rewrite Hp2, Hrow.
Qed.

Lemma queued_cancel_retried_as_application_witness :
  let config := settings both [] in
  let session := Some {| from_guild := Some "g1"; from_user := Some "alice" |} in
  let w1 := (run offline (blacklist_cancel config session "abc") start).2 in
  let w2 := (run offline (processOfflineQueue config) w1).2 in
  let body := cancel_payload (random_uuid offline (now start)) "abc" (session ≫= from_user)
                (clock offline (1 + now start)) in
  exists evs1 evs2,
    trace w1 = (trace start ++ evs1)%list /\ trace w2 = (trace w1 ++ evs2)%list /\
    requests evs1 = [{| url := remoteApiUrl config ++ "/applications/cancel";
                        authorization := "Bearer " ++ apiToken config;
                        timeout := None |}] /\
    posts evs1 = [body] /\
    requests evs2 = [{| url := remoteApiUrl config ++ "/applications";
                        authorization := "Bearer " ++ apiToken config;
                        timeout := Some 5000 |}] /\
    posts evs2 = [retry_body (<["requestId" := JStr (random_uuid offline (3 + now start))]> body)
                    (instance_uuid start)] /\
    body !! "type" = None.
Proof.
  intros config session.
  apply (queued_cancel_retried_as_application config session "abc" offline start unreachable).
  - intros n. reflexivity.
  - reflexivity.
  - reflexivity.
  - discriminate.
  - intros n req body. reflexivity.
Defined.

(** ** The listener for new members *)

Lemma run_then_unit {A : Type} (env : Env) (p : Prog A) (w : World) :
  (run env (p;; Ret tt) w).2 = (run env p w).2 /\
  (forall a, (run env p w).1 = Resolved a -> (run env (p;; Ret tt) w).1 = Resolved tt).
Proof. rewrite run_bind. destruct (run env p w) as [[a|e] w1]; by split. Qed.

(** X25.  The listener for new members writes nothing and, while the store
    answers, never rejects; it makes no call for a bot when [skipBotMembers]
    is set, nor without a user or a guild; and if it sends a message or
    attempts a removal, the member is not such a bot and has a block entry
    that is not disabled, is neither protected nor exempt, and the mode of the
    guild is not [off]. *)
Theorem member_added_guard (toLowerCase : string -> string) (config : PluginConfig)
    (session : Session) (userId : option string) (isBot : bool) (env : Env) (w : World) :
  let result := run env (member_added toLowerCase config session userId isBot) w in
  db result.2 = db w /\
  ((skipBotMembers config && isBot = true \/ present userId = None \/
    present (guildId session) = None) -> result = (Resolved tt, w)) /\
  ((forall n, store_fault env n = None) -> result.1 = Resolved tt) /\
  (enforcements result.2 <> enforcements w ->
   skipBotMembers config && isBot = false /\
   exists uid guild entry,
     present userId = Some uid /\
     present (guildId session) = Some guild /\
     mode_of config guild w <> off /\
     (uid ∉ default [] (protectedUsers config)) /\
     blacklist_whitelist (db w) !! uid = None /\
     blacklist_users (db w) !! uid = Some entry /\
     disabled entry = false).
Proof.
  intros result. subst result. unfold member_added.
  destruct (present userId) as [uid|]; [|by repeat split; try done].
  destruct (present (guildId session)) as [guild|] eqn:Hg; [|by repeat split; try done].
  destruct (skipBotMembers config && isBot); [by repeat split; try done|].
  destruct (run_then_unit env (checkAndHandleUser toLowerCase config session uid) w)
    as [-> Hres].
  split; [|split; [|split]].
  - apply run_reads_only.
    eapply calls_weaken; [|apply (checkAndHandleUser_about toLowerCase config session uid)].
    by intros o [H _].
  - intros [|[|]]; done.
  - intros NF.
    destruct (run_settles env _ NF (checkAndHandleUser_settles toLowerCase config session uid) w)
      as (kicked & w' & Hr).
    apply (Hres kicked). by rewrite Hr.
  - intros Henf. split; [reflexivity|].
    destruct (enforced_only_if toLowerCase config session uid env w Henf)
      as (guild' & entry & Hg' & H).
    rewrite Hg in Hg'. injection Hg' as <-. by exists uid, guild, entry.
Qed.

(** ** Running the programs of the second layer *)

Section HostRunning.

Context (henv : HostEnv).

Lemma run_task_bind {A B : Type} (t : Task A) (f : A -> Task B) (s : Site) :
  run_task henv (t ≫= f) s =
  match run_task henv t s with
  | (Resolved a, s') => run_task henv (f a) s'
  | (Rejected e, s') => (Rejected e, s')
  end.
Proof.
  revert s. induction t as [a|e|X p k IH|o k IH]; intros s; try reflexivity.
  - change (run_task henv (Inner p k ≫= f) s)
      with (let '(r, w') := run (core henv) p (world s) in
            run_task henv (k r ≫= f) {| world := w'; host_trace := host_trace s |}).
    cbn [run_task]. destruct (run (core henv) p (world s)) as [r w']. apply IH.
  - change (run_task henv (Outer o k ≫= f) s)
      with (let '(r, s') := host_perform henv o s in run_task henv (k r ≫= f) s').
    cbn [run_task]. destruct (host_perform henv o s) as [r s']. apply IH.
Qed.

Lemma run_task_try_catch {A : Type} (t : Task A) (h : JsError -> Task A) (s : Site) :
  run_task henv (task_try_catch t h) s =
  match run_task henv t s with
  | (Resolved a, s') => (Resolved a, s')
  | (Rejected e, s') => run_task henv (h e) s'
  end.
Proof.
  revert s. induction t as [a|e|X p k IH|o k IH]; intros s; cbn [task_try_catch run_task];
    try reflexivity.
  - destruct (run (core henv) p (world s)) as [r w']. apply IH.
  - destruct (host_perform henv o s) as [r s']. apply IH.
Qed.

Lemma run_inner {X : Type} (p : Prog X) (s : Site) :
  run_task henv (inner p) s =
  let '(r, w') := run (core henv) p (world s) in
  (r, {| world := w'; host_trace := host_trace s |}).
Proof.
  unfold inner. cbn [run_task]. by destruct (run (core henv) p (world s)) as [[a|e] w'].
Qed.

Lemma run_outer (o : HostOp) (s : Site) :
  run_task henv (outer o) s = host_perform henv o s.
Proof.
  unfold outer. cbn [run_task]. by destruct (host_perform henv o s) as [[a|e] s'].
Qed.

End HostRunning.

(** ** The mode of a guild *)

Lemma off_run (toLowerCase : string -> string) (config : PluginConfig) (session : Session)
    (user_id : string) (env : Env) (w : World) (guild : string) :
  present (guildId session) = Some guild ->
  mode_of config guild w = off ->
  enforcements (run env (checkAndHandleUser toLowerCase config session user_id) w).2
    = enforcements w.
Proof.
  intros Hg Hoff. unfold checkAndHandleUser. rewrite Hg.
  rewrite run_bind. cbn [run await]. unfold perform. cbn [answer].
  destruct (store_fault env (now w)) as [e|].
  { cbn [failure_of run snd]. by rewrite enforcements_record, app_nil_r. }
  cbn [store_step failure_of run]. rewrite first_value_row_of.
  fold (mode_of config guild w). rewrite Hoff.
  destruct (decide (off = off)) as [_|]; [|done].
  cbn [run snd]. by rewrite enforcements_record, app_nil_r.
Qed.

(** X26.  [blacklist.mode] stores the mode it is given.  With a text that is
    not one of [off], [notify], [kick], [both] it writes nothing.  With a
    valid one and a working store, the mode in force in the guild of the
    command is afterwards the one named, whatever [defaultGuildMode] is; the
    modes of the other guilds, the two lists, the queue and the stored values
    are untouched; and once the mode is [off], [checkAndHandleUser] sends no
    message and attempts no removal in that guild, whoever is examined. *)
Theorem mode_command_round_trip (toLowerCase : string -> string) (config : PluginConfig)
    (session : option Caller) (mode : string) (henv : HostEnv) (s : Site) (guild : string)
    (m : Mode) :
  present (session ≫= from_guild) = Some guild ->
  valid_mode mode = Some m ->
  (forall n, host_store_fault henv n = None) ->
  let result := run_task henv (blacklist_mode session mode) s in
  let w' := world result.2 in
  result.1 = Resolved (Some ("当前群模式已设置为: " ++ mode)) /\
  mode_of config guild w' = m /\
  (forall g, g <> guild -> mode_of config g w' = mode_of config g (world s)) /\
  with_settings (fun _ => ∅) (db w') = with_settings (fun _ => ∅) (db (world s)) /\
  (m = off ->
   forall env session' user_id,
     present (guildId session') = Some guild ->
     enforcements (run env (checkAndHandleUser toLowerCase config session' user_id) w').2
       = enforcements w') /\
  (forall text,
     valid_mode text = None -> (run_task henv (blacklist_mode session text) s).2 = s).
Proof.
  intros Hg Hm NF result. subst result. unfold blacklist_mode. rewrite Hg, Hm.
  rewrite run_task_bind, run_outer.
  unfold host_perform, host_answer. rewrite NF. cbn [host_store_step run_task fst snd world db].
  assert (mode_of config guild
            {| db := with_settings <[guild:=m]> (db (world s));
               isProcessingQueue := isProcessingQueue (world s);
               trace := trace (world s) |} = m) as Hmode.
  { unfold mode_of. cbn. by rewrite lookup_insert_eq. }
  split; [reflexivity|]. split; [exact Hmode|]. split; [|split; [reflexivity|split]].
  - intros g Hne. unfold mode_of. cbn. by rewrite lookup_insert_ne.
  - intros -> env session' user_id Hg'. by apply (off_run _ _ _ _ _ _ guild).
  - by intros text ->.
Qed.

Lemma mode_command_round_trip_witness :
  let henv := {| core := quiet; host_store_fault := fun _ => None;
                 handle_guild_request := fun _ _ _ _ => None;
                 guild_member_list := fun _ _ _ => Resolved [];
                 guild_list := fun _ _ => Resolved [] |} in
  let s := {| world := alice_blocked; host_trace := [] |} in
  let session := Some {| from_guild := Some "g1"; from_user := Some "op" |} in
  let result := run_task henv (blacklist_mode session "off") s in
  let w' := world result.2 in
  result.1 = Resolved (Some ("当前群模式已设置为: " ++ "off")) /\
  mode_of (settings both []) "g1" w' = off /\
  (forall g, g <> "g1" ->
     mode_of (settings both []) g w' = mode_of (settings both []) g (world s)) /\
  with_settings (fun _ => ∅) (db w') = with_settings (fun _ => ∅) (db (world s)) /\
  (off = off ->
   forall env session' user_id,
     present (guildId session') = Some "g1" ->
     enforcements
       (run env (checkAndHandleUser (fun x => x) (settings both []) session' user_id) w').2
       = enforcements w') /\
  (forall text,
     valid_mode text = None -> (run_task henv (blacklist_mode session text) s).2 = s).
Proof.
  intros henv s session.
  apply (mode_command_round_trip (fun x => x) (settings both []) session "off" henv s "g1" off);
    [reflexivity|reflexivity|intros n; reflexivity].
Defined.

(** ** Requests to join *)

Ltac enf :=
  unfold enforcements, join_notice; cbn [trace record];
  rewrite ?map_app, ?filter_app; cbn; rewrite ?app_nil_r, <- ?app_assoc; reflexivity.

Lemma member_request_run (config : PluginConfig) (userId messageId : option string)
    (henv : HostEnv) (s : Site) :
  exists r s',
    run_task henv (member_request config userId messageId) s = (r, s') /\
    db (world s') = db (world s) /\
    (join_answers s' = join_answers s /\ enforcements (world s') = enforcements (world s) \/
     join_answers s' = (join_answers s ++ [(messageId, false, rejectionMessage config)])%list /\
     enableAutoReject config = true /\
     exists uid entry,
       present userId = Some uid /\
       (uid ∉ default [] (protectedUsers config)) /\
       blacklist_whitelist (db (world s)) !! uid = None /\
       blacklist_users (db (world s)) !! uid = Some entry /\
       disabled entry = false /\
       match handle_guild_request henv (host_now s) messageId false (rejectionMessage config) with
       | None => enforcements (world s') = (enforcements (world s) ++ [join_notice config uid])%list
       | Some _ => enforcements (world s') = enforcements (world s)
       end) /\
    ((forall n, store_fault (core henv) n = None) -> is_Some (protectedUsers config) ->
     r = Resolved tt).
Proof.
  unfold member_request.
  destruct (enableAutoReject config) eqn:Hon; cbn [negb].
  2: { eexists _, _. split; [reflexivity|]. split; [done|]. split; [by left|done]. }
  destruct (present userId) as [uid|] eqn:Huid.
  2: { eexists _, _. split; [reflexivity|]. split; [done|]. split; [by left|done]. }
  destruct (protectedUsers config) as [protected|] eqn:Hprot.
  2: { eexists _, _. split; [reflexivity|]. split; [done|]. split; [by left|].
       intros _ [? ?]. done. }
  destruct (bool_decide (uid ∈ protected)) eqn:Hin.
  { eexists _, _. split; [reflexivity|]. split; [done|]. split; [by left|done]. }
  apply bool_decide_eq_false in Hin.
  rewrite run_task_bind, run_inner. cbn [run await]. unfold perform at 1. cbn [answer].
  destruct (store_fault (core henv) (now (world s))) as [e|] eqn:Hf1.
  { cbn [failure_of run]. eexists _, _. split; [reflexivity|].
    cbn [world db record]. split; [done|]. split.
    - left. split; [done|]. by rewrite enforcements_record, app_nil_r.
    - intros NF. rewrite NF in Hf1. done. }
  cbn [store_step failure_of run].
  destruct (blacklist_whitelist (db (world s)) !! uid) as [x|] eqn:Hwl.
  { cbn [option_list List.length Nat.ltb Nat.leb]. unfold option_list.
    cbn [option_rect List.length Nat.ltb Nat.leb run_task].
    eexists _, _. split; [reflexivity|]. cbn [world db record]. split; [done|]. split; [|done].
    left. split; [done|]. by rewrite enforcements_record, app_nil_r. }
  unfold option_list. cbn [option_rect List.length Nat.ltb Nat.leb].
  rewrite run_task_bind, run_inner. cbn [run await]. unfold perform at 1. cbn [answer world].
  match goal with |- context [store_fault (core henv) ?n] =>
    destruct (store_fault (core henv) n) as [e|] eqn:Hf2 end.
  { cbn [failure_of run]. eexists _, _. split; [reflexivity|].
    cbn [world db record]. split; [done|]. split.
    - left. split; [done|]. by rewrite !enforcements_record, !app_nil_r.
    - intros NF. rewrite NF in Hf2. done. }
  cbn [store_step failure_of run db record]. unfold active_entries.
  destruct (blacklist_users (db (world s)) !! uid) as [entry|] eqn:Hentry.
  2: { cbn [List.length Nat.ltb Nat.leb run_task].
       eexists _, _. split; [reflexivity|]. cbn [world db record]. split; [done|].
       split; [|done]. left. split; [done|]. by rewrite !enforcements_record, !app_nil_r. }
  destruct (disabled entry) eqn:Hdis.
  { cbn [List.length Nat.ltb Nat.leb run_task].
    eexists _, _. split; [reflexivity|]. cbn [world db record]. split; [done|].
    split; [|done]. left. split; [done|]. by rewrite !enforcements_record, !app_nil_r. }
  cbn [List.length Nat.ltb Nat.leb].
  rewrite run_task_try_catch, run_task_bind, run_outer.
  unfold host_perform at 1. cbn [host_answer]. unfold host_now at 1. cbn [host_trace].
  fold (host_now s).
  destruct (handle_guild_request henv (host_now s) messageId false (rejectionMessage config))
    as [e|] eqn:Hreq.
  - cbn [unit_result failure_of]. rewrite run_inner.
    cbn [run await world]. unfold perform. cbn [answer failure_of run].
    eexists _, _. split; [reflexivity|]. cbn [world db record]. split; [done|].
    split; [|done]. right.
    split; [unfold join_answers; cbn [host_trace]; by rewrite omap_app|].
    split; [done|]. exists uid, entry. repeat split; try done.
    enf.
  - cbn [unit_result failure_of]. rewrite run_task_bind, run_inner.
    cbn [run await world]. unfold perform at 1. cbn [answer failure_of run].
    rewrite run_inner. cbn [run await world]. unfold perform at 1. cbn [answer].
    match goal with |- context [session_send (core henv) ?n ?c] =>
      destruct (session_send (core henv) n c) as [e|] end.
    + cbn [unit_result failure_of run]. rewrite run_inner.
      cbn [run await world]. unfold perform. cbn [answer failure_of run].
      eexists _, _. split; [reflexivity|]. cbn [world db record]. split; [done|].
      split; [|done]. right.
      split; [unfold join_answers; cbn [host_trace]; by rewrite omap_app|].
      split; [done|]. exists uid, entry. repeat split; try done.
      enf.
    + cbn [unit_result failure_of run].
      eexists _, _. split; [reflexivity|]. cbn [world db record]. split; [done|].
      split; [|done]. right.
      split; [unfold join_answers; cbn [host_trace]; by rewrite omap_app|].
      split; [done|]. exists uid, entry. repeat split; try done.
      enf.
Qed.

(** X27.  The listener for requests to join refuses a request only when
    [enableAutoReject] is set and the applicant has a block entry that is not
    disabled and is neither protected nor exempt; it then answers that one
    request once, with [approve = false] and [rejectionMessage], and sends the
    notice only if the refusal went through.  It never approves, writes
    nothing to the store, and, while the store answers and [protectedUsers] is
    configured, never rejects. *)
Theorem join_refused_only_if_blocked (config : PluginConfig)
    (userId messageId : option string) (henv : HostEnv) (s : Site) :
  let result := run_task henv (member_request config userId messageId) s in
  let s' := result.2 in
  db (world s') = db (world s) /\
  (join_answers s' = join_answers s /\ enforcements (world s') = enforcements (world s) \/
   join_answers s' = (join_answers s ++ [(messageId, false, rejectionMessage config)])%list /\
   enableAutoReject config = true /\
   exists uid entry,
     present userId = Some uid /\
     (uid ∉ default [] (protectedUsers config)) /\
     blacklist_whitelist (db (world s)) !! uid = None /\
     blacklist_users (db (world s)) !! uid = Some entry /\
     disabled entry = false /\
     match handle_guild_request henv (host_now s) messageId false (rejectionMessage config) with
     | None => enforcements (world s') = (enforcements (world s) ++ [join_notice config uid])%list
     | Some _ => enforcements (world s') = enforcements (world s)
     end) /\
  ((forall n, store_fault (core henv) n = None) -> is_Some (protectedUsers config) ->
   result.1 = Resolved tt).
Proof.
  intros result s'. subst s' result.
  destruct (member_request_run config userId messageId henv s) as (r & s' & -> & H).
  exact H.
Qed.

(** ** Start-up *)

Lemma sync_identities_record (o : Op) (f : option JsError) (t : Tables) (w : World) :
  sync_identities (record o f t w) =
  (sync_identities w ++ match o with PostSync _ _ inst => [inst] | _ => [] end)%list.
Proof.
  unfold sync_identities. cbn [trace record]. rewrite omap_app. cbn. by destruct o.
Qed.

Lemma run_keeps_sync {A : Type} (env : Env) (p : Prog A) (w : World) :
  calls no_sync p -> sync_identities (run env p w).2 = sync_identities w.
Proof.
  intros Hp.
  apply (run_keeps env no_sync (fun w' => sync_identities w' = sync_identities w) p); auto.
  intros o w' Ho Hw'. unfold perform. destruct (answer env o w') as [r t]. cbn [snd].
  rewrite sync_identities_record, Hw'. destruct o; try apply app_nil_r. contradiction.
Qed.

Lemma upsert_batches_no_sync {A : Type} (upsert_op : list A -> Op) (fuel i : nat)
    (rows : list A) :
  (forall l, no_sync (upsert_op l)) ->
  calls no_sync (upsert_batches upsert_op fuel i rows).
Proof.
  intros Hop. revert i. induction fuel as [|fuel IH]; intros i; cbn [upsert_batches].
  - constructor.
  - repeat calls_step; try done.
Qed.

Lemma sync_identity (config : PluginConfig) (env : Env) (w : World) :
  (forall n, store_fault env n = None) ->
  sync_identities (run env (syncBlacklist config) w).2
    = (sync_identities w ++ [instance_uuid w])%list.
Proof.
  intros NF. unfold syncBlacklist, sync_attempt. rewrite run_try_catch.
  rewrite run_bind. cbn [run await]. unfold perform at 1. cbn [answer]. rewrite NF.
  cbn [store_step failure_of run].
  rewrite run_bind. cbn [run await]. unfold perform at 1. cbn [answer]. rewrite NF.
  cbn [store_step failure_of run db record].
  rewrite run_bind. cbn [run await]. unfold perform at 1. cbn [answer failure_of run].
  rewrite run_bind. cbn [run await]. unfold perform at 1. cbn [answer].
  rewrite !first_value_row_of. fold (instance_uuid w).
  match goal with |- context [post_sync env ?n ?req ?rev ?inst] =>
    destruct (post_sync env n req rev inst) as [[r|]|e] end; cbn [failure_of run].
  - match goal with |- context [run env ?p ?w0] =>
      assert (calls no_sync p) as Hp;
      [|pose proof (run_keeps_sync env p w0 Hp) as Hk; destruct (run env p w0) as [[a|e] w5]]
    end.
    + unfold full_replace, incremental, upsert_all.
      repeat calls_step; try exact I; apply upsert_batches_no_sync; intros; exact I.
    + cbn [snd] in *. rewrite Hk, !sync_identities_record. by rewrite !app_nil_r.
    + cbn [snd] in *. destruct e as [v| |]; cbn [run snd].
      * rewrite run_bind. cbn [run await]. unfold perform. cbn [answer failure_of run snd].
        rewrite sync_identities_record, Hk, !sync_identities_record. by rewrite !app_nil_r.
      * rewrite Hk, !sync_identities_record. by rewrite !app_nil_r.
      * rewrite Hk, !sync_identities_record. by rewrite !app_nil_r.
  - rewrite run_bind. cbn [run await]. unfold perform. cbn [answer failure_of run snd].
    rewrite !sync_identities_record. by rewrite !app_nil_r.
  - destruct e as [v| |]; cbn [run snd].
    + rewrite run_bind. cbn [run await]. unfold perform. cbn [answer failure_of run snd].
      rewrite !sync_identities_record. by rewrite !app_nil_r.
    + rewrite !sync_identities_record. by rewrite !app_nil_r.
    + rewrite !sync_identities_record. by rewrite !app_nil_r.
Qed.

Lemma ready_run (config : PluginConfig) (henv : HostEnv) (s : Site) :
  (forall n, store_fault (core henv) n = None) ->
  (forall n, host_store_fault henv n = None) ->
  let uuid := default (random_uuid (core henv) (1 + now (world s)))
                (instance_uuid (world s)) in
  exists r s',
    run_task henv (ready config) s = (r, s') /\
    instance_uuid (world s') = Some uuid /\
    sync_identities (world s') = (sync_identities (world s) ++ [Some uuid])%list.
Proof.
  intros NF HNF uuid. subst uuid.
  unfold ready, ensure_instance_uuid.
  rewrite !run_task_bind, run_inner. cbn [run await]. unfold perform at 1. cbn [answer].
  rewrite NF. cbn [store_step failure_of run]. fold (instance_uuid (world s)).
  destruct (instance_uuid (world s)) as [u0|] eqn:Hu; cbn [row_of default].
  - rewrite run_inner. cbn [run await world]. unfold perform at 1. cbn [answer failure_of run].
    rewrite run_inner. cbn [world snd].
    match goal with |- context [run (core henv) (syncBlacklist config) ?w0] =>
      pose proof (sync_frame config (core henv) w0) as (_ & _ & Hi & _);
      pose proof (sync_identity config (core henv) w0 NF) as Hs;
      destruct (run (core henv) (syncBlacklist config) w0) as [r w1]
    end.
    cbn [snd world] in *. eexists _, _. split; [reflexivity|]. cbn [world].
    rewrite Hi, Hs, !sync_identities_record, app_nil_r.
    unfold instance_uuid in *. cbn [db record]. rewrite Hu. by rewrite app_nil_r.
  - rewrite run_task_bind, run_inner. cbn [run await world]. unfold perform at 1.
    cbn [answer failure_of run].
    rewrite run_task_bind, run_outer. unfold host_perform at 1. unfold host_answer.
    rewrite HNF. cbn [host_store_step world db record]. unfold instance_uuid in Hu. rewrite Hu.
    cbn [failure_of run_task fst snd]. rewrite run_inner.
    cbn [run await world]. unfold perform at 1. cbn [answer failure_of run].
    rewrite run_inner. cbn [world snd].
    match goal with |- context [run (core henv) (syncBlacklist config) ?w0] =>
      pose proof (sync_frame config (core henv) w0) as (_ & _ & Hi & _);
      pose proof (sync_identity config (core henv) w0 NF) as Hs;
      destruct (run (core henv) (syncBlacklist config) w0) as [r w1]
    end.
    cbn [snd world] in *. eexists _, _. split; [reflexivity|]. cbn [world].
    rewrite Hi, Hs.
    unfold instance_uuid, sync_identities. cbn [db record trace].
    rewrite !omap_app. cbn. rewrite !app_nil_r.
    rewrite !lookup_insert_eq, length_app. cbn [List.length].
    unfold now. rewrite Nat.add_1_r. by split.
Qed.

(** X28.  Start-up gives the instance one identity and uses it.  With a
    working store, after the [ready] listener has run up to its first
    synchronisation, [instance_uuid] is stored: the value that was stored
    before if there was one (so a restart keeps the identity), a freshly drawn
    UUID otherwise; and exactly one request for the revision has been sent,
    carrying that identity.  Running it again leaves the identity as it is. *)
Theorem ready_identifies_instance (config : PluginConfig) (henv : HostEnv) (s : Site) :
  (forall n, store_fault (core henv) n = None) ->
  (forall n, host_store_fault henv n = None) ->
  let s' := (run_task henv (ready config) s).2 in
  let uuid := default (random_uuid (core henv) (1 + now (world s)))
                (instance_uuid (world s)) in
  instance_uuid (world s') = Some uuid /\
  sync_identities (world s') = (sync_identities (world s) ++ [Some uuid])%list /\
  instance_uuid (world (run_task henv (ready config) s').2) = Some uuid.
Proof.
  intros NF HNF s' uuid. subst s'.
  destruct (ready_run config henv s NF HNF) as (r & s1 & -> & H1 & H2).
  fold uuid in H1, H2. cbn [snd].
  split; [exact H1|]. split; [exact H2|].
  destruct (ready_run config henv s1 NF HNF) as (r2 & s2 & -> & H3 & _).
  cbn [snd]. unfold instance_uuid in *. rewrite H3, H1. reflexivity.
Qed.

Lemma ready_identifies_instance_witness :
  let henv := {| core := quiet; host_store_fault := fun _ => None;
                 handle_guild_request := fun _ _ _ _ => None;
                 guild_member_list := fun _ _ _ => Resolved [];
                 guild_list := fun _ _ => Resolved [] |} in
  let s := {| world := start; host_trace := [] |} in
  let s' := (run_task henv (ready (settings both [])) s).2 in
  let uuid := default (random_uuid (core henv) (1 + now (world s)))
                (instance_uuid (world s)) in
  instance_uuid (world s') = Some uuid /\
  sync_identities (world s') = (sync_identities (world s) ++ [Some uuid])%list /\
  instance_uuid (world (run_task henv (ready (settings both [])) s').2) = Some uuid.
Proof.
  intros henv s.
  apply (ready_identifies_instance (settings both []) henv s); intros n; reflexivity.
Defined.

(** ** Tasks that go on together *)

Lemma calls_inv {A : Type} (P : Op -> Prop) (p : Prog A) :
  calls P p ->
  match p with
  | Await o k => P o /\ forall r, calls P (k r)
  | ReadLock k => forall b, calls P (k b)
  | WriteLock _ _ => False
  | _ => True
  end.
Proof. by destruct 1. Qed.

Section Pools.

Context (env : Env).
Local Open Scope list_scope.

(** What every call of every task keeps, the whole keeps, in whatever order
    the tasks go on. *)
Lemma pool_keeps (P : Op -> Prop) (I : World -> Prop) (tasks : list (Prog bool))
    (w : World) (r : Result (list bool)) (w' : World) :
  (forall o w, P o -> I w -> I (perform env o w).2) ->
  Forall (calls P) tasks ->
  pool env tasks w r w' -> I w -> I w'.
Proof.
  intros Hstep Htasks Hpool. induction Hpool as
    [results w|tasks i e w Hi|tasks i o k w r w' Hi _ IH|tasks i k w r w' Hi _ IH
    |tasks i b k w r w' Hi _ IH]; intros Hw; try done.
  - pose proof (calls_inv P _ (Forall_lookup_1 _ _ _ _ Htasks Hi)) as [Ho Hk].
    apply IH; [|by apply Hstep]. apply Forall_insert; [exact Htasks|apply Hk].
  - pose proof (calls_inv P _ (Forall_lookup_1 _ _ _ _ Htasks Hi)) as Hk.
    apply IH; [|exact Hw]. apply Forall_insert; [exact Htasks|apply Hk].
  - by pose proof (calls_inv P _ (Forall_lookup_1 _ _ _ _ Htasks Hi)).
Qed.

Lemma pool_length (tasks : list (Prog bool)) (w : World) (results : list bool) (w' : World) :
  pool env tasks w (Resolved results) w' -> List.length results = List.length tasks.
Proof.
  intros Hpool. remember (Resolved results) as r eqn:Hr.
  induction Hpool as
    [results' w|tasks i e w Hi|tasks i o k w r w' Hi _ IH|tasks i k w r w' Hi _ IH
    |tasks i b k w r w' Hi _ IH]; try done.
  - injection Hr as <-. by rewrite length_fmap.
  - by rewrite IH, length_insert.
  - by rewrite IH, length_insert.
  - by rewrite IH, length_insert.
Qed.

(** There is always a way for the tasks to go on to the end: one after the
    other, for one. *)
Lemma pool_in_turn (finished : list bool) (tasks : list (Prog bool)) (w : World) :
  exists r w', pool env ((Ret <$> finished) ++ tasks) w r w'.
Proof.
  revert finished w. induction tasks as [|p tasks IH]; intros finished w.
  - rewrite app_nil_r. eexists _, _. apply pool_all.
  - assert (((Ret <$> finished) ++ p :: tasks) !! List.length finished = Some p) as Hp.
    { rewrite lookup_app_r by (rewrite length_fmap; lia).
      by rewrite length_fmap, Nat.sub_diag. }
    assert (forall q, <[List.length finished := q]> ((Ret <$> finished) ++ p :: tasks)
                      = (Ret <$> finished) ++ q :: tasks) as Hq.
    { intros q. rewrite insert_app_r_alt by (rewrite length_fmap; lia).
      by rewrite length_fmap, Nat.sub_diag. }
    revert w Hp Hq. generalize (List.length finished) as i.
    induction p as [b|e|k IHp|b k IHp|o k IHp]; intros i w Hp Hq.
    + destruct (IH (finished ++ [b]) w) as (r & w' & Hpool).
      rewrite fmap_app, <- app_assoc in Hpool. by exists r, w'.
    + eexists _, _. eapply pool_rejected, Hp.
    + destruct (IHp (isProcessingQueue w) i w) as (r & w' & Hpool).
      * rewrite <- (Hq (k (isProcessingQueue w))). apply list_lookup_insert_eq.
        by apply lookup_lt_Some in Hp.
      * intros q. rewrite <- (Hq (k (isProcessingQueue w))), list_insert_insert_eq. apply Hq.
      * exists r, w'. eapply pool_read; [exact Hp|]. by rewrite Hq.
    + destruct (IHp i (with_lock b w)) as (r & w' & Hpool).
      * rewrite <- (Hq k). apply list_lookup_insert_eq. by apply lookup_lt_Some in Hp.
      * intros q. rewrite <- (Hq k), list_insert_insert_eq. apply Hq.
      * exists r, w'. eapply pool_write; [exact Hp|]. by rewrite Hq.
    + destruct (IHp (perform env o w).1 i (perform env o w).2) as (r & w' & Hpool).
      * rewrite <- (Hq (k (perform env o w).1)). apply list_lookup_insert_eq.
        by apply lookup_lt_Some in Hp.
      * intros q. rewrite <- (Hq (k (perform env o w).1)), list_insert_insert_eq. apply Hq.
      * exists r, w'. eapply pool_call; [exact Hp|]. by rewrite Hq.
Qed.

Lemma settles_inv {A : Type} (p : Prog A) :
  settles p ->
  match p with
  | Ret _ => True
  | Throw _ => False
  | ReadLock k => forall b, settles (k b)
  | WriteLock _ k => settles k
  | Await o k => (dependable o /\ forall a, settles (k (Resolved a))) \/
                 forall r, settles (k r)
  end.
Proof. destruct 1; auto. Qed.

(** While the store answers, tasks that handle what can fail never make the
    whole reject: none is left unfinished. *)
Lemma pool_settles (tasks : list (Prog bool)) (w : World) (r : Result (list bool))
    (w' : World) :
  (forall n, store_fault env n = None) ->
  Forall settles tasks ->
  pool env tasks w r w' -> exists results, r = Resolved results.
Proof.
  intros NF Htasks Hpool. induction Hpool as
    [results w|tasks i e w Hi|tasks i o k w r w' Hi _ IH|tasks i k w r w' Hi _ IH
    |tasks i b k w r w' Hi _ IH].
  - by eexists.
  - by pose proof (settles_inv _ (Forall_lookup_1 _ _ _ _ Htasks Hi)).
  - apply IH. apply Forall_insert; [exact Htasks|].
    destruct (settles_inv _ (Forall_lookup_1 _ _ _ _ Htasks Hi)) as [[Ho Hk]|Hk].
    + destruct (dependable_resolves env o w NF Ho) as [a ->]. apply Hk.
    + apply Hk.
  - apply IH. apply Forall_insert; [exact Htasks|].
    apply (settles_inv _ (Forall_lookup_1 _ _ _ _ Htasks Hi)).
  - apply IH. apply Forall_insert; [exact Htasks|].
    apply (settles_inv _ (Forall_lookup_1 _ _ _ _ Htasks Hi)).
Qed.

(** *** Tasks left behind *)

Section Kept.

Context (P : Op -> Prop) (I : World -> Prop).
Hypothesis step : forall o w, P o -> I w -> I (perform env o w).2.

Lemma advance_keeps (tasks : list (Prog bool)) (w : World) (tasks1 : list (Prog bool))
    (w1 : World) :
  advance env tasks w tasks1 w1 ->
  Forall (calls P) tasks -> I w -> Forall (calls P) tasks1 /\ I w1.
Proof.
  intros [tasks0 i o k w0 Hi|tasks0 i k w0 Hi|tasks0 i b k w0 Hi] Htasks Hw.
  - pose proof (calls_inv P _ (Forall_lookup_1 _ _ _ _ Htasks Hi)) as [Ho Hk].
    split; [|by apply step]. apply Forall_insert; [exact Htasks|apply Hk].
  - pose proof (calls_inv P _ (Forall_lookup_1 _ _ _ _ Htasks Hi)) as Hk.
    split; [|exact Hw]. apply Forall_insert; [exact Htasks|apply Hk].
  - by pose proof (calls_inv P _ (Forall_lookup_1 _ _ _ _ Htasks Hi)).
Qed.

Lemma aside_keeps (left : list (Prog bool)) (w : World) (left' : list (Prog bool))
    (w' : World) :
  aside env left w left' w' ->
  Forall (calls P) left -> I w -> Forall (calls P) left' /\ I w'.
Proof.
  induction 1 as [left w|left w left1 w1 left' w' Hstep _ IH]; intros Hleft Hw; [done|].
  destruct (advance_keeps _ _ _ _ Hstep Hleft Hw) as [Hleft1 Hw1]. by apply IH.
Qed.

Lemma pool_beside_keeps (tasks left : list (Prog bool)) (w : World)
    (r : Result (list bool)) (left' : list (Prog bool)) (w' : World) :
  pool_beside env tasks left w r left' w' ->
  Forall (calls P) tasks -> Forall (calls P) left -> I w ->
  Forall (calls P) left' /\ I w'.
Proof.
  induction 1 as [results left w|tasks i e left w Hi
                 |tasks left w tasks1 w1 r left' w' Hstep _ IH
                 |tasks left w left1 w1 r left' w' Hstep _ IH]; intros Htasks Hleft Hw.
  - done.
  - split; [|exact Hw]. by apply Forall_app.
  - destruct (advance_keeps _ _ _ _ Hstep Htasks Hw) as [Htasks1 Hw1]. by apply IH.
  - destruct (advance_keeps _ _ _ _ Hstep Hleft Hw) as [Hleft1 Hw1]. by apply IH.
Qed.

Lemma run_beside_keeps {A : Type} (p : Prog A) (w : World) (left : list (Prog bool))
    (out : Result A * World * list (Prog bool)) :
  calls P p -> run_beside env p w left out ->
  Forall (calls P) left -> I w -> Forall (calls P) out.2 /\ I out.1.2.
Proof.
  intros Hp. revert w left.
  induction Hp as [a|e|k Hk IH|o k Ho Hk IH]; intros w left; cbn [run_beside].
  - by intros ->.
  - by intros ->.
  - apply IH.
  - intros (left1 & w1 & Haside & Hrun) Hleft Hw.
    destruct (aside_keeps _ _ _ _ Haside Hleft Hw) as [Hleft1 Hw1].
    apply (IH _ _ _ Hrun Hleft1). by apply step.
Qed.

End Kept.

(** What the tasks do when nothing is left behind is one of the things they
    can do beside tasks left behind, if those wait. *)
Lemma pool_pool_beside (tasks left : list (Prog bool)) (w : World)
    (r : Result (list bool)) (w' : World) :
  pool env tasks w r w' -> exists left', pool_beside env tasks left w r left' w'.
Proof.
  induction 1 as
    [results w|tasks i e w Hi|tasks i o k w r w' Hi _ IH|tasks i k w r w' Hi _ IH
    |tasks i b k w r w' Hi _ IH].
  - eexists. apply beside_all.
  - eexists. eapply beside_rejected, Hi.
  - destruct IH as [left' IH]. exists left'.
    eapply beside_task; [|exact IH]. by apply advance_call.
  - destruct IH as [left' IH]. exists left'.
    eapply beside_task; [|exact IH]. by apply advance_read.
  - destruct IH as [left' IH]. exists left'.
    eapply beside_task; [|exact IH]. by apply advance_write.
Qed.

Lemma run_beside_run {A : Type} (p : Prog A) (w : World) (left : list (Prog bool)) :
  run_beside env p w left ((run env p w).1, (run env p w).2, left).
Proof.
  revert w. induction p as [a|e|k IH|b k IH|o k IH]; intros w; cbn [run_beside run].
  - reflexivity.
  - reflexivity.
  - apply IH.
  - apply IH.
  - exists left, w. split; [apply aside_stay|].
    destruct (perform env o w) as [r w1]. apply IH.
Qed.

End Pools.

(** ** The scan of a guild *)

Lemma scan_batches_concat {A : Type} (fuel i : nat) (targets : list A) :
  (List.length targets <= i + fuel)%nat ->
  List.concat (scan_batches fuel i targets) = drop i targets.
Proof.
  revert i. induction fuel as [|fuel IH]; intros i Hfuel; cbn [scan_batches].
  - rewrite drop_ge by lia. reflexivity.
  - destruct (Nat.ltb_spec i (List.length targets)) as [Hi|Hi].
    + cbn [List.concat]. rewrite IH by (unfold BATCH_SIZE; lia).
      unfold slice, BATCH_SIZE.
      replace (i + 5 - i)%nat with 5%nat by lia.
      rewrite <- (drop_drop targets 5 i). apply take_drop.
    + rewrite drop_ge by lia. reflexivity.
Qed.

Lemma perform_trace (env : Env) (o : Op) (w : World) :
  exists f, trace (perform env o w).2 = (trace w ++ [mkEvent o f])%list.
Proof. unfold perform. destruct (answer env o w) as [r t]. by eexists. Qed.

Section Scans.

Context (toLowerCase : string -> string) (config : PluginConfig).

Lemma scan_steps_refl (allowed : string -> string -> Prop) (w : World) :
  scan_steps allowed w w.
Proof. split; [done|]. exists []. by rewrite app_nil_r. Qed.

Lemma scan_steps_perform (allowed : string -> string -> Prop) (env : Env) (w0 : World)
    (o : Op) (w : World) :
  scan_call allowed o -> scan_steps allowed w0 w -> scan_steps allowed w0 (perform env o w).2.
Proof.
  intros Ho (Hdb & evs & Ht & Hevs). split.
  - rewrite perform_reads_only; [exact Hdb|apply Ho].
  - destruct (perform_trace env o w) as [f ->].
    exists (evs ++ [mkEvent o f])%list. rewrite Ht, <- app_assoc. split; [done|].
    apply Forall_app. split; [exact Hevs|]. by constructor.
Qed.

Lemma examine_calls (guild : string) (m : Listed) :
  calls (scan_call (fun g u => g = guild /\ present (listed_id m) = Some u))
    (examine toLowerCase config guild m).
Proof.
  unfold examine. destruct (present (listed_id m)) as [uid|]; [|constructor].
  destruct (present (guildId (fakeSession guild))) as [g|] eqn:Hg.
  - eapply calls_weaken;
      [|apply (checkAndHandleUser_about toLowerCase config (fakeSession guild) uid)].
    intros o [Hr Ha]. split; [exact Hr|]. specialize (Ha g Hg).
    destruct o; try exact I. cbn in Ha. destruct Ha as [-> ->].
    split; [|reflexivity]. cbn in Hg. by destruct (String.eqb guild EmptyString); inversion Hg.
  - unfold checkAndHandleUser. rewrite Hg. constructor.
Qed.

Lemma batch_calls (guild : string) (targets batch : list Listed) :
  batch ⊆ targets ->
  Forall (calls (scan_call (fun g u => g = guild /\
                              exists m, m ∈ targets /\ present (listed_id m) = Some u)))
    (examine toLowerCase config guild <$> batch).
Proof.
  intros Hsub. apply Forall_fmap, Forall_forall. intros m Hm. cbn.
  eapply calls_weaken; [|apply examine_calls].
  intros o [Hr Ha]. split; [exact Hr|]. destruct o; try exact I.
  destruct Ha as [-> Hu]. split; [reflexivity|]. exists m. split; [by apply Hsub|exact Hu].
Qed.

Lemma batches_keep (env : Env) (guild : string) (targets : list Listed)
    (bs : list (list Listed)) (count : nat) (w : World) (r : Result nat) (w' : World)
    (w0 : World) :
  Forall (fun batch => batch ⊆ targets) bs ->
  batches toLowerCase env config guild bs count w r w' ->
  let allowed := fun g u => g = guild /\
                            exists m, m ∈ targets /\ present (listed_id m) = Some u in
  scan_steps allowed w0 w -> scan_steps allowed w0 w'.
Proof.
  intros Hbs Hb allowed. induction Hb as
    [count w|batch rest count w results w1 r w2 Hpool _ IH|batch rest count w e w1 Hpool];
    intros Hw; [done| |].
  - apply Forall_cons in Hbs as [Hbatch Hrest]. apply IH; [exact Hrest|].
    apply (pool_keeps env (scan_call allowed) (scan_steps allowed w0)
             (examine toLowerCase config guild <$> batch) w (Resolved results) w1);
      [intros o w3; apply scan_steps_perform|by apply batch_calls|exact Hpool|exact Hw].
  - apply Forall_cons in Hbs as [Hbatch Hrest].
    apply (pool_keeps env (scan_call allowed) (scan_steps allowed w0)
             (examine toLowerCase config guild <$> batch) w (Rejected e) w1);
      [intros o w3; apply scan_steps_perform|by apply batch_calls|exact Hpool|exact Hw].
Qed.

Lemma batches_count (env : Env) (guild : string) (bs : list (list Listed)) (count : nat)
    (w : World) (n : nat) (w' : World) :
  batches toLowerCase env config guild bs count w (Resolved n) w' ->
  (n <= count + List.length (List.concat bs))%nat.
Proof.
  intros Hb. remember (Resolved n) as r eqn:Hr. induction Hb as
    [count w|batch rest count w results w1 r w2 Hpool _ IH|batch rest count w e w1 Hpool];
    [injection Hr as ->; lia| |done].
  specialize (IH Hr). apply pool_length in Hpool. rewrite length_fmap in Hpool.
  cbn [List.concat]. rewrite length_app.
  pose proof (filter_length_le id results). lia.
Qed.

Lemma batches_exist (env : Env) (guild : string) (bs : list (list Listed)) (count : nat)
    (w : World) :
  exists r w', batches toLowerCase env config guild bs count w r w'.
Proof.
  revert count w. induction bs as [|batch rest IH]; intros count w.
  - eexists _, _. constructor.
  - destruct (pool_in_turn env [] (examine toLowerCase config guild <$> batch) w)
      as ([results|e] & w1 & Hpool); cbn [fmap list_fmap app] in Hpool.
    + destruct (IH (count + List.length (List.filter id results))%nat w1) as (r & w2 & Hb).
      exists r, w2. by eapply batches_next.
    + exists (Rejected e), w1. by eapply batches_rejected.
Qed.

Lemma examine_settles (guild : string) (m : Listed) :
  settles (examine toLowerCase config guild m).
Proof.
  unfold examine. destruct (present (listed_id m)) as [uid|]; [|constructor].
  apply checkAndHandleUser_settles.
Qed.

Lemma batches_settle (env : Env) (guild : string) (bs : list (list Listed)) (count : nat)
    (w : World) (r : Result nat) (w' : World) :
  (forall n, store_fault env n = None) ->
  batches toLowerCase env config guild bs count w r w' -> exists n, r = Resolved n.
Proof.
  intros NF Hb. induction Hb as
    [count w|batch rest count w results w1 r w2 Hpool _ IH|batch rest count w e w1 Hpool].
  - by eexists.
  - exact IH.
  - apply (pool_settles env _ _ _ _ NF) in Hpool as [results Hr]; [done|].
    apply Forall_fmap, Forall_forall. intros m _. apply examine_settles.
Qed.

End Scans.

Section Guild.

Context (toLowerCase : string -> string) (config : PluginConfig).

Lemma is_target_removable (t : Tables) (m : Listed) :
  is_target config (all_active (blacklist_users t)) (map_to_list (blacklist_whitelist t)) m
    = true ->
  exists uid, present (listed_id m) = Some uid /\ removable config t uid /\
              skipBotMembers config && listed_isBot m = false.
Proof.
  unfold is_target. destruct (present (listed_id m)) as [uid|]; [|done].
  destruct (skipBotMembers config && listed_isBot m); [done|].
  destruct (bool_decide (uid ∈ default [] (protectedUsers config))) eqn:Hp; [done|].
  destruct (bool_decide (uid ∈ (map_to_list (blacklist_whitelist t)).*1)) eqn:Hw; [done|].
  intros Hb. apply bool_decide_eq_true in Hb.
  apply bool_decide_eq_false in Hp, Hw.
  exists uid. split; [done|]. split; [|done]. split; [|split; [done|]].
  - apply list_elem_of_fmap in Hb as ([k entry] & -> & Hin).
    unfold all_active in Hin. apply list_elem_of_filter in Hin as [Hdis Hin].
    apply elem_of_map_to_list in Hin. by exists entry.
  - destruct (blacklist_whitelist t !! uid) as [x|] eqn:Hx; [|done].
    exfalso. apply Hw. apply list_elem_of_fmap. exists (uid, x). split; [done|].
    by apply elem_of_map_to_list.
Qed.

Lemma scan_listing_run (henv : HostEnv) (selfId guildId : string) (s : Site)
    (r : Result (list Listed)) (s1 : Site) :
  run_task henv (scan_listing config selfId guildId) s = (r, s1) ->
  db (world s1) = db (world s) /\ trace (world s1) = trace (world s) /\
  match r with
  | Resolved targets =>
      guild_member_list henv (host_now s) selfId guildId
        = Resolved (listed henv selfId guildId s) /\
      targets = targets_of config (db (world s)) (listed henv selfId guildId s)
  | Rejected _ => True
  end.
Proof.
  unfold scan_listing, listed. rewrite run_task_bind.
  unfold outer at 1. cbn [run_task]. unfold host_perform at 1. cbn [host_answer].
  destruct (guild_member_list henv (host_now s) selfId guildId) as [members|e].
  2: { cbn [settled run_task]. intros [= <- <-]. by cbn. }
  cbn [failure_of settled run_task]. rewrite run_task_bind.
  unfold outer at 1. cbn [run_task]. unfold host_perform at 1. unfold host_answer.
  match goal with |- context [host_store_fault henv ?n] =>
    destruct (host_store_fault henv n) as [e|] end.
  { cbn [settled run_task]. intros [= <- <-]. by cbn. }
  cbn [host_store_step failure_of world db settled run_task]. rewrite run_task_bind.
  unfold outer at 1. cbn [run_task]. unfold host_perform at 1. unfold host_answer.
  match goal with |- context [host_store_fault henv ?n] =>
    destruct (host_store_fault henv n) as [e|] end.
  { cbn [settled run_task]. intros [= <- <-]. by cbn. }
  cbn [host_store_step failure_of world db settled run_task]. intros [= <- <-]. by cbn.
Qed.

Lemma scanGuild_steps (henv : HostEnv) (selfId guildId : string) (s : Site)
    (result : Scan) (s' : Site) :
  scanGuild toLowerCase henv config selfId guildId s result s' ->
  scanned (scan_may_remove config (db (world s)) (listed henv selfId guildId s) guildId) s s' /\
  (scan_handled result <= scan_total result)%nat /\
  match scan_error result with
  | Some _ => scan_handled result = 0%nat /\ scan_total result = 0%nat
  | None =>
      scan_total result
        = List.length (targets_of config (db (world s)) (listed henv selfId guildId s))
  end.
Proof.
  set (allowed := scan_may_remove config (db (world s)) (listed henv selfId guildId s) guildId).
  assert (forall s1, db (world s1) = db (world s) -> trace (world s1) = trace (world s) ->
            scanned allowed s s1) as Hquiet.
  { intros s1 Hdb Ht. split; [exact Hdb|]. exists []. by rewrite Ht, app_nil_r. }
  assert (forall targets s1 r w2,
            run_task henv (scan_listing config selfId guildId) s = (Resolved targets, s1) ->
            batches toLowerCase (core henv) config guildId
              (scan_batches (List.length targets) 0 targets) 0 (world s1) r w2 ->
            scan_steps allowed (world s) w2 /\
            targets = targets_of config (db (world s)) (listed henv selfId guildId s) /\
            forall n, r = Resolved n -> (n <= List.length targets)%nat) as Hrun.
  { intros targets s1 r w2 Hl Hb.
    destruct (scan_listing_run henv selfId guildId s _ _ Hl) as (Hdb & Ht & _ & Htargets).
    split; [|split; [exact Htargets|]].
    - destruct (batches_keep toLowerCase config (core henv) guildId targets
                  (scan_batches (List.length targets) 0 targets) 0%nat (world s1) r w2
                  (world s1)) as (Hdb2 & evs & Ht2 & Hevs).
      { apply Forall_forall. intros batch Hbatch m Hm.
        assert (m ∈ List.concat (scan_batches (List.length targets) 0 targets)) as Hin.
        { apply list_elem_of_In, in_concat. exists batch. by rewrite <- !list_elem_of_In. }
        rewrite scan_batches_concat in Hin by lia. exact Hin. }
      { exact Hb. }
      { apply scan_steps_refl. }
      split; [by rewrite Hdb2|]. exists evs. rewrite Ht2, Ht. split; [done|].
      eapply Forall_impl; [exact Hevs|]. intros ev [Hr Ha]. split; [exact Hr|].
      destruct (call ev); try exact I. destruct Ha as (-> & m & Hm & Hu).
      rewrite Htargets in Hm. unfold targets_of in Hm.
      apply list_elem_of_In, filter_In in Hm as [Hm Ht'].
      destruct (is_target_removable (db (world s)) m Ht') as (uid & Hu' & Hrem & Hbot).
      rewrite Hu in Hu'. injection Hu' as <-.
      split; [reflexivity|]. split; [exact Hrem|]. exists m.
      by rewrite list_elem_of_In.
    - intros n ->. apply batches_count in Hb.
      rewrite scan_batches_concat in Hb by lia. cbn in Hb. exact Hb. }
  intros Hscan.
  destruct Hscan as [e s1 Hl|s1 Hl|targets s1 count w2 Hl Hne Hb|targets s1 e w2 Hl Hne Hb].
  - destruct (scan_listing_run henv selfId guildId s _ _ Hl) as (Hdb & Ht & _).
    split; [by apply Hquiet|]. by cbn.
  - destruct (scan_listing_run henv selfId guildId s _ _ Hl) as (Hdb & Ht & _ & Htargets).
    split; [by apply Hquiet|]. cbn. split; [lia|]. by rewrite <- Htargets.
  - destruct (Hrun targets s1 _ w2 Hl Hb) as (Hsteps & Htargets & Hcount).
    split; [exact Hsteps|]. cbn. split; [by apply Hcount|]. by rewrite <- Htargets.
  - destruct (Hrun targets s1 _ w2 Hl Hb) as (Hsteps & _ & _).
    split; [exact Hsteps|]. by cbn.
Qed.

Lemma scanGuild_returns (henv : HostEnv) (selfId guildId : string) (s : Site) :
  exists result s', scanGuild toLowerCase henv config selfId guildId s result s'.
Proof.
  destruct (run_task henv (scan_listing config selfId guildId) s) as [[targets|e] s1] eqn:Hl.
  - destruct targets as [|m targets'] eqn:Ht.
    + eexists _, _. by apply scan_no_target.
    + rewrite <- Ht in *.
      destruct (batches_exist toLowerCase config (core henv) guildId
                  (scan_batches (List.length targets) 0 targets) 0%nat (world s1))
        as ([count|e] & w2 & Hb).
      * eexists _, _. eapply scan_through; [exact Hl|by rewrite Ht|exact Hb].
      * eexists _, _. eapply scan_interrupted; [exact Hl|by rewrite Ht|exact Hb].
  - eexists _, _. by apply scan_unlisted.
Qed.

Lemma scanGuild_failure (henv : HostEnv) (selfId guildId : string) (s : Site)
    (result : Scan) (s' : Site) :
  (forall n, store_fault (core henv) n = None) ->
  scanGuild toLowerCase henv config selfId guildId s result s' ->
  scan_error result <> None ->
  exists e, run_task henv (scan_listing config selfId guildId) s = (Rejected e, s').
Proof.
  intros NF Hscan Herr.
  destruct Hscan as [e s1 Hl|s1 Hl|targets s1 count w2 Hl Hne Hb|targets s1 e w2 Hl Hne Hb];
    cbn in Herr; try done.
  - by exists e.
  - by destruct (batches_settle toLowerCase config _ _ _ _ _ _ _ NF Hb).
Qed.

End Guild.

(** X29.  [scanGuild] always returns, in whatever order the members of a batch
    are dealt with, and however it goes, up to its return it writes nothing
    to the store and attempts to remove nobody but listed members of the scanned guild that
    have a block entry that is not disabled and are neither protected nor
    exempt (and are no bots when [skipBotMembers] is set).  What it returns
    has [handled <= total]; with an error both are zero, even if members were
    removed before the failure, and without an error [total] is the number of
    listed members that pass the filter.  While the store answers the calls
    of [checkAndHandleUser], an error can only come from the listing (the
    member list or the reading of the two lists), and then no member was
    examined. *)
Theorem scanGuild_removes_only_targets (toLowerCase : string -> string)
    (config : PluginConfig) (henv : HostEnv) (selfId guildId : string) (s : Site) :
  (exists result s', scanGuild toLowerCase henv config selfId guildId s result s') /\
  (forall result s',
     scanGuild toLowerCase henv config selfId guildId s result s' ->
     scanned (scan_may_remove config (db (world s)) (listed henv selfId guildId s) guildId)
       s s' /\
     (scan_handled result <= scan_total result)%nat /\
     match scan_error result with
     | Some _ => scan_handled result = 0%nat /\ scan_total result = 0%nat
     | None =>
         scan_total result
           = List.length (targets_of config (db (world s)) (listed henv selfId guildId s))
     end /\
     ((forall n, store_fault (core henv) n = None) -> scan_error result <> None ->
      exists e, run_task henv (scan_listing config selfId guildId) s = (Rejected e, s'))).
Proof.
  split; [apply scanGuild_returns|]. intros result s' Hscan.
  destruct (scanGuild_steps toLowerCase config henv selfId guildId s result s' Hscan)
    as (Hsteps & Hle & Herr).
  repeat split; [apply Hsteps|apply Hsteps|exact Hle|exact Herr|].
  intros NF Herr'.
  exact (scanGuild_failure toLowerCase config henv selfId guildId s result s' NF Hscan Herr').
Qed.

(** ** The scan of all guilds *)

Section AllGuilds.

Context (toLowerCase : string -> string) (config : PluginConfig) (henv : HostEnv).

Lemma scan_steps_eta (allowed : string -> string -> Prop) (w0 w : World) (b : bool) :
  scan_steps allowed w0 w ->
  scan_steps allowed w0 {| db := db w; isProcessingQueue := b; trace := trace w |}.
Proof. intros H. exact H. Qed.

Lemma aside_scan (allowed : string -> string -> Prop) (w0 : World)
    (left : list (Prog bool)) (w : World) (left' : list (Prog bool)) (w' : World) :
  aside (core henv) left w left' w' ->
  Forall (calls (scan_call allowed)) left -> scan_steps allowed w0 w ->
  Forall (calls (scan_call allowed)) left' /\ scan_steps allowed w0 w'.
Proof.
  apply (aside_keeps (core henv) (scan_call allowed) (scan_steps allowed w0)).
  intros o w1. apply scan_steps_perform.
Qed.

Lemma listing_beside (selfId guildId : string) (s : Site) (left : list (Prog bool))
    (w0 : World) (r : Result (list Listed)) (s1 : Site) (left1 : list (Prog bool)) :
  let allowed := may_remove config (db w0) in
  task_beside henv (scan_listing config selfId guildId) s left (r, s1, left1) ->
  scan_steps allowed w0 (world s) -> Forall (calls (scan_call allowed)) left ->
  scan_steps allowed w0 (world s1) /\ Forall (calls (scan_call allowed)) left1 /\
  match r with
  | Resolved targets =>
      forall m, m ∈ targets ->
        exists uid, present (listed_id m) = Some uid /\ removable config (db w0) uid
  | Rejected _ => True
  end.
Proof.
  intros allowed. unfold scan_listing. cbn.
  intros (left2 & w1 & Ha1 & H) Hw Hleft.
  destruct (aside_scan allowed w0 _ _ _ _ Ha1 Hleft Hw) as [Hleft2 Hw1].
  destruct (guild_member_list henv _ selfId guildId) as [members|e]; cbn in H.
  2: { injection H as -> -> ->. split; [exact Hw1|split; [exact Hleft2|exact I]]. }
  destruct H as (left3 & w2 & Ha2 & H).
  destruct (aside_scan allowed w0 _ _ _ _ Ha2 Hleft2 (scan_steps_eta _ _ _ _ Hw1))
    as [Hleft3 Hw2].
  unfold host_perform, host_answer in H.
  destruct (host_store_fault henv _) as [e|]; cbn in H.
  { injection H as -> -> ->. split; [exact Hw2|split; [exact Hleft3|exact I]]. }
  destruct H as (left4 & w3 & Ha3 & H).
  destruct (aside_scan allowed w0 _ _ _ _ Ha3 Hleft3 (scan_steps_eta _ _ _ _ Hw2))
    as [Hleft4 Hw3].
  unfold host_perform, host_answer in H.
  destruct (host_store_fault henv _) as [e|]; cbn in H.
  { injection H as -> -> ->. split; [exact Hw3|split; [exact Hleft4|exact I]]. }
  injection H as -> -> ->. split; [exact Hw3|]. split; [exact Hleft4|].
  intros m Hm. apply list_elem_of_In, filter_In in Hm as [_ Hm].
  destruct Hw2 as [Hdb2 _]. destruct Hw3 as [Hdb3 _].
  rewrite Hdb2, Hdb3 in Hm.
  destruct (is_target_removable config (db w0) m Hm) as (uid & Hu & Hrem & _).
  by exists uid.
Qed.
Lemma scan_steps_trans (allowed : string -> string -> Prop) (w0 w1 w2 : World) :
  scan_steps allowed w0 w1 -> scan_steps allowed w1 w2 -> scan_steps allowed w0 w2.
Proof.
  intros (Hdb1 & evs1 & Ht1 & H1) (Hdb2 & evs2 & Ht2 & H2). split; [congruence|].
  exists (evs1 ++ evs2)%list. rewrite Ht2, Ht1, <- app_assoc. split; [done|].
  by apply Forall_app.
Qed.

Lemma scan_steps_weaken (allowed allowed' : string -> string -> Prop) (w w' : World) :
  (forall g u, allowed g u -> allowed' g u) ->
  scan_steps allowed w w' -> scan_steps allowed' w w'.
Proof.
  intros Hweak (Hdb & evs & Ht & Hevs). split; [exact Hdb|]. exists evs. split; [exact Ht|].
  eapply Forall_impl; [exact Hevs|]. intros ev [Hr Ha]. split; [exact Hr|].
  destruct (call ev); try exact I. by apply Hweak.
Qed.

Lemma log_run (level : Level) (s : Site) :
  exists s1, run_task henv (inner (await (Log level))) s = (Resolved tt, s1) /\
             forall allowed, scan_steps allowed (world s) (world s1).
Proof.
  rewrite run_inner. cbn [run await]. unfold perform. cbn [answer failure_of run].
  eexists. split; [reflexivity|]. intros allowed. cbn [world]. split; [done|].
  eexists [_]. split; [reflexivity|]. by repeat constructor.
Qed.

Lemma log_steps (level : Level) (s s1 : Site) (allowed : string -> string -> Prop) :
  run_task henv (inner (await (Log level))) s = (Resolved tt, s1) ->
  scan_steps allowed (world s) (world s1).
Proof.
  destruct (log_run level s) as (s2 & -> & Hsteps). intros [= <-]. apply Hsteps.
Qed.

Lemma guild_list_beside (selfId : string) (s : Site) (left : list (Prog bool))
    (allowed : string -> string -> Prop) (w0 : World)
    (r : Result (list string)) (s1 : Site) (left1 : list (Prog bool)) :
  task_beside henv (outer (GetGuildList selfId)) s left (r, s1, left1) ->
  scan_steps allowed w0 (world s) -> Forall (calls (scan_call allowed)) left ->
  scan_steps allowed w0 (world s1) /\ Forall (calls (scan_call allowed)) left1.
Proof.
  unfold outer. cbn. intros (left2 & w1 & Ha & H) Hw Hleft.
  destruct (aside_scan allowed w0 _ _ _ _ Ha Hleft Hw) as [Hleft2 Hw1].
  destruct (guild_list henv _ selfId) as [guilds|e]; cbn in H;
    injection H as -> -> ->; by split.
Qed.

Lemma examine_allowed (guild : string) (batch : list Listed) (w0 : World) :
  (forall m, m ∈ batch ->
     exists uid, present (listed_id m) = Some uid /\ removable config (db w0) uid) ->
  Forall (calls (scan_call (may_remove config (db w0))))
    (examine toLowerCase config guild <$> batch).
Proof.
  intros Hbatch. apply Forall_fmap, Forall_forall. intros m Hm. cbn.
  eapply calls_weaken; [|apply examine_calls].
  intros o [Hr Ha]. split; [exact Hr|]. destruct o; try exact I.
  destruct Ha as [_ Hu]. destruct (Hbatch m Hm) as (uid & Hu' & Hrem).
  rewrite Hu in Hu'. injection Hu' as <-. exact Hrem.
Qed.

Lemma batches_beside_keep (guild : string) (targets : list Listed)
    (bs : list (list Listed)) (count : nat) (left : list (Prog bool)) (w : World)
    (r : Result nat) (left' : list (Prog bool)) (w' : World) (w0 : World) :
  let allowed := may_remove config (db w0) in
  (forall m, m ∈ targets ->
     exists uid, present (listed_id m) = Some uid /\ removable config (db w0) uid) ->
  Forall (fun batch => batch ⊆ targets) bs ->
  batches_beside toLowerCase (core henv) config guild bs count left w r left' w' ->
  Forall (calls (scan_call allowed)) left -> scan_steps allowed w0 w ->
  Forall (calls (scan_call allowed)) left' /\ scan_steps allowed w0 w'.
Proof.
  intros allowed Htargets Hbs Hb. induction Hb as
    [count left w|batch rest count left w results left1 w1 r left2 w2 Hpool _ IH
    |batch rest count left w e left1 w1 Hpool]; intros Hleft Hw; [done| |].
  - apply Forall_cons in Hbs as [Hbatch Hrest].
    destruct (pool_beside_keeps (core henv) (scan_call allowed) (scan_steps allowed w0)
                (fun o w3 => scan_steps_perform allowed (core henv) w0 o w3)
                _ _ _ _ _ _ Hpool) as [Hleft1 Hw1]; [|exact Hleft|exact Hw|by apply IH].
    apply examine_allowed. intros m Hm. apply Htargets, Hbatch, Hm.
  - apply Forall_cons in Hbs as [Hbatch Hrest].
    apply (pool_beside_keeps (core henv) (scan_call allowed) (scan_steps allowed w0)
             (fun o w3 => scan_steps_perform allowed (core henv) w0 o w3)
             _ _ _ _ _ _ Hpool); [|exact Hleft|exact Hw].
    apply examine_allowed. intros m Hm. apply Htargets, Hbatch, Hm.
Qed.

Lemma batches_beside_exist (guild : string) (bs : list (list Listed)) (count : nat)
    (left : list (Prog bool)) (w : World) :
  exists r left' w',
    batches_beside toLowerCase (core henv) config guild bs count left w r left' w'.
Proof.
  revert count left w. induction bs as [|batch rest IH]; intros count left w.
  - eexists _, _, _. constructor.
  - destruct (pool_in_turn (core henv) [] (examine toLowerCase config guild <$> batch) w)
      as (r & w1 & Hpool); cbn [fmap list_fmap app] in Hpool.
    destruct (pool_pool_beside (core henv) _ left _ _ _ Hpool) as [left1 Hbeside].
    destruct r as [results|e].
    + destruct (IH (count + List.length (List.filter id results))%nat left1 w1)
        as (r & left2 & w2 & Hb).
      exists r, left2, w2. by eapply batches_beside_next.
    + exists (Rejected e), left1, w1. by eapply batches_beside_rejected.
Qed.

Lemma batch_of_targets {A : Type} (targets : list A) :
  Forall (fun batch => batch ⊆ targets) (scan_batches (List.length targets) 0 targets).
Proof.
  apply Forall_forall. intros batch Hbatch m Hm.
  assert (m ∈ List.concat (scan_batches (List.length targets) 0 targets)) as Hin.
  { apply list_elem_of_In, in_concat. exists batch. by rewrite <- !list_elem_of_In. }
  rewrite scan_batches_concat in Hin by lia. exact Hin.
Qed.

(** Whatever a scan of a guild finds under way, and however it goes, the
    calls made until it returns and the examinations under way then remove
    only whom the store allows. *)
Lemma scanGuild_beside_keeps (selfId guildId : string) (s : Site) (left : list (Prog bool))
    (result : Scan) (s' : Site) (left' : list (Prog bool)) (w0 : World) :
  let allowed := may_remove config (db w0) in
  scanGuild_beside toLowerCase henv config selfId guildId s left result s' left' ->
  scan_steps allowed w0 (world s) -> Forall (calls (scan_call allowed)) left ->
  scan_steps allowed w0 (world s') /\ Forall (calls (scan_call allowed)) left'.
Proof.
  intros allowed Hscan Hw Hleft.
  destruct Hscan as [e s1 left1 Hl|s1 left1 Hl|targets s1 left1 count left2 w2 Hl Hne Hb
                    |targets s1 left1 e left2 w2 Hl Hne Hb];
    destruct (listing_beside selfId guildId s left w0 _ s1 left1 Hl Hw Hleft)
      as (Hw1 & Hleft1 & Htargets); try done.
  - destruct (batches_beside_keep guildId targets _ _ _ _ _ _ _ w0 Htargets
                (batch_of_targets targets) Hb Hleft1 Hw1) as [Hleft2 Hw2]. by split.
  - destruct (batches_beside_keep guildId targets _ _ _ _ _ _ _ w0 Htargets
                (batch_of_targets targets) Hb Hleft1 Hw1) as [Hleft2 Hw2]. by split.
Qed.

Lemma task_beside_run {A : Type} (t : Task A) (s : Site) (left : list (Prog bool)) :
  task_beside henv t s left ((run_task henv t s).1, (run_task henv t s).2, left).
Proof.
  revert s. induction t as [a|e|X p k IH|o k IH]; intros s; cbn [task_beside run_task].
  - reflexivity.
  - reflexivity.
  - exists (run (core henv) p (world s)).1, (run (core henv) p (world s)).2, left.
    split; [apply run_beside_run|].
    destruct (run (core henv) p (world s)) as [r w1]. apply IH.
  - exists left, (world s). split; [apply aside_stay|].
    destruct s as [w ht]. cbn [world host_trace].
    destruct (host_perform henv o {| world := w; host_trace := ht |}) as [r s2]. apply IH.
Qed.

Lemma scanGuild_beside_returns (selfId guildId : string) (s : Site)
    (left : list (Prog bool)) :
  exists result s' left',
    scanGuild_beside toLowerCase henv config selfId guildId s left result s' left'.
Proof.
  pose proof (task_beside_run (scan_listing config selfId guildId) s left) as Hl.
  destruct (run_task henv (scan_listing config selfId guildId) s) as [[targets|e] s1].
  - destruct targets as [|m targets'] eqn:Ht.
    + eexists _, _, _. by apply beside_no_target.
    + rewrite <- Ht in *.
      destruct (batches_beside_exist guildId (scan_batches (List.length targets) 0 targets)
                  0%nat left (world s1)) as ([count|e] & left2 & w2 & Hb).
      * eexists _, _, _. eapply beside_through; [exact Hl|by rewrite Ht|exact Hb].
      * eexists _, _, _. eapply beside_interrupted; [exact Hl|by rewrite Ht|exact Hb].
  - eexists _, _, _. by apply beside_unlisted.
Qed.

(** A scan that is called once, with nothing under way, is one of the scans
    beside nothing. *)
Lemma scanGuild_alone (selfId guildId : string) (s : Site) (result : Scan) (s' : Site) :
  scanGuild toLowerCase henv config selfId guildId s result s' ->
  exists left', scanGuild_beside toLowerCase henv config selfId guildId s [] result s' left'.
Proof.
  assert (forall bs count w r w',
            batches toLowerCase (core henv) config guildId bs count w r w' ->
            forall left, exists left',
              batches_beside toLowerCase (core henv) config guildId bs count left w r left' w')
    as Hbatches.
  { induction 1 as [count w|batch rest count w results w1 r w2 Hpool _ IH
                   |batch rest count w e w1 Hpool]; intros left.
    - eexists. constructor.
    - destruct (pool_pool_beside (core henv) _ left _ _ _ Hpool) as [left1 Hbeside].
      destruct (IH left1) as [left2 Hrest]. exists left2. by eapply batches_beside_next.
    - destruct (pool_pool_beside (core henv) _ left _ _ _ Hpool) as [left1 Hbeside].
      exists left1. by eapply batches_beside_rejected. }
  assert (forall r s1, run_task henv (scan_listing config selfId guildId) s = (r, s1) ->
            task_beside henv (scan_listing config selfId guildId) s [] (r, s1, [])) as Hlisting.
  { intros r s1 Hl.
    pose proof (task_beside_run (scan_listing config selfId guildId) s []) as H.
    by rewrite Hl in H. }
  intros [e s1 Hl|s1 Hl|targets s1 count w2 Hl Hne Hb|targets s1 e w2 Hl Hne Hb].
  - eexists. apply beside_unlisted, Hlisting, Hl.
  - eexists. apply beside_no_target, Hlisting, Hl.
  - destruct (Hbatches _ _ _ _ _ Hb []) as [left2 Hb2]. exists left2.
    eapply beside_through; [apply Hlisting, Hl|exact Hne|exact Hb2].
  - destruct (Hbatches _ _ _ _ _ Hb []) as [left2 Hb2]. exists left2.
    eapply beside_interrupted; [apply Hlisting, Hl|exact Hne|exact Hb2].
Qed.

Lemma scan_guilds_keep (selfId : string) (guilds : list string) (s : Site)
    (left : list (Prog bool)) (s' : Site) (left' : list (Prog bool)) (w0 : World) :
  let allowed := may_remove config (db w0) in
  scan_guilds toLowerCase henv config selfId guilds s left s' left' ->
  scan_steps allowed w0 (world s) -> Forall (calls (scan_call allowed)) left ->
  scan_steps allowed w0 (world s') /\ Forall (calls (scan_call allowed)) left'.
Proof.
  intros allowed.
  induction 1 as [s left|guild rest s left result s1 left1 s2 s3 left3 Hscan Hlog _ IH];
    intros Hw Hleft; [done|].
  destruct (scanGuild_beside_keeps selfId guild s left result s1 left1 w0 Hscan Hw Hleft)
    as [Hw1 Hleft1].
  apply IH; [|exact Hleft1].
  eapply scan_steps_trans; [exact Hw1|].
  destruct (0 <? scan_handled result)%nat; [by eapply log_steps|].
  injection Hlog as <-. apply scan_steps_refl.
Qed.

Lemma scan_guilds_return (selfId : string) (guilds : list string) (s : Site)
    (left : list (Prog bool)) :
  exists s' left', scan_guilds toLowerCase henv config selfId guilds s left s' left'.
Proof.
  revert s left. induction guilds as [|guild rest IH]; intros s left.
  - eexists _, _. constructor.
  - destruct (scanGuild_beside_returns selfId guild s left) as (result & s1 & left1 & Hscan).
    assert (exists s2,
              run_task henv (if (0 <? scan_handled result)%nat then inner (await (Log info))
                             else Finish tt) s1 = (Resolved tt, s2)) as (s2 & Hlog).
    { destruct (0 <? scan_handled result)%nat; [|by eexists].
      destruct (log_run info s1) as (s2 & Hlog & _). by exists s2. }
    destruct (IH s2 left1) as (s3 & left3 & Hrest). exists s3, left3.
    by eapply scan_guilds_next.
Qed.

Lemma scan_bots_keep (bots : list string) (s : Site) (left : list (Prog bool))
    (s' : Site) (left' : list (Prog bool)) (w0 : World) :
  let allowed := may_remove config (db w0) in
  scan_bots toLowerCase henv config bots s left s' left' ->
  scan_steps allowed w0 (world s) -> Forall (calls (scan_call allowed)) left ->
  scan_steps allowed w0 (world s') /\ Forall (calls (scan_call allowed)) left'.
Proof.
  intros allowed.
  induction 1 as [s left|selfId rest s left guilds s1 left1 s2 left2 s3 left3 Hlist Hscan _ IH
                 |selfId rest s left e s1 left1 s2 s3 left3 Hlist Hlog _ IH];
    intros Hw Hleft; [done| |].
  - destruct (guild_list_beside selfId s left allowed w0 _ s1 left1 Hlist Hw Hleft)
      as [Hw1 Hleft1].
    destruct (scan_guilds_keep selfId guilds s1 left1 s2 left2 w0 Hscan Hw1 Hleft1)
      as [Hw2 Hleft2].
    by apply IH.
  - destruct (guild_list_beside selfId s left allowed w0 _ s1 left1 Hlist Hw Hleft)
      as [Hw1 Hleft1].
    apply IH; [|exact Hleft1].
    eapply scan_steps_trans; [exact Hw1|]. by eapply log_steps.
Qed.

Lemma scan_bots_return (bots : list string) (s : Site) (left : list (Prog bool)) :
  exists s' left', scan_bots toLowerCase henv config bots s left s' left'.
Proof.
  revert s left. induction bots as [|selfId rest IH]; intros s left.
  - eexists _, _. constructor.
  - pose proof (task_beside_run (outer (GetGuildList selfId)) s left) as Hlist.
    destruct (run_task henv (outer (GetGuildList selfId)) s) as [[guilds|e] s1].
    + destruct (scan_guilds_return selfId guilds s1 left) as (s2 & left2 & Hscan).
      destruct (IH s2 left2) as (s3 & left3 & Hrest). exists s3, left3.
      by eapply scan_bots_next.
    + destruct (log_run warn s1) as (s2 & Hlog & _).
      destruct (IH s2 left) as (s3 & left3 & Hrest). exists s3, left3.
      by eapply scan_bots_skip.
Qed.

End AllGuilds.

(** X30.  [scanAllGuilds] always returns: a bot whose guilds cannot be listed
    is skipped and a guild whose scan fails does not stop the others.
    However it goes, also when a scan fails and leaves examinations under
    way beside the scans that follow, it writes nothing to the store, and
    whoever it attempts to remove, in whatever guild, has a block entry that
    is not disabled and is neither protected nor exempt; and the examinations
    still under way when it returns can do no other. *)
Theorem scanAllGuilds_removes_only_blocked (toLowerCase : string -> string)
    (config : PluginConfig) (henv : HostEnv) (bots : list string) (s : Site) :
  (exists s' left', scanAllGuilds toLowerCase henv config bots s s' left') /\
  (forall s' left',
     scanAllGuilds toLowerCase henv config bots s s' left' ->
     scanned (fun g u => removable config (db (world s)) u) s s' /\
     Forall (calls (scan_call (fun g u => removable config (db (world s)) u))) left').
Proof.
  split.
  - destruct (log_run henv info s) as (s1 & Hlog1 & _).
    destruct (scan_bots_return toLowerCase config henv bots s1 []) as (s2 & left2 & Hscan).
    destruct (log_run henv info s2) as (s3 & Hlog3 & _).
    exists s3, left2, s1, s2. by repeat split.
  - intros s' left' (s1 & s2 & Hlog1 & Hscan & Hlog3).
    pose proof (log_steps henv info s s1 (may_remove config (db (world s))) Hlog1) as H1.
    destruct (scan_bots_keep toLowerCase config henv bots s1 [] s2 left' (world s) Hscan H1)
      as [H2 Hleft]; [constructor|].
    split; [|exact Hleft].
    unfold scanned. eapply scan_steps_trans; [exact H2|].
    destruct H2 as [Hdb _].
    pose proof (log_steps henv info s2 s' (may_remove config (db (world s2))) Hlog3) as H3.
    rewrite Hdb in H3. exact H3.
Qed.

(** A scan of all guilds comes to a blocked member of the one guild of the
    one bot and removes it. *)
Example scan_removes_blocked :
  let henv := {| core := quiet; host_store_fault := fun _ => None;
                 handle_guild_request := fun _ _ _ _ => None;
                 guild_member_list := fun _ _ _ =>
                   Resolved [{| listed_id := Some "alice"; listed_isBot := false |};
                             {| listed_id := Some "carol"; listed_isBot := false |}];
                 guild_list := fun _ _ => Resolved ["g1"] |} in
  let s := {| world := alice_blocked; host_trace := [] |} in
  exists s' left',
    scanAllGuilds (fun a => a) henv (settings kick []) ["bot"] s s' left' /\
    enforcements (world s') = [KickGuildMember "g1" "alice"] /\ left' = [].
Proof.
  intros henv s. eexists _, _. split; [|split].
  - eexists _, _. split; [reflexivity|]. split; [|reflexivity].
    eapply scan_bots_next.
    + cbn. eexists _, _. split; [apply aside_stay|]. reflexivity.
    + eapply scan_guilds_next.
      * eapply beside_through.
        -- cbn. eexists _, _. split; [apply aside_stay|].
           cbn. eexists _, _. split; [apply aside_stay|].
           cbn. eexists _, _. split; [apply aside_stay|].
           vm_compute. reflexivity.
        -- discriminate.
        -- eapply batches_beside_next; [|apply batches_beside_done].
           vm_compute.
           repeat (eapply beside_task;
                   [eapply (advance_call _ _ 0); reflexivity|vm_compute]).
           apply (beside_all _ [true]).
      * reflexivity.
      * apply scan_guilds_done.
    + apply scan_bots_done.
  - vm_compute. reflexivity.
  - reflexivity.
Qed.

(** ** Checks on small inputs *)

Example replace_first_only :
  replace "{user} and {user}" "{user}" "bob" = "bob and {user}".
Proof. reflexivity. Qed.

Example replace_expands_dollar :
  replace "cannot remove {user}" "{user}" "$& $$" = "cannot remove {user} $".
Proof. reflexivity. Qed.

Example failMsg_rendered :
  failMsg (settings kick []) "alice" forbidden = "cannot remove alice: Error: permission denied".
Proof. reflexivity. Qed.

Example classification :
  isNetworkError unreachable = true /\ isNetworkError refused = false /\
  isNetworkError duplicate_key = true.
Proof. by vm_compute. Qed.

(** The oldest first, whatever the keys. *)
Example oldest_by_creation :
  oldest (fun _ => 0) 1 (queue backlog) = [(JStr "old", request 1 6)].
Proof. by vm_compute. Qed.

(** Requests created at the same time come in the store's own order. *)
Example oldest_among_equals :
  let q : gmap jval OfflineRequest := <[JStr "a" := request 1 0]> {[ JStr "b" := request 1 0 ]} in
  oldest (fun k => if decide (k = JStr "a") then 2 else 1) 1 q = [(JStr "b", request 1 0)] /\
  oldest (fun k => if decide (k = JStr "a") then 1 else 2) 1 q = [(JStr "a", request 1 0)].
Proof. by vm_compute. Qed.

(** A budget of 2.5 attempts gives three: the counters 0, 1 and 2 are below
    it. *)
Example fractional_budget :
  let config := with_retryAttempts (5 # 2) (settings kick []) in
  let result := run (rejecting forbidden)
                  (checkAndHandleUser (fun s => s) config in_guild "alice") alice_blocked in
  result.1 = Resolved false /\
  enforcements result.2 =
    [KickGuildMember "g1" "alice"; KickGuildMember "g1" "alice";
     KickGuildMember "g1" "alice";
     SessionSend (Plain "cannot remove alice: Error: permission denied")].
Proof. by vm_compute. Qed.

(** A failure that is [undefined] is told so in the failure notice. *)
Example failMsg_undefined :
  failMsg (settings kick []) "alice" Undefined = "cannot remove alice: undefined".
Proof. reflexivity. Qed.

(** 250 delivered rows are written in batches of 100, 100 and 50. *)
Example full_replace_in_batches :
  let r := {| strategy := "full_replace"; newRevision := "r1";
              data := DataArray (repeat scenario_row 250) |} in
  let w' := (run (answering r) (syncBlacklist (settings both [])) start).2 in
  omap (fun ev => match call ev with
                  | UsersUpsert rows => Some (List.length rows)
                  | _ => None
                  end) (trace w') = [100; 100; 50]%nat.
Proof. by vm_compute. Qed.

(** An admin is spared: no message, no removal, result [false]. *)
Example admin_spared :
  let env := {| store_fault := fun _ => None;
                queue_order := fun _ _ => 0;
                post_sync := fun _ _ _ _ => Resolved None;
                post_applications := fun _ _ _ => None;
                guild_member := fun _ _ _ =>
                  Resolved (Some {| nick := "Alice"; name := "alice"; roles := ["admin"] |});
                kick_member := fun _ _ _ => None;
                session_send := fun _ _ => None;
                random_uuid := fun _ => "fresh-uuid";
                clock := fun _ => 0 |} in
  let result := run env (checkAndHandleUser (fun s => s) (settings both []) in_guild "alice")
                  alice_blocked in
  result.1 = Resolved false /\ enforcements result.2 = [].
Proof. by vm_compute. Qed.

(** A blocked member in mode [both]: one notice, one removal, result [true]. *)
Example blocked_removed :
  let result := run quiet (checkAndHandleUser (fun s => s) (settings both []) in_guild "alice")
                  alice_blocked in
  result.1 = Resolved true /\
  enforcements result.2 =
    [SessionSend (Plain "removing alice (alice): spam"); KickGuildMember "g1" "alice"].
Proof. by vm_compute. Qed.
